(** * SimpleVector: a shallow embedding of [simple_vector.h] and [array_ptr.h]

    The two classes are embedded as they are written.  An [ArrayPtr<Type>]
    is the heap block its [raw_ptr_] owns, a [list T] ([[]] for [nullptr]);
    a [SimpleVector<Type>] is the record of its three fields.  [size_t]
    values are integers with the wrap-around of 64-bit unsigned arithmetic
    written out; iterators are offsets from [items_.Get()].  Reading or
    writing a block outside its bounds is undefined behaviour ([UB]);
    [At] throws.  The heap is unbounded: [new] never fails.  [PushBack]
    and [Insert] receive a reference: the embedding tells an object outside
    the vector from a slot of the vector's own block, which the call may
    free or overwrite before it reads the argument. *)

From Stdlib Require Import ZArith Lia.
From stdpp Require Import base tactics option numbers list.

Local Open Scope Z_scope.

(** ** [size_t] *)

Definition SIZE_MAX : Z := 2 ^ 64 - 1.

(** Conversion to [size_t], and the result of unsigned arithmetic. *)
Definition wrap (z : Z) : Z := z mod 2 ^ 64.

(** ** The element type

    What the templates ask of [Type]: a default value [Type()] and move
    assignment.  [moved x] is the state in which a value [x] is left once
    it has been moved from ([x] itself for [int], the empty value for an
    owning handle). *)

Class Element (T : Type) := {
  dflt : T;
  moved : T → T
}.

(** [operator==] and [operator<] of [Type], used by the comparison
    operators only. *)
Class Comparable (T : Type) := {
  eqb : T → T → bool;
  ltb : T → T → bool
}.

(** ** Outcomes of a member function *)

Inductive exn : Type := out_of_range.

Inductive outcome (St A : Type) : Type :=
| Ok (a : A) (s : St)
| Throw (e : exn) (s : St)
| UB.
Arguments Ok {St A} a s.
Arguments Throw {St A} e s.
Arguments UB {St A}.

Definition M (St A : Type) : Type := St → outcome St A.

Global Instance M_ret {St} : MRet (M St) := λ A a s, Ok a s.
Global Instance M_bind {St} : MBind (M St) := λ A B f m s,
  match m s with
  | Ok a s' => f a s'
  | Throw e s' => Throw e s'
  | UB => UB
  end.

Definition get {St} : M St St := λ s, Ok s s.
Definition put {St} (s : St) : M St unit := λ _, Ok tt s.
Definition throw {St A} (e : exn) : M St A := λ s, Throw e s.
Definition defined {St A} (o : option A) : M St A := λ s,
  match o with Some a => Ok a s | None => UB end.

(** ** Heap blocks *)

Section Block.
Context {T : Type} `{Element T}.

(** [p[i]] read and written; [None] outside the block. *)
Definition load (p : list T) (i : Z) : option T :=
  if decide (0 ≤ i) then p !! Z.to_nat i else None.

Definition store (p : list T) (i : Z) (x : T) : option (list T) :=
  if decide (0 ≤ i < Z.of_nat (length p)) then Some (<[Z.to_nat i := x]> p)
  else None.

(** [for (size_t i = a; i < b; ++i) body] *)
Fixpoint iterate {St} (n : nat) (i : Z) (body : Z → St → option St) (s : St)
  : option St :=
  match n with
  | O => Some s
  | S n' => s' ← body i s; iterate n' (i + 1) body s'
  end.

Definition for_range {St} (a b : Z) (body : Z → St → option St) (s : St)
  : option St :=
  iterate (Z.to_nat (b - a)) a body s.

(** [dst[d] = std::move(src[s])] between two blocks, and within one. *)
Definition move_between (dst src : list T) (d s : Z)
  : option (list T * list T) :=
  x ← load src s;
  dst' ← store dst d x;
  src' ← store src s (moved x);
  Some (dst', src').

Definition move_within (p : list T) (d s : Z) : option (list T) :=
  x ← load p s;
  p' ← store p d x;
  store p' s (moved x).

(** What is left of [x] after it has been moved from [k] times. *)
Definition remnant (x : T) (k : Z) : T := Nat.iter (Z.to_nat k) moved x.

(** *** The constructors of [ArrayPtr] *)

(** [new Type[size]], or [nullptr] for [size = 0].  Every slot is assigned
    [Type()] by the constructor right away. *)
Definition new_array (size : Z) : list T := replicate (Z.to_nat size) dflt.

(** [explicit ArrayPtr(size_t size)] *)
Definition ArrayPtr_size (size : Z) : option (list T) :=
  for_range 0 size (λ i p, store p i dflt) (new_array size).

(** [explicit ArrayPtr(size_t size, const Type& value)] *)
Definition ArrayPtr_copy_fill (size : Z) (value : T) : option (list T) :=
  p ← ArrayPtr_size size;
  for_range 0 size (λ i p, store p i value) p.

(** [explicit ArrayPtr(size_t size, Type&& value)]: the block, and what is
    left in the caller's [value]. *)
Definition ArrayPtr_move_fill (size : Z) (value : T) : option (list T * T) :=
  p ← ArrayPtr_size size;
  for_range 0 size
    (λ i '(p, value), p' ← store p i value; Some (p', moved value))
    (p, value).

(** *** The standard algorithms, on offsets into blocks *)

(** [std::move_backward(first, last, d_last)] within one block. *)
Fixpoint move_backward_loop (n : nat) (last d_last : Z) (p : list T)
  : option (list T) :=
  match n with
  | O => Some p
  | S n' =>
      p' ← move_within p (d_last - 1) (last - 1);
      move_backward_loop n' (last - 1) (d_last - 1) p'
  end.

Definition std_move_backward (first last d_last : Z) (p : list T)
  : option (list T) :=
  if decide (first ≤ last)
  then move_backward_loop (Z.to_nat (last - first)) last d_last p
  else None.

(** [std::move(first, last, d_first)] within one block. *)
Fixpoint move_loop (n : nat) (first d_first : Z) (p : list T)
  : option (list T) :=
  match n with
  | O => Some p
  | S n' =>
      p' ← move_within p d_first first;
      move_loop n' (first + 1) (d_first + 1) p'
  end.

Definition std_move (first last d_first : Z) (p : list T) : option (list T) :=
  if decide (first ≤ last)
  then move_loop (Z.to_nat (last - first)) first d_first p
  else None.

(** [std::copy(first, last, d_first)] from the block [src] into [dst]. *)
Fixpoint copy_loop (n : nat) (src : list T) (first d_first : Z) (dst : list T)
  : option (list T) :=
  match n with
  | O => Some dst
  | S n' =>
      x ← load src first;
      dst' ← store dst d_first x;
      copy_loop n' src (first + 1) (d_first + 1) dst'
  end.

Definition std_copy (src : list T) (first last d_first : Z) (dst : list T)
  : option (list T) :=
  if decide (first ≤ last)
  then copy_loop (Z.to_nat (last - first)) src first d_first dst
  else None.

(** The elements of the iterator range [[first, last)] of a block. *)
Definition range (p : list T) (first last : Z) : option (list T) :=
  if decide (0 ≤ first ≤ last ∧ last ≤ Z.of_nat (length p))
  then Some (take (Z.to_nat (last - first)) (drop (Z.to_nat first) p))
  else None.

End Block.

(** [std::equal(first1, last1, first2, last2)] and
    [std::lexicographical_compare(first1, last1, first2, last2)], on the
    elements of the two ranges. *)
Section Compare.
Context {T : Type} `{Comparable T}.

Fixpoint equal_loop (l1 l2 : list T) : bool :=
  match l1, l2 with
  | x :: l1', y :: l2' => if eqb x y then equal_loop l1' l2' else false
  | _, _ => true
  end.

Definition std_equal (l1 l2 : list T) : bool :=
  if decide (length l1 ≠ length l2) then false else equal_loop l1 l2.

Fixpoint std_lexicographical_compare (l1 l2 : list T) : bool :=
  match l1, l2 with
  | x :: l1', y :: l2' =>
      if ltb x y then true
      else if ltb y x then false
      else std_lexicographical_compare l1' l2'
  | [], _ :: _ => true
  | _, [] => false
  end.

End Compare.

(** ** [SimpleVector<Type>] *)

Record SimpleVector (T : Type) : Type := {
  items_ : list T;
  size_ : Z;
  capacity_ : Z
}.
Arguments items_ {T} _.
Arguments size_ {T} _.
Arguments capacity_ {T} _.

Section Vector.
Context {T : Type} `{Element T}.

Abbreviation vec := (SimpleVector T).

Definition set_items (p : list T) : M vec unit := λ v,
  Ok tt {| items_ := p; size_ := size_ v; capacity_ := capacity_ v |}.
Definition set_size (n : Z) : M vec unit := λ v,
  Ok tt {| items_ := items_ v; size_ := n; capacity_ := capacity_ v |}.
Definition set_capacity (n : Z) : M vec unit := λ v,
  Ok tt {| items_ := items_ v; size_ := size_ v; capacity_ := n |}.

(** [void swap(SimpleVector& other) noexcept]: the two objects afterwards. *)
Definition swap (this other : vec) : vec * vec :=
  ({| items_ := items_ other; size_ := size_ other;
      capacity_ := capacity_ other |},
   {| items_ := items_ this; size_ := size_ this;
      capacity_ := capacity_ this |}).

(** [SimpleVector() noexcept = default] *)
Definition SimpleVector_default : vec :=
  {| items_ := []; size_ := 0; capacity_ := 0 |}.

(** [explicit SimpleVector(size_t size)] *)
Definition SimpleVector_size (size : Z) : option vec :=
  p ← ArrayPtr_size size;
  Some {| items_ := p; size_ := size; capacity_ := size |}.

(** [explicit SimpleVector(size_t size, const Type& value)] *)
Definition SimpleVector_fill (size : Z) (value : T) : option vec :=
  p ← ArrayPtr_copy_fill size value;
  Some {| items_ := p; size_ := size; capacity_ := size |}.

(** [void IncreaseCapacity(size_t new_capacity)].  [Type()] is an rvalue, so
    [new_items] is built by the [Type&&] constructor of [ArrayPtr]; the old
    block, swapped into [new_items], dies with it. *)
Definition IncreaseCapacity (new_capacity : Z) : M vec unit :=
  v ← get;
  '(new_items, _) ← defined (ArrayPtr_move_fill new_capacity dflt);
  '(new_items, items) ←
    defined (for_range 0 (size_ v)
               (λ i '(q, p), move_between q p i i) (new_items, items_ v));
  set_items new_items;;
  set_capacity new_capacity.

(** [template <typename Other> void CopyAndSwap(const Other& other)], for an
    [other] whose [begin()] points to the block [src] and whose [size()] is
    [n]. *)
Definition CopyAndSwap (src : list T) (n : Z) : M vec unit :=
  c ← defined (SimpleVector_size n);
  p ← defined (std_copy src 0 n 0 (items_ c));
  v ← get;
  put (swap v {| items_ := p; size_ := size_ c; capacity_ := capacity_ c |}).1.

(** [void IsSizeEqualsCapacity()] *)
Definition IsSizeEqualsCapacity : M vec unit :=
  v ← get;
  if decide (size_ v = capacity_ v) then
    let new_capacity :=
      if decide (capacity_ v = 0) then 1 else wrap (2 * capacity_ v) in
    IncreaseCapacity new_capacity
  else mret tt.

(** Running the body of a constructor on the member-initialised object. *)
Definition construct (init : option vec) (body : M vec unit) : option vec :=
  v ← init;
  match body v with
  | Ok _ v' => Some v'
  | _ => None
  end.

(** [explicit SimpleVector(const SimpleVector& other)] *)
Definition SimpleVector_copy (other : vec) : option vec :=
  construct
    (p ← ArrayPtr_size (size_ other);
     Some {| items_ := p; size_ := size_ other;
             capacity_ := capacity_ other |})
    (CopyAndSwap (items_ other) (size_ other)).

(** [explicit SimpleVector(std::initializer_list<Type> init)] *)
Definition SimpleVector_init (init : list T) : option vec :=
  construct (Some SimpleVector_default)
    (CopyAndSwap init (Z.of_nat (length init))).

(** [explicit SimpleVector(const ReserveProxyObj& capacity)] *)
Definition SimpleVector_reserve (capacity_to_reserve : Z) : option vec :=
  construct (Some SimpleVector_default) (IncreaseCapacity capacity_to_reserve).

(** [SimpleVector(SimpleVector&& other) noexcept]: the new object, and
    [other] afterwards. *)
Definition SimpleVector_move (other : vec) : vec * vec :=
  ({| items_ := items_ other; size_ := size_ other;
      capacity_ := capacity_ other |},
   {| items_ := []; size_ := 0; capacity_ := 0 |}).

(** [void Reserve(size_t capacity)] *)
Definition Reserve (capacity : Z) : M vec unit :=
  v ← get;
  if decide (capacity_ v < capacity) then IncreaseCapacity capacity
  else mret tt.

(** [void PushBack(const Type& item)], for an [item] that is no part of
    this vector: its value is the same before and after the reallocation.
    [PushBack_ref] below is the call for any argument. *)
Definition PushBack (item : T) : M vec unit :=
  IsSizeEqualsCapacity;;
  v ← get;
  p ← defined (store (items_ v) (size_ v) item);
  set_items p;;
  set_size (wrap (size_ v + 1)).

(** [void PushBack(Type&& item)], for an [item] that is no part of this
    vector: returns what is left in the caller's [item]. *)
Definition PushBack_move (item : T) : M vec T :=
  IsSizeEqualsCapacity;;
  v ← get;
  p ← defined (store (items_ v) (size_ v) item);
  set_items p;;
  set_size (wrap (size_ v + 1));;
  mret (moved item).

(** [Iterator Insert(ConstIterator pos, const Type& value)], for a [value]
    that is no part of this vector.  [Insert_ref] below is the call for any
    argument. *)
Definition Insert (pos : Z) (value : T) : M vec Z :=
  let pos_index := wrap pos in
  IsSizeEqualsCapacity;;
  v ← get;
  let new_pos := pos_index in
  p ← defined (std_move_backward new_pos (size_ v) (size_ v + 1) (items_ v));
  p ← defined (store p new_pos value);
  set_items p;;
  set_size (wrap (size_ v + 1));;
  mret new_pos.

(** [Iterator Insert(ConstIterator pos, Type&& value)], for a [value] that
    is no part of this vector: the iterator, and what is left in the
    caller's [value]. *)
Definition Insert_move (pos : Z) (value : T) : M vec (Z * T) :=
  let pos_index := wrap pos in
  IsSizeEqualsCapacity;;
  v ← get;
  let new_pos := pos_index in
  p ← defined (std_move_backward new_pos (size_ v) (size_ v + 1) (items_ v));
  p ← defined (store p new_pos value);
  set_items p;;
  set_size (wrap (size_ v + 1));;
  mret (new_pos, moved value).

(** [void PopBack() noexcept] *)
Definition PopBack : M vec unit :=
  v ← get;
  if decide (size_ v > 0) then set_size (wrap (size_ v - 1)) else mret tt.

(** [Iterator Erase(ConstIterator pos)] *)
Definition Erase (pos : Z) : M vec Z :=
  v ← get;
  (if decide (size_ v > 0) then
     let index := pos in
     p ← defined (std_move (index + 1) (size_ v) index (items_ v));
     set_items p;;
     set_size (wrap (size_ v - 1))
   else mret tt);;
  mret pos.

Definition GetSize (v : vec) : Z := size_ v.
Definition GetCapacity (v : vec) : Z := capacity_ v.
Definition IsEmpty (v : vec) : bool := bool_decide (size_ v = 0).

(** [Type& operator[](size_t index) noexcept] *)
Definition subscript (index : Z) : M vec T :=
  v ← get; defined (load (items_ v) index).

(** [Type& At(size_t index)] *)
Definition At (index : Z) : M vec T :=
  v ← get;
  if decide (index >= size_ v) then throw out_of_range
  else defined (load (items_ v) index).

(** [void Clear() noexcept] *)
Definition Clear : M vec unit := set_size 0.

(** [void Resize(size_t new_size)] *)
Definition Resize (new_size : Z) : M vec unit :=
  v ← get;
  (if decide (new_size > capacity_ v) then
     IncreaseCapacity (Z.max new_size (wrap (capacity_ v * 2)))
   else if decide (new_size > size_ v) then
     p ← defined (for_range (size_ v) new_size (λ i p, store p i dflt)
                    (items_ v));
     set_items p
   else mret tt);;
  set_size new_size.

(** *** Arguments passed by reference

    [PushBack] and [Insert] take their element by reference and read it
    only once the buffer has grown and, for [Insert], once the elements
    have been shifted.  An argument is either an object outside the vector,
    given by its value, or one of the slots of the vector's own block, given
    by its index, as in [v.PushBack(v[0])]. *)

Inductive argument : Type :=
| Outside (x : T)
| Inside (k : Z).

(** The value read through a [const Type&] from the block [p].  [freed]
    tells that the call has reallocated: the block that an [Inside]
    argument refers to has been deleted. *)
Definition read_argument (freed : bool) (item : argument) (p : list T)
  : option T :=
  match item with
  | Outside x => Some x
  | Inside k => if freed then None else load p k
  end.

(** [p[dst] = std::move(item)] through a [Type&&]: the block afterwards. *)
Definition take_argument (freed : bool) (item : argument) (p : list T)
    (dst : Z) : option (list T) :=
  match item with
  | Outside x => store p dst x
  | Inside k => if freed then None else move_within p dst k
  end.

(** The argument once it has been moved from: an outside object keeps what
    the move left in it, a slot is still the same slot. *)
Definition left_behind (item : argument) : argument :=
  match item with
  | Outside x => Outside (moved x)
  | Inside k => Inside k
  end.

(** [void PushBack(const Type& item)] *)
Definition PushBack_ref (item : argument) : M vec unit :=
  v0 ← get;
  let freed := bool_decide (size_ v0 = capacity_ v0) in
  IsSizeEqualsCapacity;;
  v ← get;
  x ← defined (read_argument freed item (items_ v));
  p ← defined (store (items_ v) (size_ v) x);
  set_items p;;
  set_size (wrap (size_ v + 1)).

(** [void PushBack(Type&& item)]: returns the argument as the call leaves
    it. *)
Definition PushBack_move_ref (item : argument) : M vec argument :=
  v0 ← get;
  let freed := bool_decide (size_ v0 = capacity_ v0) in
  IsSizeEqualsCapacity;;
  v ← get;
  p ← defined (take_argument freed item (items_ v) (size_ v));
  set_items p;;
  set_size (wrap (size_ v + 1));;
  mret (left_behind item).

(** [Iterator Insert(ConstIterator pos, const Type& value)] *)
Definition Insert_ref (pos : Z) (value : argument) : M vec Z :=
  v0 ← get;
  let freed := bool_decide (size_ v0 = capacity_ v0) in
  let pos_index := wrap pos in
  IsSizeEqualsCapacity;;
  v ← get;
  let new_pos := pos_index in
  p ← defined (std_move_backward new_pos (size_ v) (size_ v + 1) (items_ v));
  x ← defined (read_argument freed value p);
  p ← defined (store p new_pos x);
  set_items p;;
  set_size (wrap (size_ v + 1));;
  mret new_pos.

(** [Iterator Insert(ConstIterator pos, Type&& value)]: the iterator, and
    the argument as the call leaves it. *)
Definition Insert_move_ref (pos : Z) (value : argument)
  : M vec (Z * argument) :=
  v0 ← get;
  let freed := bool_decide (size_ v0 = capacity_ v0) in
  let pos_index := wrap pos in
  IsSizeEqualsCapacity;;
  v ← get;
  let new_pos := pos_index in
  p ← defined (std_move_backward new_pos (size_ v) (size_ v + 1) (items_ v));
  p ← defined (take_argument freed value p new_pos);
  set_items p;;
  set_size (wrap (size_ v + 1));;
  mret (new_pos, left_behind value).

(** [PushBack] called once for each element of [xs], in turn. *)
Fixpoint push_all (xs : list T) : M vec unit :=
  match xs with
  | [] => mret tt
  | x :: xs' => PushBack x;; push_all xs'
  end.

(** [begin()] and [end()], as offsets from [items_.Get()]. *)
Definition begin_ (v : vec) : Z := 0.
Definition end_ (v : vec) : Z := 0 + size_ v.

(** The elements of [[begin(), end())]. *)
Definition elements (v : vec) : list T := take (Z.to_nat (size_ v)) (items_ v).

End Vector.

(** ** The comparison operators *)

Section Operators.
Context {T : Type} `{Comparable T}.

(** [operator==] *)
Definition operator_eq (lhs rhs : SimpleVector T) : option bool :=
  l ← range (items_ lhs) (begin_ lhs) (end_ lhs);
  r ← range (items_ rhs) (begin_ rhs) (end_ rhs);
  Some (std_equal l r).

(** [operator!=] *)
Definition operator_ne (lhs rhs : SimpleVector T) : option bool :=
  negb <$> operator_eq lhs rhs.

(** [operator<] *)
Definition operator_lt (lhs rhs : SimpleVector T) : option bool :=
  l ← range (items_ lhs) (begin_ lhs) (end_ lhs);
  r ← range (items_ rhs) (begin_ rhs) (end_ rhs);
  Some (std_lexicographical_compare l r).

(** [operator<=] *)
Definition operator_le (lhs rhs : SimpleVector T) : option bool :=
  negb <$> operator_lt rhs lhs.

(** [operator>] *)
Definition operator_gt (lhs rhs : SimpleVector T) : option bool :=
  operator_lt rhs lhs.

(** [operator>=] *)
Definition operator_ge (lhs rhs : SimpleVector T) : option bool :=
  negb <$> operator_lt lhs rhs.

End Operators.

(** ** Several vectors at once

    The assignment operators compare the addresses of their operands, and
    [swap] and the move operations change two objects.  A program's vectors
    are kept in a store; an object's identity is its position there. *)

Section World.
Context {T : Type} `{Element T}.

Abbreviation vec := (SimpleVector T).
Abbreviation world := (list (SimpleVector T)).

(** A member function called on the object [this]. *)
Definition call {A} (this : nat) (m : M vec A) : M world A := λ w,
  match w !! this with
  | None => UB
  | Some v =>
      match m v with
      | Ok a v' => Ok a (<[this := v']> w)
      | Throw e v' => Throw e (<[this := v']> w)
      | UB => UB
      end
  end.

Definition object (i : nat) : M world vec := call i get.

Definition new_object (init : option vec) : M world nat := λ w,
  match init with
  | Some v => Ok (length w) (w ++ [v])
  | None => UB
  end.

(** [SimpleVector b(a)] with [a] the object [other]. *)
Definition copy_construct (other : nat) : M world nat :=
  o ← object other;
  new_object (SimpleVector_copy o).

(** [SimpleVector b(std::move(a))] *)
Definition move_construct (other : nat) : M world nat :=
  o ← object other;
  call other (put (SimpleVector_move o).2);;
  new_object (Some (SimpleVector_move o).1).

(** [void swap(SimpleVector& other) noexcept] *)
Definition swap_objects (this other : nat) : M world unit :=
  a ← object this;
  b ← object other;
  call this (put (swap a b).1);;
  call other (put (swap a b).2).

(** [SimpleVector& operator=(const SimpleVector& rhs)] *)
Definition copy_assign (this rhs : nat) : M world unit :=
  if decide (this ≠ rhs) then
    r ← object rhs;
    temp ← defined (SimpleVector_copy r);
    a ← object this;
    call this (put (swap a temp).1)
  else mret tt.

(** [SimpleVector& operator=(SimpleVector&& other) noexcept] *)
Definition move_assign (this other : nat) : M world unit :=
  if decide (this ≠ other) then
    call this Clear;;
    o ← object other;
    call other (put (SimpleVector_move o).2);;
    a ← object this;
    call this (put (swap a (SimpleVector_move o).1).1)
  else mret tt.

(** *** Programs: finite sequences of operations

    The values a program pushes or inserts are objects of the program,
    outside the vectors. *)

Inductive op : Type :=
| New_default
| New_size (size : Z)
| New_fill (size : Z) (value : T)
| New_init (init : list T)
| New_reserve (capacity : Z)
| New_copy (other : nat)
| New_move (other : nat)
| Assign_copy (this rhs : nat)
| Assign_move (this other : nat)
| Do_Reserve (this : nat) (capacity : Z)
| Do_PushBack (this : nat) (item : T)
| Do_PushBack_move (this : nat) (item : T)
| Do_Insert (this : nat) (pos : Z) (value : T)
| Do_Insert_move (this : nat) (pos : Z) (value : T)
| Do_PopBack (this : nat)
| Do_Erase (this : nat) (pos : Z)
| Do_Clear (this : nat)
| Do_Resize (this : nat) (new_size : Z)
| Do_swap (this other : nat).

(** Arguments are values of their C++ types: a [size_t], or the difference
    of two pointers. *)
Definition size_arg (n : Z) : M world unit :=
  if decide (0 ≤ n ≤ SIZE_MAX) then mret tt else defined None.
Definition iterator_arg (pos : Z) : M world unit :=
  if decide (- 2 ^ 63 ≤ pos < 2 ^ 63) then mret tt else defined None.

Definition step (o : op) : M world unit :=
  match o with
  | New_default => new_object (Some SimpleVector_default);; mret tt
  | New_size n => size_arg n;; new_object (SimpleVector_size n);; mret tt
  | New_fill n x => size_arg n;; new_object (SimpleVector_fill n x);; mret tt
  | New_init l =>
      size_arg (Z.of_nat (length l));;
      new_object (SimpleVector_init l);; mret tt
  | New_reserve n =>
      size_arg n;; new_object (SimpleVector_reserve n);; mret tt
  | New_copy j => copy_construct j;; mret tt
  | New_move j => move_construct j;; mret tt
  | Assign_copy i j => copy_assign i j
  | Assign_move i j => move_assign i j
  | Do_Reserve i n => size_arg n;; call i (Reserve n)
  | Do_PushBack i x => call i (PushBack x)
  | Do_PushBack_move i x => call i (PushBack_move x);; mret tt
  | Do_Insert i pos x => iterator_arg pos;; call i (Insert pos x);; mret tt
  | Do_Insert_move i pos x =>
      iterator_arg pos;; call i (Insert_move pos x);; mret tt
  | Do_PopBack i => call i PopBack
  | Do_Erase i pos => iterator_arg pos;; call i (Erase pos);; mret tt
  | Do_Clear i => call i Clear
  | Do_Resize i n => size_arg n;; call i (Resize n)
  | Do_swap i j => swap_objects i j
  end.

Fixpoint run (ops : list op) : M world unit :=
  match ops with
  | [] => mret tt
  | o :: ops' => step o;; run ops'
  end.

(** *** The count of elements logically present

    The bookkeeping of the specification, kept apart from the code: one
    count per object, raised by one for each element pushed or inserted,
    lowered by one for each element popped or erased, by all for [Clear],
    set by a construction or a [Resize], and carried along by copies, moves
    and swaps. *)

Definition count_of (c : list Z) (i : nat) : Z := default 0 (c !! i).

Definition ledger_step (o : op) (c : list Z) : list Z :=
  match o with
  | New_default => c ++ [0]
  | New_size n => c ++ [n]
  | New_fill n _ => c ++ [n]
  | New_init l => c ++ [Z.of_nat (length l)]
  | New_reserve _ => c ++ [0]
  | New_copy j => c ++ [count_of c j]
  | New_move j => <[j := 0]> c ++ [count_of c j]
  | Assign_copy i j => <[i := count_of c j]> c
  | Assign_move i j =>
      if decide (i = j) then c else <[i := count_of c j]> (<[j := 0]> c)
  | Do_Reserve _ _ => c
  | Do_PushBack i _ | Do_PushBack_move i _ => <[i := count_of c i + 1]> c
  | Do_Insert i _ _ | Do_Insert_move i _ _ => <[i := count_of c i + 1]> c
  | Do_PopBack i | Do_Erase i _ =>
      if decide (count_of c i > 0) then <[i := count_of c i - 1]> c else c
  | Do_Clear i => <[i := 0]> c
  | Do_Resize i n => <[i := n]> c
  | Do_swap i j => <[j := count_of c i]> (<[i := count_of c j]> c)
  end.

Fixpoint ledger (ops : list op) (c : list Z) : list Z :=
  match ops with
  | [] => c
  | o :: ops' => ledger ops' (ledger_step o c)
  end.

(** *** Programs that lower no size

    An operation that is not [PopBack], [Erase] or [Clear], nor a [Resize]
    below the present size; and the runs made of such operations only. *)

Definition growing (o : op) (w : world) : Prop :=
  match o with
  | Do_PopBack _ | Do_Erase _ _ | Do_Clear _ => False
  | Do_Resize i n => ∀ v, w !! i = Some v → size_ v ≤ n
  | _ => True
  end.

Fixpoint growing_run (ops : list op) (w w' : world) : Prop :=
  match ops with
  | [] => w' = w
  | o :: ops' =>
      growing o w ∧ ∃ w1, step o w = Ok tt w1 ∧ growing_run ops' w1 w'
  end.

End World.

(** ** [ReserveProxyObj] and the free function [Reserve] *)

Module ReserveProxy.

Record ReserveProxyObj : Type := { capacity_ : Z }.

Definition GetCapacityToReserve (obj : ReserveProxyObj) : Z := capacity_ obj.

(** [ReserveProxyObj Reserve(size_t capacity_to_reserve)] *)
Definition Reserve (capacity_to_reserve : Z) : ReserveProxyObj :=
  {| capacity_ := capacity_to_reserve |}.

End ReserveProxy.

(** ** [ArrayPtr<Type>] as an owner

    The heap made explicit, for the members of [ArrayPtr] that hand a block
    over or give it back: a block lives at an address until it is deleted,
    and an [ArrayPtr] object holds an address or [nullptr].  Every block of
    this heap was obtained by [new Type[n]]. *)

Module Ownership.

(** [raw_ptr_]: [None] for [nullptr]. *)
Record ArrayPtr : Type := { raw_ptr_ : option nat }.

Section Memory.
Context {T : Type} `{Element T}.

Record memory : Type := {
  blocks : list (option (list T));
  objects : list ArrayPtr
}.

(** [new Type[n]] holding [block], at a fresh address. *)
Definition new_array (block : list T) : M memory nat := λ s,
  Ok (length (blocks s))
     {| blocks := blocks s ++ [Some block]; objects := objects s |}.

(** [delete[] p]: nothing for [nullptr]; undefined unless [p] is live. *)
Definition delete_array (p : option nat) : M memory unit := λ s,
  match p with
  | None => Ok tt s
  | Some a =>
      match blocks s !! a with
      | Some (Some _) =>
          Ok tt {| blocks := <[a := None]> (blocks s); objects := objects s |}
      | _ => UB
      end
  end.

(** [delete p], the single-object form: nothing for [nullptr]; undefined for
    a pointer that did not come from a single-object [new], as is every
    pointer to a block of this heap. *)
Definition delete_single (p : option nat) : M memory unit := λ s,
  match p with
  | None => Ok tt s
  | Some _ => UB
  end.

(** The member [raw_ptr_] of the object [this], read and assigned. *)
Definition read_ptr (this : nat) : M memory (option nat) := λ s,
  match objects s !! this with
  | Some o => Ok (raw_ptr_ o) s
  | None => UB
  end.

Definition assign_ptr (this : nat) (p : option nat) : M memory unit := λ s,
  match objects s !! this with
  | Some _ =>
      Ok tt {| blocks := blocks s;
               objects := <[this := {| raw_ptr_ := p |}]> (objects s) |}
  | None => UB
  end.

(** A new object, member-initialised with [p]. *)
Definition new_ptr (p : option nat) : M memory nat := λ s,
  Ok (length (objects s))
     {| blocks := blocks s; objects := objects s ++ [{| raw_ptr_ := p |}] |}.

(** [ArrayPtr() = default] *)
Definition ArrayPtr_default : M memory nat := new_ptr None.

(** [explicit ArrayPtr(size_t size)]; the loop fills the block as in
    [ArrayPtr_size] above. *)
Definition ArrayPtr_size (size : Z) : M memory nat :=
  if decide (size ≠ 0) then
    block ← defined (ArrayPtr_size size);
    a ← new_array block;
    new_ptr (Some a)
  else new_ptr None.

(** [explicit ArrayPtr(Type* raw_ptr) noexcept] *)
Definition ArrayPtr_raw (raw_ptr : option nat) : M memory nat :=
  new_ptr raw_ptr.

(** [ArrayPtr(ArrayPtr&& other) noexcept] *)
Definition ArrayPtr_move (other : nat) : M memory nat :=
  p ← read_ptr other;
  this ← new_ptr p;
  assign_ptr other None;;
  mret this.

(** [ArrayPtr& operator=(ArrayPtr&& other) noexcept] *)
Definition move_assign (this other : nat) : M memory unit :=
  if decide (this ≠ other) then
    p ← read_ptr this;
    delete_single p;;
    o ← read_ptr other;
    assign_ptr this o;;
    assign_ptr other None
  else mret tt.

(** [~ArrayPtr()] *)
Definition destroy (this : nat) : M memory unit :=
  p ← read_ptr this;
  delete_array p.

(** [[[nodiscard]] Type* Release() noexcept] *)
Definition Release (this : nat) : M memory (option nat) :=
  temp ← read_ptr this;
  assign_ptr this None;;
  mret temp.

(** [Type& operator[](size_t index) noexcept] *)
Definition subscript (this : nat) (index : Z) : M memory T :=
  p ← read_ptr this;
  s ← get;
  match p with
  | Some a =>
      match blocks s !! a with
      | Some (Some block) => defined (load block index)
      | _ => defined None
      end
  | None => defined None
  end.

(** [explicit operator bool() const] *)
Definition to_bool (this : nat) : M memory bool :=
  p ← read_ptr this;
  mret (bool_decide (p ≠ None)).

(** [Type* Get() const noexcept] *)
Definition Get (this : nat) : M memory (option nat) := read_ptr this.

(** [void swap(ArrayPtr& other) noexcept] *)
Definition swap (this other : nat) : M memory unit :=
  a ← read_ptr this;
  b ← read_ptr other;
  assign_ptr this b;;
  assign_ptr other a.

End Memory.
End Ownership.

(** ** Instances used in the examples *)

(** [int]: moving is copying. *)
Global Instance Element_int : Element Z := {| dflt := 0; moved := id |}.
Global Instance Comparable_int : Comparable Z :=
  {| eqb := Z.eqb; ltb := Z.ltb |}.

(** An owning handle in the manner of [std::unique_ptr<int>]: moving leaves
    the source empty. *)
Global Instance Element_handle : Element (option Z) :=
  {| dflt := None; moved := λ _, None |}.

(** A vector of integers with one unused slot, and a heap with one block
    and two [ArrayPtr] objects, the first of which owns the block. *)
Definition sample : SimpleVector Z :=
  {| items_ := [10; 20; 30; 0]; size_ := 3; capacity_ := 4 |}.

Definition sample_memory : Ownership.memory (T := Z) :=
  {| Ownership.blocks := [Some [1; 2]];
     Ownership.objects := [{| Ownership.raw_ptr_ := Some 0%nat |};
                           {| Ownership.raw_ptr_ := None |}] |}.

(** An element type that shows how often a value was moved from: each move
    takes 100 off the source, so that a default value that has been moved
    from is no longer the default. *)
Definition Element_marked : Element Z :=
  {| dflt := 0; moved := λ x, x - 100 |}.


(** The scenario of the specification, as a program. *)
Definition scenario : list (@op Z) :=
  [New_default; Do_PushBack 0 10; Do_PushBack 0 20; Do_Insert 0 1 15;
   Do_Erase 0 0; Do_Resize 0 5].

(** ** Notions of the specification *)

Section SpecNotions.
Context {T : Type} `{Element T}.

(** The representation invariant: [capacity_] is the length of the block,
    [size_] lies within it, and both are values of [size_t]. *)
Definition wf (v : SimpleVector T) : Prop :=
  Z.of_nat (length (items_ v)) = capacity_ v ∧
  0 ≤ size_ v ≤ capacity_ v ∧
  capacity_ v ≤ SIZE_MAX.

(** The content of the backing-storage slot [k]. *)
Definition slot (v : SimpleVector T) (k : Z) : option T := load (items_ v) k.

(** The growth policy of [PushBack] and [Insert], in the words of the
    specification: [max(1, 2 * old_capacity)] when the buffer is full. *)
Definition grown_capacity (v : SimpleVector T) : Z :=
  if decide (size_ v = capacity_ v) then Z.max 1 (2 * capacity_ v)
  else capacity_ v.

(** The capacity sequence [1, 2, 4, 8, ...] of the specification: the
    least power of two that holds [k] elements, and [0] for none. *)
Definition doubling_capacity (k : Z) : Z :=
  if decide (k = 0) then 0 else 2 ^ Z.log2_up k.

(** No wrap-around in the doubling of a full buffer. *)
Definition can_grow (v : SimpleVector T) : Prop :=
  size_ v = capacity_ v → 2 * capacity_ v ≤ SIZE_MAX.

(** The slots [[size, capacity)] hold default values. *)
Definition slack_default (v : SimpleVector T) : Prop :=
  ∀ k, size_ v ≤ k < capacity_ v → slot v k = Some dflt.

(** What slot [k] holds once [Insert] at [pos] has shifted the elements
    from [pos] on up by one: the old neighbour below for a slot of the
    shifted range, the remnant of the element moved away for the slot at
    [pos], and the old content elsewhere. *)
Definition shifted (v : SimpleVector T) (pos k : Z) : option T :=
  if decide (pos < k ≤ size_ v) then slot v (k - 1)
  else if decide (k = pos ∧ pos < size_ v) then moved <$> slot v k
  else slot v k.

(** The invariant of a store, with the counts the ledger holds for it. *)
Definition tracked (w : list (SimpleVector T)) (c : list Z) : Prop :=
  Forall wf w ∧ size_ <$> w = c.

(** A store of well-formed vectors whose unused slots are default-valued. *)
Definition tidy (w : list (SimpleVector T)) : Prop :=
  Forall (λ v, wf v ∧ slack_default v) w.

End SpecNotions.

(** The lexicographic order of the specification: the two sequences agree
    (neither element is less than the other) on their first [n] places, and
    then either the first has ended and the second has not, or the first
    has the lesser element. *)
Definition lex_less {T : Type} `{Comparable T} (l1 l2 : list T) : Prop :=
  ∃ n : nat,
    (∀ i : nat, (i < n)%nat →
       ∃ x y, l1 !! i = Some x ∧ l2 !! i = Some y ∧
              ltb x y = false ∧ ltb y x = false) ∧
    ((length l1 = n ∧ (n < length l2)%nat) ∨
     (∃ x y, l1 !! n = Some x ∧ l2 !! n = Some y ∧ ltb x y = true)).

(** * Properties *)

(** ** The monad *)

Lemma bind_Ok_inv {St A B} (m : M St A) (f : A → M St B) s b s' :
  (m ≫= f) s = Ok b s' → ∃ a s1, m s = Ok a s1 ∧ f a s1 = Ok b s'.
Proof.
  unfold mbind, M_bind. destruct (m s) as [a s1| |]; try discriminate.
  intros Hf. by exists a, s1.
Qed.

Lemma bind_Ok {St A B} (m : M St A) (f : A → M St B) s a s1 :
  m s = Ok a s1 → (m ≫= f) s = f a s1.
Proof. unfold mbind, M_bind. by intros ->. Qed.

Lemma bind_UB {St A B} (m : M St A) (f : A → M St B) s :
  m s = UB → (m ≫= f) s = UB.
Proof. unfold mbind, M_bind. by intros ->. Qed.

(** ** Blocks *)

Section BlockFacts.
Context {T : Type} `{Element T}.
Implicit Types (p q : list T) (i j k : Z) (x y : T).

Lemma load_lookup p i : 0 ≤ i → load p i = p !! Z.to_nat i.
Proof. intros. unfold load. by case_decide. Qed.

Lemma load_neg p i : i < 0 → load p i = None.
Proof. intros. unfold load. case_decide; [lia | done]. Qed.

Lemma load_Some_bound p i x : load p i = Some x → 0 ≤ i < Z.of_nat (length p).
Proof.
  unfold load. case_decide; [|done]. intros Hl%lookup_lt_Some. lia.
Qed.

Lemma load_is_Some p i : 0 ≤ i < Z.of_nat (length p) → is_Some (load p i).
Proof.
  intros. rewrite load_lookup by lia. apply lookup_lt_is_Some. lia.
Qed.

Lemma load_ge p i : Z.of_nat (length p) ≤ i → load p i = None.
Proof.
  intros. destruct (load p i) eqn:E; [|done].
  apply load_Some_bound in E. lia.
Qed.

Lemma store_Some p i x :
  0 ≤ i < Z.of_nat (length p) → store p i x = Some (<[Z.to_nat i := x]> p).
Proof. intros. unfold store. by case_decide. Qed.

Lemma store_inv p i x q :
  store p i x = Some q →
  0 ≤ i < Z.of_nat (length p) ∧ q = <[Z.to_nat i := x]> p.
Proof. unfold store. case_decide; [|done]. by intros [= <-]. Qed.

Lemma store_length p i x q : store p i x = Some q → length q = length p.
Proof. intros [_ ->]%store_inv. apply length_insert. Qed.

Lemma load_store p i x q k :
  store p i x = Some q →
  load q k = if decide (k = i) then Some x else load p k.
Proof.
  intros [Hi ->]%store_inv. destruct (decide (0 ≤ k)) as [Hk|Hk].
  - rewrite !load_lookup by done. case_decide as E.
    + subst k. apply list_lookup_insert_eq. lia.
    + apply list_lookup_insert_ne. lia.
  - rewrite !load_neg by lia. case_decide; [lia | done].
Qed.

Lemma block_ext p q :
  length p = length q →
  (∀ k, 0 ≤ k < Z.of_nat (length p) → load p k = load q k) →
  p = q.
Proof.
  intros Hlen Hk. apply list_eq. intros n.
  destruct (decide (n < length p)%nat) as [Hn|Hn].
  - specialize (Hk (Z.of_nat n)). rewrite !load_lookup, Nat2Z.id in Hk by lia.
    apply Hk. lia.
  - rewrite !lookup_ge_None_2; [done | lia | lia].
Qed.

Lemma load_replicate (n : nat) x k :
  load (replicate n x) k =
  if decide (0 ≤ k < Z.of_nat n) then Some x else None.
Proof.
  case_decide as E.
  - rewrite load_lookup by lia. apply lookup_replicate_2. lia.
  - destruct (decide (0 ≤ k)); [|by apply load_neg; lia].
    apply load_ge. rewrite length_replicate. lia.
Qed.

Lemma load_take p (n : nat) k :
  load (take n p) k = if decide (k < Z.of_nat n) then load p k else None.
Proof.
  destruct (decide (0 ≤ k)) as [Hk|Hk].
  - rewrite !load_lookup by done. case_decide.
    + apply lookup_take_lt. lia.
    + apply lookup_take_ge. lia.
  - rewrite !load_neg by lia. by case_decide.
Qed.

Lemma remnant_dflt k : moved dflt = dflt → remnant dflt k = dflt.
Proof.
  intros Hm. unfold remnant. induction (Z.to_nat k) as [|n IH]; [done|].
  simpl. by rewrite IH.
Qed.

Lemma remnant_succ x k : 0 ≤ k → remnant x (k + 1) = moved (remnant x k).
Proof.
  intros. unfold remnant. replace (Z.to_nat (k + 1)) with (S (Z.to_nat k)) by lia.
  done.
Qed.

(** *** Loops *)

Lemma iterate_inv {St} (I : Z → St → Prop) (body : Z → St → option St) n :
  ∀ i s,
    I i s →
    (∀ j s, i ≤ j < i + Z.of_nat n → I j s →
            ∃ s', body j s = Some s' ∧ I (j + 1) s') →
    ∃ s', iterate n i body s = Some s' ∧ I (i + Z.of_nat n) s'.
Proof.
  induction n as [|n IH]; intros i s Hs Hbody; simpl.
  - exists s. split; [done|]. by replace (i + Z.of_nat 0) with i by lia.
  - destruct (Hbody i s) as (s1 & -> & Hs1); [lia | done |]. simpl.
    destruct (IH (i + 1) s1) as (s' & -> & Hs'); [done | |].
    + intros j s2 Hj. apply Hbody. lia.
    + exists s'. split; [done|].
      by replace (i + Z.of_nat (S n)) with (i + 1 + Z.of_nat n) by lia.
Qed.

Lemma fill_loop a b p x :
  0 ≤ a → b ≤ Z.of_nat (length p) →
  ∃ q, for_range a b (λ i p, store p i x) p = Some q ∧
       length q = length p ∧
       ∀ k, load q k = if decide (a ≤ k < b) then Some x else load p k.
Proof.
  intros Ha Hb. unfold for_range.
  destruct (iterate_inv
    (λ j q, length q = length p ∧
            ∀ k, load q k = if decide (a ≤ k < j) then Some x else load p k)
    (λ i p, store p i x) (Z.to_nat (b - a)) a p) as (q & -> & Hlen & Hq).
  - split; [done|]. intros k. case_decide; [lia | done].
  - intros j s Hj [Hlen Hs].
    destruct (store s j x) as [s'|] eqn:E.
    + exists s'. split; [done|]. split.
      * by rewrite (store_length _ _ _ _ E).
      * intros k. rewrite (load_store _ _ _ _ k E), Hs.
        repeat case_decide; done || lia.
    + rewrite store_Some in E by lia. done.
  - exists q. split; [done|]. split; [done|]. intros k. rewrite Hq.
    repeat case_decide; done || lia.
Qed.

Lemma ArrayPtr_size_eq size :
  ArrayPtr_size size = Some (replicate (Z.to_nat size) dflt).
Proof.
  unfold ArrayPtr_size, new_array.
  destruct (fill_loop 0 size (replicate (Z.to_nat size) dflt) dflt)
    as (q & -> & Hlen & Hq); [lia | rewrite length_replicate; lia |].
  f_equal. apply block_ext; [done|]. intros k Hk. rewrite Hq.
  rewrite load_replicate. rewrite Hlen, length_replicate in Hk.
  repeat case_decide; done || lia.
Qed.

Lemma ArrayPtr_copy_fill_eq size value :
  ArrayPtr_copy_fill size value = Some (replicate (Z.to_nat size) value).
Proof.
  unfold ArrayPtr_copy_fill. rewrite ArrayPtr_size_eq. simpl.
  destruct (fill_loop 0 size (replicate (Z.to_nat size) dflt) value)
    as (q & -> & Hlen & Hq); [lia | rewrite length_replicate; lia |].
  f_equal. rewrite length_replicate in Hlen.
  apply block_ext; [by rewrite length_replicate|]. intros k Hk.
  rewrite Hq, !load_replicate. rewrite Hlen in Hk.
  repeat case_decide; done || lia.
Qed.

Lemma ArrayPtr_move_fill_spec size value :
  ∃ q, ArrayPtr_move_fill size value
         = Some (q, remnant value (Z.max 0 size)) ∧
       length q = Z.to_nat size ∧
       ∀ k, load q k =
            if decide (0 ≤ k < size) then Some (remnant value k) else None.
Proof.
  unfold ArrayPtr_move_fill. rewrite ArrayPtr_size_eq. simpl.
  unfold for_range.
  destruct (iterate_inv
    (λ j (s : list T * T),
       length s.1 = Z.to_nat size ∧ s.2 = remnant value j ∧
       ∀ k, load s.1 k =
            if decide (0 ≤ k < j) then Some (remnant value k)
            else load (replicate (Z.to_nat size) dflt) k)
    (λ i '(p, value), p' ← store p i value; Some (p', moved value))
    (Z.to_nat (size - 0)) 0 (replicate (Z.to_nat size) dflt, value))
    as ([q y] & -> & Hlen & Hy & Hq); simpl in *.
  - split; [by rewrite length_replicate|]. split; [done|].
    intros k. case_decide; [lia | done].
  - intros j [s v] Hj (Hlen & Hv & Hs). simpl in *.
    rewrite store_Some by lia. simpl. eexists. split; [done|]. simpl.
    split; [by rewrite length_insert|]. split.
    + subst v. by rewrite remnant_succ by lia.
    + intros k. erewrite load_store by (apply store_Some; lia). rewrite Hs.
      subst v. repeat case_decide; subst; done || lia.
  - exists q. split; [|split; [done|]].
    + do 2 f_equal. subst y. f_equal. lia.
    + intros k. rewrite Hq, load_replicate.
      repeat case_decide; done || lia.
Qed.

End BlockFacts.

Section LoopFacts.
Context {T : Type} `{Element T}.
Implicit Types (p q : list T) (i j k : Z) (x y : T).

(** Closes the cases of a slot-by-slot comparison of two blocks. *)
Ltac slots :=
  repeat case_decide; subst; try lia; try done;
  try (f_equal; lia).

(** The same, with one slot whose content [Hx] records. *)
Ltac slots_with Hx :=
  repeat case_decide; try lia; try done;
  try (match type of Hx with
       | load ?p ?e0 = _ =>
           repeat match goal with
             | |- context [load p ?e] =>
                 lazymatch e with
                 | e0 => fail
                 | _ => replace e with e0 by lia
                 end
             end
       end; rewrite ?Hx);
  try done; try (f_equal; lia).

Lemma move_between_spec q p d s x :
  load p s = Some x → 0 ≤ d < Z.of_nat (length q) →
  ∃ q' p', move_between q p d s = Some (q', p') ∧
           store q d x = Some q' ∧ store p s (moved x) = Some p'.
Proof.
  intros Hx Hd. unfold move_between. rewrite Hx. simpl.
  rewrite (store_Some q) by done. simpl.
  rewrite (store_Some p) by (by apply load_Some_bound in Hx). simpl.
  by eexists _, _.
Qed.

Lemma move_between_inv q p d s q' p' :
  move_between q p d s = Some (q', p') →
  0 ≤ d < Z.of_nat (length q) ∧ length q' = length q.
Proof.
  unfold move_between. destruct (load p s) as [x|]; [simpl|done].
  destruct (store q d x) as [q1|] eqn:E; [simpl|done].
  destruct (store p s (moved x)); [simpl|done]. intros [= <- <-].
  split; [by apply store_inv in E as [? _] | by apply store_length in E].
Qed.

(** The loop of [IncreaseCapacity]. *)
Lemma grow_loop s q0 p0 :
  0 ≤ s ≤ Z.of_nat (length p0) → s ≤ Z.of_nat (length q0) →
  ∃ q p, for_range 0 s (λ i '(q, p), move_between q p i i) (q0, p0)
           = Some (q, p) ∧
         length q = length q0 ∧
         ∀ k, load q k = if decide (0 ≤ k < s) then load p0 k else load q0 k.
Proof.
  intros Hp Hq. unfold for_range.
  destruct (iterate_inv
    (λ j (st : list T * list T),
       length st.1 = length q0 ∧ length st.2 = length p0 ∧
       (∀ k, load st.1 k =
             if decide (0 ≤ k < j) then load p0 k else load q0 k) ∧
       (∀ k, j ≤ k → load st.2 k = load p0 k))
    (λ i '(q, p), move_between q p i i)
    (Z.to_nat (s - 0)) 0 (q0, p0))
    as ([q p] & -> & Hlen & _ & Hload & _); simpl in *.
  - repeat split; try done. intros k. case_decide; [lia | done].
  - intros j [q p] Hj (Hlq & Hlp & Hq1 & Hp1). simpl in *.
    destruct (load_is_Some p0 j) as [x Hx]; [lia|].
    destruct (move_between_spec q p j j x) as (q' & p' & -> & Hsq & Hsp);
      [by rewrite Hp1 by lia | lia |].
    eexists. split; [done|]. simpl. repeat split.
    + by rewrite (store_length _ _ _ _ Hsq).
    + by rewrite (store_length _ _ _ _ Hsp).
    + intros k. rewrite (load_store _ _ _ _ k Hsq), Hq1. slots.
    + intros k Hk. rewrite (load_store _ _ _ _ k Hsp), Hp1 by lia. slots.
  - exists q, p. repeat split; try done. intros k. rewrite Hload. slots.
Qed.

Lemma grow_iterate_inv n : ∀ i q p r,
  iterate (S n) i (λ i '(q, p), move_between q p i i) (q, p) = Some r →
  0 ≤ i ∧ i + Z.of_nat (S n) ≤ Z.of_nat (length q).
Proof.
  induction n as [|n IH]; intros i q p r.
  - simpl. destruct (move_between q p i i) as [[q' p']|] eqn:E; [|done].
    apply move_between_inv in E. lia.
  - change (iterate (S (S n)) i ?b ?s)
      with (s' ← b i s; iterate (S n) (i + 1) b s').
    cbv beta iota. destruct (move_between q p i i) as [[q' p']|] eqn:E; [|done]. simpl.
    intros Hr%IH. apply move_between_inv in E. lia.
Qed.

Lemma move_within_spec p d s x :
  load p s = Some x → 0 ≤ d < Z.of_nat (length p) →
  ∃ q, move_within p d s = Some q ∧ length q = length p ∧
       ∀ k, load q k = if decide (k = s) then Some (moved x)
                       else if decide (k = d) then Some x else load p k.
Proof.
  intros Hx Hd. unfold move_within. rewrite Hx. simpl.
  destruct (store p d x) as [p1|] eqn:E1; [|by rewrite store_Some in E1].
  simpl. pose proof (load_Some_bound _ _ _ Hx) as Hs.
  destruct (store p1 s (moved x)) as [p2|] eqn:E2.
  - exists p2. split; [done|]. split.
    + by rewrite (store_length _ _ _ _ E2), (store_length _ _ _ _ E1).
    + intros k. rewrite (load_store _ _ _ _ k E2), (load_store _ _ _ _ k E1).
      done.
  - rewrite store_Some in E2; [done|]. by rewrite (store_length _ _ _ _ E1).
Qed.

Lemma move_within_inv p d s q :
  move_within p d s = Some q → 0 ≤ d < Z.of_nat (length p).
Proof.
  unfold move_within. destruct (load p s) as [x|]; [simpl|done].
  destruct (store p d x) as [p1|] eqn:E; [|done].
  by apply store_inv in E as [? _].
Qed.

(** [std::move_backward(first, last, last + 1)]: the shift of [Insert]. *)
Lemma move_backward_loop_spec n : ∀ last p,
  0 ≤ last - Z.of_nat n → last < Z.of_nat (length p) →
  ∃ q, move_backward_loop n last (last + 1) p = Some q ∧
       length q = length p ∧
       ∀ k, load q k =
            if decide (last - Z.of_nat n < k ≤ last) then load p (k - 1)
            else if decide (k = last - Z.of_nat n ∧ (0 < n)%nat)
                 then moved <$> load p k
                 else load p k.
Proof.
  induction n as [|n IH]; intros last p Hn Hlast.
  - exists p. repeat split; try done. intros k. slots.
  - simpl. replace (last + 1 - 1) with (last - 1 + 1) by lia.
    destruct (load_is_Some p (last - 1)) as [x Hx]; [lia|].
    destruct (move_within_spec p (last - 1 + 1) (last - 1) x)
      as (p1 & -> & Hlen1 & Hp1); [done | lia |]. simpl.
    destruct (IH (last - 1) p1) as (q & -> & Hlen & Hq); [lia | lia |].
    exists q. split; [done|]. split; [congruence|].
    intros k. rewrite Hq, !Hp1. slots_with Hx.
Qed.

(** [std::move(first, last, first - 1)]: the shift of [Erase]. *)
Lemma move_loop_spec n : ∀ first p,
  1 ≤ first → first + Z.of_nat n ≤ Z.of_nat (length p) →
  ∃ q, move_loop n first (first - 1) p = Some q ∧
       length q = length p ∧
       ∀ k, load q k =
            if decide (first - 1 ≤ k < first - 1 + Z.of_nat n)
            then load p (k + 1)
            else if decide (k = first - 1 + Z.of_nat n ∧ (0 < n)%nat)
                 then moved <$> load p k
                 else load p k.
Proof.
  induction n as [|n IH]; intros first p Hf Hn.
  - exists p. repeat split; try done. intros k. slots.
  - simpl. replace (first - 1 + 1) with (first + 1 - 1) by lia.
    destruct (load_is_Some p first) as [x Hx]; [lia|].
    destruct (move_within_spec p (first - 1) first x)
      as (p1 & -> & Hlen1 & Hp1); [done | lia |]. simpl.
    destruct (IH (first + 1) p1) as (q & -> & Hlen & Hq); [lia | lia |].
    exists q. split; [done|]. split; [congruence|].
    intros k. rewrite Hq, !Hp1. slots_with Hx.
Qed.

Lemma move_loop_inv n first d p q :
  move_loop (S n) first d p = Some q → 0 ≤ d.
Proof.
  simpl. destruct (move_within p d first) as [p1|] eqn:E; [|done].
  apply move_within_inv in E. lia.
Qed.

(** [std::copy] between two blocks. *)
Lemma copy_loop_spec src n : ∀ first d dst,
  0 ≤ first → first + Z.of_nat n ≤ Z.of_nat (length src) →
  0 ≤ d → d + Z.of_nat n ≤ Z.of_nat (length dst) →
  ∃ q, copy_loop n src first d dst = Some q ∧
       length q = length dst ∧
       ∀ k, load q k =
            if decide (d ≤ k < d + Z.of_nat n) then load src (k - d + first)
            else load dst k.
Proof.
  induction n as [|n IH]; intros first d dst Hf Hsrc Hd Hdst.
  - exists dst. repeat split; try done. intros k. slots.
  - simpl. destruct (load_is_Some src first) as [x Hx]; [lia|].
    rewrite Hx. simpl. rewrite store_Some by lia. simpl.
    destruct (IH (first + 1) (d + 1) (<[Z.to_nat d := x]> dst))
      as (q & -> & Hlen & Hq); [lia | lia | lia | rewrite length_insert; lia |].
    exists q. split; [done|]. split; [by rewrite Hlen, length_insert|].
    intros k. rewrite Hq.
    rewrite (load_store dst d x (<[Z.to_nat d := x]> dst) k)
      by (apply store_Some; lia).
    slots_with Hx.
Qed.

End LoopFacts.

(** ** The member functions *)

(** Runs the monadic steps of a member function. *)
Ltac mrun :=
  repeat (unfold mbind, M_bind, mret, M_ret, get, put, defined, throw,
            set_items, set_size, set_capacity; simpl).

Section VectorFacts.
Context {T : Type} `{Element T}.
Implicit Types (v : SimpleVector T) (p q : list T) (i j k n : Z) (x y : T).

Lemma wrap_id n : 0 ≤ n ≤ SIZE_MAX → wrap n = n.
Proof. unfold wrap, SIZE_MAX. intros. apply Z.mod_small. lia. Qed.

Lemma wrap_range n : 0 ≤ wrap n ≤ SIZE_MAX.
Proof.
  unfold wrap, SIZE_MAX. pose proof (Z.mod_pos_bound n (2 ^ 64)). lia.
Qed.

Lemma wrap_double n :
  0 < n ≤ SIZE_MAX → SIZE_MAX < 2 * n → 0 ≤ wrap (2 * n) < n.
Proof.
  unfold wrap, SIZE_MAX. intros.
  replace (2 * n) with (2 * n - 2 ^ 64 + 1 * 2 ^ 64) by lia.
  rewrite Z.mod_add by lia. rewrite Z.mod_small; lia.
Qed.

Lemma IncreaseCapacity_spec v n :
  wf v → size_ v ≤ n →
  ∃ q, IncreaseCapacity n v
         = Ok tt {| items_ := q; size_ := size_ v; capacity_ := n |} ∧
       Z.of_nat (length q) = n ∧
       ∀ k, load q k =
            if decide (0 ≤ k < size_ v) then slot v k
            else if decide (0 ≤ k < n) then Some (remnant dflt k) else None.
Proof.
  intros (Hlen & Hsize & Hcap) Hn. unfold IncreaseCapacity.
  destruct (ArrayPtr_move_fill_spec n dflt) as (q0 & E0 & Hlen0 & Hq0).
  destruct (grow_loop (size_ v) q0 (items_ v)) as (q & p & E & Hlenq & Hq);
    [lia | lia |].
  mrun. rewrite E0. simpl. rewrite E. simpl.
  exists q. split; [done|]. split; [lia|].
  intros k. rewrite Hq, Hq0. unfold slot. repeat case_decide; done || lia.
Qed.

Lemma IncreaseCapacity_UB v n :
  wf v → 0 ≤ n < size_ v → IncreaseCapacity n v = UB.
Proof.
  intros (Hlen & Hsize & Hcap) Hn. unfold IncreaseCapacity.
  destruct (ArrayPtr_move_fill_spec n dflt) as (q0 & E0 & Hlen0 & Hq0).
  mrun. rewrite E0. simpl.
  destruct (for_range 0 (size_ v) _ _) as [[q p]|] eqn:E; [|done].
  exfalso. unfold for_range in E.
  destruct (Z.to_nat (size_ v - 0)) as [|m] eqn:Em; [lia|].
  apply grow_iterate_inv in E. lia.
Qed.

Lemma IsSizeEqualsCapacity_spec v :
  wf v → can_grow v →
  ∃ v', IsSizeEqualsCapacity v = Ok tt v' ∧
        wf v' ∧ size_ v' = size_ v ∧ capacity_ v' = grown_capacity v ∧
        size_ v < capacity_ v' ∧
        ∀ k, slot v' k =
             if decide (0 ≤ k < size_ v) then slot v k
             else if decide (size_ v = capacity_ v)
                  then (if decide (0 ≤ k < capacity_ v')
                        then Some (remnant dflt k) else None)
                  else slot v k.
Proof.
  intros Hwf Hgrow. pose proof Hwf as (Hlen & Hsize & Hcap).
  unfold IsSizeEqualsCapacity, grown_capacity, can_grow in *. mrun.
  case_decide as Efull.
  - specialize (Hgrow Efull).
    assert ((if decide (capacity_ v = 0) then 1 else wrap (2 * capacity_ v))
            = Z.max 1 (2 * capacity_ v)) as ->.
    { case_decide; [lia|]. rewrite wrap_id; lia. }
    destruct (IncreaseCapacity_spec v (Z.max 1 (2 * capacity_ v)))
      as (q & -> & Hlenq & Hq); [done | lia |].
    eexists. split; [done|]. simpl. unfold wf, slot. simpl.
    split_and!; try (unfold SIZE_MAX in *; lia). intros k. rewrite Hq.
    unfold slot. repeat case_decide; done || lia.
  - exists v. split_and!; try done; try lia. intros k.
    repeat case_decide; done || lia.
Qed.

Lemma IsSizeEqualsCapacity_UB v :
  wf v → ¬ can_grow v → IsSizeEqualsCapacity v = UB.
Proof.
  intros Hwf Hgrow. pose proof Hwf as (Hlen & Hsize & Hcap).
  unfold IsSizeEqualsCapacity, can_grow in *. mrun.
  case_decide as Efull; [|by destruct Hgrow].
  apply IncreaseCapacity_UB; [done|].
  case_decide; [lia|]. pose proof (wrap_double (capacity_ v)). lia.
Qed.

Lemma PushBack_spec v x :
  wf v → can_grow v →
  ∃ v', PushBack x v = Ok tt v' ∧
        wf v' ∧ size_ v' = size_ v + 1 ∧ capacity_ v' = grown_capacity v ∧
        ∀ k, slot v' k =
             if decide (0 ≤ k < size_ v) then slot v k
             else if decide (k = size_ v) then Some x
             else if decide (size_ v = capacity_ v)
                  then (if decide (0 ≤ k < capacity_ v')
                        then Some (remnant dflt k) else None)
                  else slot v k.
Proof.
  intros Hwf Hgrow.
  destruct (IsSizeEqualsCapacity_spec v Hwf Hgrow)
    as (v1 & E1 & (Hlen1 & Hsize1 & Hcap1) & Hs1 & Hc1 & Hlt & Hslot1).
  unfold PushBack. rewrite (bind_Ok _ _ _ _ _ E1). mrun.
  rewrite store_Some by lia. simpl. eexists. split; [done|].
  unfold wf, slot in *. simpl. rewrite length_insert, Hs1.
  rewrite wrap_id by lia. split_and!; try lia. intros k.
  rewrite (load_store (items_ v1) (size_ v) x _ k)
    by (apply store_Some; lia).
  rewrite Hslot1. repeat case_decide; done || lia.
Qed.

Lemma PushBack_Ok v x r v' :
  wf v → PushBack x v = Ok r v' → wf v' ∧ size_ v' = size_ v + 1.
Proof.
  intros Hwf E.
  destruct (decide (size_ v = capacity_ v → 2 * capacity_ v ≤ SIZE_MAX))
    as [Hgrow|Hgrow].
  - destruct (PushBack_spec v x Hwf Hgrow) as (v1 & E1 & ? & ? & _).
    rewrite E1 in E. by simplify_eq.
  - unfold PushBack in E.
    by rewrite (bind_UB _ _ _ (IsSizeEqualsCapacity_UB v Hwf Hgrow)) in E.
Qed.

Lemma PushBack_move_eq v x :
  PushBack_move x v =
  match PushBack x v with
  | Ok _ v' => Ok (moved x) v'
  | Throw e v' => Throw e v'
  | UB => UB
  end.
Proof.
  unfold PushBack_move, PushBack. mrun.
  destruct (IsSizeEqualsCapacity v) as [[] v1| |]; try done.
  by destruct (store (items_ v1) (size_ v1) x).
Qed.

Lemma Insert_spec v pos x :
  wf v → can_grow v → wrap pos ≤ size_ v →
  ∃ v', Insert pos x v = Ok (wrap pos) v' ∧
        wf v' ∧ size_ v' = size_ v + 1 ∧ capacity_ v' = grown_capacity v ∧
        ∀ k, slot v' k =
             if decide (0 ≤ k < wrap pos) then slot v k
             else if decide (k = wrap pos) then Some x
             else if decide (wrap pos < k ≤ size_ v) then slot v (k - 1)
             else if decide (size_ v = capacity_ v)
                  then (if decide (0 ≤ k < capacity_ v')
                        then Some (remnant dflt k) else None)
                  else slot v k.
Proof.
  intros Hwf Hgrow Hpos. pose proof (wrap_range pos) as Hi.
  destruct (IsSizeEqualsCapacity_spec v Hwf Hgrow)
    as (v1 & E1 & (Hlen1 & Hsize1 & Hcap1) & Hs1 & Hc1 & Hlt & Hslot1).
  unfold Insert. rewrite (bind_Ok _ _ _ _ _ E1). mrun.
  unfold std_move_backward. rewrite decide_True by lia.
  destruct (move_backward_loop_spec (Z.to_nat (size_ v1 - wrap pos))
              (size_ v1) (items_ v1)) as (q1 & -> & Hlenq1 & Hq1);
    [lia | lia |]. simpl.
  rewrite store_Some by lia. simpl. eexists. split; [done|].
  unfold wf, slot in *. simpl. rewrite length_insert, Hs1.
  rewrite wrap_id by lia. split_and!; try lia. intros k.
  rewrite (load_store q1 (wrap pos) x _ k) by (apply store_Some; lia).
  rewrite Hq1, !Hslot1. rewrite Hs1.
  repeat case_decide; try lia; try done; try (f_equal; lia).
Qed.

Lemma Insert_Ok v pos x r v' :
  wf v → Insert pos x v = Ok r v' → wf v' ∧ size_ v' = size_ v + 1.
Proof.
  intros Hwf E.
  destruct (decide (size_ v = capacity_ v → 2 * capacity_ v ≤ SIZE_MAX))
    as [Hgrow|Hgrow].
  - destruct (decide (wrap pos ≤ size_ v)) as [Hpos|Hpos].
    + destruct (Insert_spec v pos x Hwf Hgrow Hpos) as (v1 & E1 & ? & ? & _).
      rewrite E1 in E. by simplify_eq.
    + destruct (IsSizeEqualsCapacity_spec v Hwf Hgrow)
        as (v1 & E1 & _ & Hs1 & _).
      unfold Insert in E. rewrite (bind_Ok _ _ _ _ _ E1) in E.
      revert E. mrun. unfold std_move_backward.
      by rewrite decide_False by lia.
  - unfold Insert in E.
    by rewrite (bind_UB _ _ _ (IsSizeEqualsCapacity_UB v Hwf Hgrow)) in E.
Qed.

Lemma Insert_move_eq v pos x :
  Insert_move pos x v =
  match Insert pos x v with
  | Ok it v' => Ok (it, moved x) v'
  | Throw e v' => Throw e v'
  | UB => UB
  end.
Proof.
  unfold Insert_move, Insert. mrun.
  destruct (IsSizeEqualsCapacity v) as [[] v1| |]; try done.
  destruct (std_move_backward _ _ _ _) as [q|]; [simpl|done].
  by destruct (store q (wrap pos) x).
Qed.

Lemma PopBack_spec v :
  wf v →
  PopBack v = Ok tt {| items_ := items_ v; size_ := Z.max 0 (size_ v - 1);
                       capacity_ := capacity_ v |}.
Proof.
  intros (Hlen & Hsize & Hcap). unfold PopBack. mrun. case_decide.
  - mrun. rewrite wrap_id by lia. do 2 f_equal. lia.
  - mrun. destruct v; simpl in *. do 2 f_equal. lia.
Qed.

Lemma Clear_spec v :
  Clear v = Ok tt {| items_ := items_ v; size_ := 0;
                     capacity_ := capacity_ v |}.
Proof. done. Qed.

Lemma Erase_spec v pos :
  wf v → size_ v = 0 ∨ 0 ≤ pos < size_ v →
  ∃ v', Erase pos v = Ok pos v' ∧
        wf v' ∧ size_ v' = Z.max 0 (size_ v - 1) ∧
        capacity_ v' = capacity_ v ∧
        ∀ k, slot v' k =
             if decide (0 ≤ pos ≤ k ∧ k < size_ v - 1) then slot v (k + 1)
             else if decide (k = size_ v - 1 ∧ 0 ≤ pos < size_ v - 1)
                  then moved <$> slot v k
                  else slot v k.
Proof.
  intros Hwf Hpos. pose proof Hwf as (Hlen & Hsize & Hcap).
  unfold Erase. mrun. case_decide as Hs.
  - mrun. unfold std_move. rewrite decide_True by lia.
    replace (move_loop (Z.to_nat (size_ v - (pos + 1))) (pos + 1) pos)
      with (move_loop (Z.to_nat (size_ v - (pos + 1))) (pos + 1)
              (pos + 1 - 1)) by (f_equal; lia).
    destruct (move_loop_spec (Z.to_nat (size_ v - (pos + 1))) (pos + 1)
                (items_ v)) as (q & -> & Hlenq & Hq); [lia | lia |].
    simpl. eexists. split; [done|]. unfold wf, slot. simpl.
    rewrite wrap_id by lia. split_and!; try lia. intros k. rewrite Hq.
    repeat case_decide; try lia; try done; try (f_equal; lia).
  - mrun. exists v. split; [done|]. split_and!; try done; try lia.
    intros k. repeat case_decide; try lia; done.
Qed.

Lemma Erase_Ok v pos r v' :
  wf v → Erase pos v = Ok r v' →
  wf v' ∧ size_ v' = Z.max 0 (size_ v - 1).
Proof.
  intros Hwf E. pose proof Hwf as (Hlen & Hsize & Hcap).
  destruct (decide (size_ v = 0 ∨ 0 ≤ pos < size_ v)) as [Hpos|Hpos].
  - destruct (Erase_spec v pos Hwf Hpos) as (v1 & E1 & ? & ? & _).
    rewrite E1 in E. by simplify_eq.
  - exfalso. revert E. unfold Erase. mrun. rewrite decide_True by lia.
    mrun. unfold std_move. case_decide as Hle; [|done].
    destruct (Z.to_nat (size_ v - (pos + 1))) as [|m] eqn:Em; [lia|].
    destruct (move_loop (S m) _ _ _) as [q|] eqn:Eq; [|done].
    apply move_loop_inv in Eq. lia.
Qed.

Lemma Resize_spec v n :
  wf v → 0 ≤ n ≤ SIZE_MAX →
  ∃ v', Resize n v = Ok tt v' ∧
        wf v' ∧ size_ v' = n ∧
        capacity_ v' = (if decide (n > capacity_ v)
                        then Z.max n (wrap (capacity_ v * 2))
                        else capacity_ v) ∧
        ∀ k, slot v' k =
             if decide (n > capacity_ v)
             then (if decide (0 ≤ k < size_ v) then slot v k
                   else if decide (0 ≤ k < capacity_ v')
                        then Some (remnant dflt k) else None)
             else if decide (size_ v ≤ k < n) then Some dflt
                  else slot v k.
Proof.
  intros Hwf Hn. pose proof Hwf as (Hlen & Hsize & Hcap).
  pose proof (wrap_range (capacity_ v * 2)) as Hw.
  unfold Resize. mrun. case_decide as Hbig.
  - destruct (IncreaseCapacity_spec v (Z.max n (wrap (capacity_ v * 2))))
      as (q & -> & Hlenq & Hq); [done | lia |].
    mrun. eexists. split; [done|]. unfold wf, slot. simpl.
    split_and!; try lia. intros k. rewrite Hq.
    repeat case_decide; done || lia.
  - case_decide as Hup.
    + destruct (fill_loop (size_ v) n (items_ v) dflt)
        as (q & -> & Hlenq & Hq); [lia | lia |].
      mrun. eexists. split; [done|]. unfold wf, slot. simpl.
      split_and!; try lia. intros k. rewrite Hq.
      repeat case_decide; done || lia.
    + mrun. eexists. split; [done|]. unfold wf, slot. simpl.
      split_and!; try lia. intros k. repeat case_decide; done || lia.
Qed.

Lemma Reserve_spec v n :
  wf v → 0 ≤ n ≤ SIZE_MAX →
  ∃ v', Reserve n v = Ok tt v' ∧
        wf v' ∧ size_ v' = size_ v ∧ capacity_ v' = Z.max (capacity_ v) n ∧
        ∀ k, slot v' k =
             if decide (capacity_ v < n)
             then (if decide (0 ≤ k < size_ v) then slot v k
                   else if decide (0 ≤ k < n)
                        then Some (remnant dflt k) else None)
             else slot v k.
Proof.
  intros Hwf Hn. pose proof Hwf as (Hlen & Hsize & Hcap).
  unfold Reserve. mrun. case_decide as Hbig.
  - destruct (IncreaseCapacity_spec v n) as (q & -> & Hlenq & Hq);
      [done | lia |].
    eexists. split; [done|]. unfold wf, slot. simpl.
    split_and!; try lia. intros k. rewrite Hq.
    repeat case_decide; done || lia.
  - mrun. exists v. split_and!; try done; lia.
Qed.

End VectorFacts.

(** ** The constructors *)

Section ConstructorFacts.
Context {T : Type} `{Element T}.
Implicit Types (v : SimpleVector T) (p q : list T) (i j k n : Z) (x y : T).

Lemma wf_default : wf (SimpleVector_default (T := T)).
Proof. unfold wf, SIZE_MAX. simpl. lia. Qed.

Lemma SimpleVector_size_eq n :
  SimpleVector_size n
  = Some {| items_ := replicate (Z.to_nat n) dflt; size_ := n;
            capacity_ := n |}.
Proof. unfold SimpleVector_size. by rewrite ArrayPtr_size_eq. Qed.

Lemma SimpleVector_fill_eq n x :
  SimpleVector_fill n x
  = Some {| items_ := replicate (Z.to_nat n) x; size_ := n;
            capacity_ := n |}.
Proof. unfold SimpleVector_fill. by rewrite ArrayPtr_copy_fill_eq. Qed.

Lemma CopyAndSwap_spec v src n :
  0 ≤ n ≤ Z.of_nat (length src) →
  CopyAndSwap src n v
  = Ok tt {| items_ := take (Z.to_nat n) src; size_ := n; capacity_ := n |}.
Proof.
  intros Hn. unfold CopyAndSwap. rewrite SimpleVector_size_eq. mrun.
  unfold std_copy. rewrite decide_True by lia.
  destruct (copy_loop_spec src (Z.to_nat (n - 0)) 0 0
              (replicate (Z.to_nat n) dflt)) as (q & -> & Hlen & Hq);
    [lia | lia | lia | rewrite length_replicate; lia |].
  simpl. do 2 f_equal. rewrite length_replicate in Hlen.
  apply block_ext.
  - rewrite Hlen, length_take. lia.
  - intros k Hk. rewrite Hq, load_take, load_replicate.
    repeat case_decide; try lia; try done. f_equal. lia.
Qed.

Lemma SimpleVector_copy_spec v :
  wf v →
  SimpleVector_copy v
  = Some {| items_ := elements v; size_ := size_ v; capacity_ := size_ v |}.
Proof.
  intros (Hlen & Hsize & Hcap). unfold SimpleVector_copy, construct.
  rewrite ArrayPtr_size_eq. simpl. by rewrite CopyAndSwap_spec by lia.
Qed.

Lemma SimpleVector_init_eq (init : list T) :
  SimpleVector_init init
  = Some {| items_ := init; size_ := Z.of_nat (length init);
            capacity_ := Z.of_nat (length init) |}.
Proof.
  unfold SimpleVector_init, construct. simpl.
  rewrite CopyAndSwap_spec by lia. rewrite Nat2Z.id.
  by rewrite firstn_all.
Qed.

Lemma SimpleVector_reserve_spec n :
  0 ≤ n →
  ∃ q, SimpleVector_reserve n
         = Some {| items_ := q; size_ := 0; capacity_ := n |} ∧
       Z.of_nat (length q) = n ∧
       ∀ k, load q k =
            if decide (0 ≤ k < n) then Some (remnant dflt k) else None.
Proof.
  intros Hn. unfold SimpleVector_reserve, construct. simpl.
  destruct (IncreaseCapacity_spec SimpleVector_default n)
    as (q & -> & Hlen & Hq); [apply wf_default | simpl; lia |].
  exists q. split; [done|]. split; [done|]. intros k. rewrite Hq. simpl.
  repeat case_decide; done || lia.
Qed.

Lemma wf_elements v :
  wf v → wf {| items_ := elements v; size_ := size_ v;
               capacity_ := size_ v |}.
Proof.
  intros (Hlen & Hsize & Hcap). unfold wf, elements. simpl.
  rewrite length_take. lia.
Qed.

End ConstructorFacts.

(** ** Programs *)

Section WorldFacts.
Context {T : Type} `{Element T}.
Implicit Types (v : SimpleVector T) (w : list (SimpleVector T)) (c : list Z).

Lemma call_Ok_inv {A} (this : nat) (m : M (SimpleVector T) A) w a w' :
  call this m w = Ok a w' →
  ∃ v v', w !! this = Some v ∧ m v = Ok a v' ∧ w' = <[this := v']> w.
Proof.
  unfold call. destruct (w !! this) as [v|]; [|done].
  destruct (m v) as [a1 v1| |] eqn:E; try done. intros [= <- <-].
  by exists v, v1.
Qed.

Lemma object_Ok_inv (this : nat) w v w' :
  object this w = Ok v w' → w !! this = Some v ∧ w' = w.
Proof.
  intros (v0 & v1 & Hv & [= <- <-] & ->)%call_Ok_inv.
  split; [done|]. by apply list_insert_id.
Qed.

Lemma new_object_Ok_inv (init : option (SimpleVector T)) w a w' :
  new_object init w = Ok a w' → ∃ v, init = Some v ∧ w' = w ++ [v].
Proof.
  unfold new_object. destruct init as [v|]; [|done]. intros [= <- <-].
  by exists v.
Qed.

Lemma call_Ok {A} (this : nat) (m : M (SimpleVector T) A) w v a v' :
  w !! this = Some v → m v = Ok a v' → call this m w = Ok a (<[this := v']> w).
Proof. unfold call. by intros -> ->. Qed.

Lemma object_Ok (this : nat) w v : w !! this = Some v → object this w = Ok v w.
Proof.
  intros Hv. unfold object. rewrite (call_Ok this get w v v v Hv eq_refl).
  by rewrite list_insert_id.
Qed.

Lemma count_of_tracked w c (i : nat) v :
  tracked w c → w !! i = Some v → count_of c i = size_ v ∧ wf v.
Proof.
  intros [Hwf <-] Hv. unfold count_of. rewrite list_lookup_fmap, Hv.
  split; [done|]. by eapply Forall_lookup_1.
Qed.

Lemma tracked_new w c v : tracked w c → wf v → tracked (w ++ [v]) (c ++ [size_ v]).
Proof.
  intros [Hwf <-] Hv. split.
  - apply Forall_app. split; [done|]. by apply Forall_singleton.
  - by rewrite fmap_app.
Qed.

Lemma tracked_update w c (i : nat) v :
  tracked w c → wf v → tracked (<[i := v]> w) (<[i := size_ v]> c).
Proof.
  intros [Hwf <-] Hv. split.
  - by apply Forall_insert.
  - by rewrite list_fmap_insert.
Qed.

Lemma tracked_same w c (i : nat) v v' :
  tracked w c → w !! i = Some v → wf v' → size_ v' = size_ v →
  tracked (<[i := v']> w) c.
Proof.
  intros Ht Hv Hwf' Hs. pose proof (tracked_update w c i v' Ht Hwf') as Hu.
  replace (<[i := size_ v']> c) with c in Hu; [done|].
  symmetry. apply list_insert_id. destruct Ht as [_ <-].
  by rewrite list_lookup_fmap, Hv, Hs.
Qed.

Lemma size_arg_Ok_inv n w r w' :
  size_arg (T := T) n w = Ok r w' → 0 ≤ n ≤ SIZE_MAX ∧ w' = w.
Proof.
  unfold size_arg. case_decide; [|done]. by intros [= _ <-].
Qed.

Lemma iterator_arg_Ok_inv n w r w' :
  iterator_arg (T := T) n w = Ok r w' → w' = w.
Proof.
  unfold iterator_arg. case_decide; [|done]. by intros [= _ <-].
Qed.

Lemma mret_Ok_inv {St A} (a b : A) (s s' : St) :
  mret (M := M St) a s = Ok b s' → a = b ∧ s = s'.
Proof. by intros [= <- <-]. Qed.

Lemma insert_count_of_same c (i : nat) : <[i := count_of c i]> c = c.
Proof.
  unfold count_of. destruct (c !! i) as [n|] eqn:E; simpl.
  - by apply list_insert_id.
  - apply list_insert_ge. by apply lookup_ge_None.
Qed.

Lemma defined_Ok_inv {St A} (o : option A) (s s' : St) a :
  defined o s = Ok a s' → o = Some a ∧ s' = s.
Proof. unfold defined. destruct o; [|done]. by intros [= <- <-]. Qed.

End WorldFacts.

(** Inverts a run of monadic steps that ended normally. *)
Ltac unbind :=
  repeat match goal with
    | Hx : (_ ≫= _) _ = Ok _ _ |- _ =>
        apply bind_Ok_inv in Hx as (? & ? & ? & ?); cbv beta in *
    | Hx : object _ _ = Ok _ _ |- _ => apply object_Ok_inv in Hx as [? ->]
    | Hx : size_arg _ _ = Ok _ _ |- _ => apply size_arg_Ok_inv in Hx as [? ->]
    | Hx : iterator_arg _ _ = Ok _ _ |- _ =>
        apply iterator_arg_Ok_inv in Hx as ->
    | Hx : new_object _ _ = Ok _ _ |- _ =>
        apply new_object_Ok_inv in Hx as (? & ? & ->)
    | Hx : call _ _ _ = Ok _ _ |- _ =>
        apply call_Ok_inv in Hx as (? & ? & ? & ? & ->)
    | Hx : mret _ _ = Ok _ _ |- _ => apply mret_Ok_inv in Hx as [? ?]
    | Hx : put _ _ = Ok _ _ |- _ => injection Hx as ? ?
    | Hx : defined _ _ = Ok _ _ |- _ => apply defined_Ok_inv in Hx as [? ?]
    end.

Section ProgramFacts.
Context {T : Type} `{Element T}.
Implicit Types (v : SimpleVector T) (w : list (SimpleVector T)) (c : list Z).

Lemma tracked_push w c v n :
  tracked w c → wf v → size_ v = n → tracked (w ++ [v]) (c ++ [n]).
Proof. intros Ht Hv <-. by apply tracked_new. Qed.

Lemma tracked_set w c (i : nat) v n :
  tracked w c → wf v → size_ v = n → tracked (<[i := v]> w) (<[i := n]> c).
Proof. intros Ht Hv <-. by apply tracked_update. Qed.

Lemma wf_eta v :
  wf v → wf {| items_ := items_ v; size_ := size_ v; capacity_ := capacity_ v |}.
Proof. done. Qed.

Lemma wf_empty : wf {| items_ := @nil T; size_ := 0; capacity_ := 0 |}.
Proof. apply wf_default. Qed.

Lemma wf_replicate n (x : T) :
  0 ≤ n ≤ SIZE_MAX →
  wf {| items_ := replicate (Z.to_nat n) x; size_ := n; capacity_ := n |}.
Proof. intros. unfold wf. simpl. rewrite length_replicate. lia. Qed.

Lemma step_tracked (o : op) w c r w' :
  tracked w c → step o w = Ok r w' → tracked w' (ledger_step o c).
Proof.
  intros Ht E. destruct o; simpl in *.
  - (* New_default *)
    unbind. simplify_eq. by apply tracked_push; [|apply wf_default|].
  - (* New_size *)
    unbind. rewrite SimpleVector_size_eq in *. simplify_eq.
    by apply tracked_push; [|apply wf_replicate|].
  - (* New_fill *)
    unbind. rewrite SimpleVector_fill_eq in *. simplify_eq.
    by apply tracked_push; [|apply wf_replicate|].
  - (* New_init *)
    unbind. rewrite SimpleVector_init_eq in *. simplify_eq.
    apply tracked_push; [done| |done]. unfold wf. simpl. lia.
  - (* New_reserve *)
    unbind.
    destruct (SimpleVector_reserve_spec capacity) as (q & Eq & Hlen & _);
      [lia|].
    simplify_eq. apply tracked_push; [done| |done]. unfold wf. simpl. lia.
  - (* New_copy *)
    unfold copy_construct in E. unbind.
    match goal with Hv : w !! other = Some _ |- _ =>
      destruct (count_of_tracked _ _ _ _ Ht Hv) as [-> Hwf] end.
    rewrite SimpleVector_copy_spec in * by done. simplify_eq.
    by apply tracked_push; [|apply wf_elements|].
  - (* New_move *)
    unfold move_construct in E. unbind.
    match goal with Hv : w !! other = Some _ |- _ =>
      destruct (count_of_tracked _ _ _ _ Ht Hv) as [-> Hwf] end.
    simplify_eq. apply tracked_push; [|done|done].
    by apply tracked_set; [|apply wf_empty|].
  - (* Assign_copy *)
    unfold copy_assign in E. case_decide.
    + unbind.
      match goal with Hv : w !! rhs = Some _ |- _ =>
        destruct (count_of_tracked _ _ _ _ Ht Hv) as [-> Hwf] end.
      unfold defined in *.
      rewrite SimpleVector_copy_spec in * by done. simplify_eq. simpl.
      apply tracked_set; [done | by apply (wf_elements x) | done].
    + unbind. simplify_eq. rewrite insert_count_of_same. done.
  - (* Assign_move *)
    unfold move_assign in E. repeat case_decide; try done.
    + unbind. simplify_eq. simpl.
      match goal with Hv : <[this := _]> w !! other = Some _ |- _ =>
        rewrite list_lookup_insert_ne in Hv by done;
        destruct (count_of_tracked _ _ _ _ Ht Hv) as [-> Hwf] end.
      rewrite !(list_insert_insert_ne _ this other) by done.
      rewrite list_insert_insert_eq.
      apply tracked_set; [|apply wf_empty|done].
      by apply tracked_set.
    + unbind. by simplify_eq.
  - (* Do_Reserve *)
    unbind. simplify_eq.
    match goal with Hv : w !! this = Some _ |- _ =>
      destruct (count_of_tracked _ _ _ _ Ht Hv) as [Hc Hwf] end.
    match goal with Hr : Reserve _ ?v = Ok _ _ |- _ =>
      destruct (Reserve_spec v capacity Hwf) as (v1 & E1 & Hwf1 & Hs1 & _);
        [done|]; rewrite E1 in Hr; simplify_eq end.
    by eapply tracked_same.
  - (* Do_PushBack *)
    unbind. simplify_eq.
    match goal with Hv : w !! this = Some _ |- _ =>
      destruct (count_of_tracked _ _ _ _ Ht Hv) as [-> Hwf] end.
    match goal with Hr : PushBack _ _ = Ok _ _ |- _ =>
      destruct (PushBack_Ok _ _ _ _ Hwf Hr) as [Hwf1 Hs1] end.
    by apply tracked_set.
  - (* Do_PushBack_move *)
    unbind. simplify_eq.
    match goal with Hv : w !! this = Some _ |- _ =>
      destruct (count_of_tracked _ _ _ _ Ht Hv) as [-> Hwf] end.
    match goal with Hr : PushBack_move _ ?v = Ok _ _ |- _ =>
      rewrite PushBack_move_eq in Hr;
      destruct (PushBack item v) as [a1 v1| |] eqn:E1; try done;
      destruct (PushBack_Ok _ _ _ _ Hwf E1) as [Hwf1 Hs1] end.
    simplify_eq. by apply tracked_set.
  - (* Do_Insert *)
    unbind. simplify_eq.
    match goal with Hv : w !! this = Some _ |- _ =>
      destruct (count_of_tracked _ _ _ _ Ht Hv) as [-> Hwf] end.
    match goal with Hr : Insert _ _ _ = Ok _ _ |- _ =>
      destruct (Insert_Ok _ _ _ _ _ Hwf Hr) as [Hwf1 Hs1] end.
    by apply tracked_set.
  - (* Do_Insert_move *)
    unbind. simplify_eq.
    match goal with Hv : w !! this = Some _ |- _ =>
      destruct (count_of_tracked _ _ _ _ Ht Hv) as [-> Hwf] end.
    match goal with Hr : Insert_move _ _ ?v = Ok _ _ |- _ =>
      rewrite Insert_move_eq in Hr;
      destruct (Insert pos value v) as [a1 v1| |] eqn:E1; try done;
      destruct (Insert_Ok _ _ _ _ _ Hwf E1) as [Hwf1 Hs1] end.
    simplify_eq. by apply tracked_set.
  - (* Do_PopBack *)
    unbind. simplify_eq.
    match goal with Hv : w !! this = Some _ |- _ =>
      destruct (count_of_tracked _ _ _ _ Ht Hv) as [-> Hwf] end.
    match goal with Hr : PopBack _ = Ok _ _ |- _ =>
      rewrite PopBack_spec in Hr by done; simplify_eq end.
    pose proof Hwf as (Hlen & Hsize & Hcap). case_decide.
    + apply tracked_set; [done | unfold wf; simpl; lia | simpl; lia].
    + eapply tracked_same; [done | done | unfold wf; simpl; lia | simpl; lia].
  - (* Do_Erase *)
    unbind. simplify_eq.
    match goal with Hv : w !! this = Some _ |- _ =>
      destruct (count_of_tracked _ _ _ _ Ht Hv) as [-> Hwf] end.
    match goal with Hr : Erase _ _ = Ok _ _ |- _ =>
      destruct (Erase_Ok _ _ _ _ Hwf Hr) as [Hwf1 Hs1] end.
    pose proof Hwf as (Hlen & Hsize & Hcap). case_decide.
    + apply tracked_set; [done | done | lia].
    + eapply tracked_same; [done | done | done | lia].
  - (* Do_Clear *)
    unbind. simplify_eq.
    match goal with Hv : w !! this = Some _ |- _ =>
      destruct (count_of_tracked _ _ _ _ Ht Hv) as [Hc Hwf] end.
    match goal with Hr : Clear _ = Ok _ _ |- _ =>
      rewrite Clear_spec in Hr; simplify_eq end.
    pose proof Hwf as (Hlen & Hsize & Hcap).
    apply tracked_set; [done | unfold wf; simpl; lia | done].
  - (* Do_Resize *)
    unbind. simplify_eq.
    match goal with Hv : w !! this = Some _ |- _ =>
      destruct (count_of_tracked _ _ _ _ Ht Hv) as [Hc Hwf] end.
    match goal with Hr : Resize _ ?v = Ok _ _ |- _ =>
      destruct (Resize_spec v new_size Hwf) as (v1 & E1 & Hwf1 & Hs1 & _);
        [done|]; rewrite E1 in Hr; simplify_eq end.
    by apply tracked_set.
  - (* Do_swap *)
    unfold swap_objects in *. unbind. simplify_eq. simpl.
    match goal with Hv : w !! this = Some _ |- _ =>
      destruct (count_of_tracked _ _ _ _ Ht Hv) as [-> Hwf] end.
    match goal with Hv : w !! other = Some _ |- _ =>
      destruct (count_of_tracked _ _ _ _ Ht Hv) as [-> Hwf'] end.
    apply tracked_set; [|done|done]. by apply tracked_set.
Qed.

Lemma run_tracked (ops : list op) : ∀ w c r w',
  tracked w c → run ops w = Ok r w' → tracked w' (ledger ops c).
Proof.
  induction ops as [|o ops IH]; intros w c r w' Ht E; simpl in *.
  - apply mret_Ok_inv in E as [_ <-]. done.
  - apply bind_Ok_inv in E as (a & w1 & E1 & E2).
    eapply IH; [|done]. by eapply step_tracked.
Qed.

Lemma run_app_inv (ops1 ops2 : list op) : ∀ w r w',
  run (ops1 ++ ops2) w = Ok r w' →
  ∃ w1, run ops1 w = Ok tt w1 ∧ run ops2 w1 = Ok r w'.
Proof.
  induction ops1 as [|o ops1 IH]; intros w r w' E; simpl in *.
  - by exists w.
  - apply bind_Ok_inv in E as (a & w1 & E1 & E2).
    destruct (IH _ _ _ E2) as (w2 & E3 & E4). exists w2.
    split; [|done]. by rewrite (bind_Ok _ _ _ _ _ E1).
Qed.

End ProgramFacts.

(** ** Growth by doubling *)

Section GrowthFacts.
Context {T : Type} `{Element T}.
Implicit Types (v : SimpleVector T).

Lemma doubling_capacity_full k :
  0 ≤ k → doubling_capacity k = k →
  doubling_capacity (k + 1) = Z.max 1 (2 * k).
Proof.
  unfold doubling_capacity. intros Hk. repeat case_decide; try lia.
  - subst k. intros _. reflexivity.
  - intros E. assert (0 ≤ Z.log2_up k) by apply Z.log2_up_nonneg.
    rewrite (Z.log2_up_unique (k + 1) (Z.log2_up k + 1)).
    + rewrite Z.pow_add_r by lia. lia.
    + lia.
    + replace (Z.pred (Z.log2_up k + 1)) with (Z.log2_up k) by lia.
      rewrite Z.pow_add_r by lia. lia.
Qed.

Lemma doubling_capacity_room k :
  0 ≤ k → k < doubling_capacity k →
  doubling_capacity (k + 1) = doubling_capacity k.
Proof.
  unfold doubling_capacity. intros Hk. repeat case_decide; try lia.
  intros Hlt. f_equal. apply Z.log2_up_unique.
  - destruct (decide (k = 1)) as [->|]; [by vm_compute in Hlt|].
    apply Z.log2_up_pos. lia.
  - destruct (decide (k = 1)) as [->|]; [by vm_compute in Hlt|].
    pose proof (Z.log2_up_spec k). lia.
Qed.

Lemma push_all_spec (xs : list T) : ∀ v,
  wf v → capacity_ v = doubling_capacity (size_ v) →
  size_ v + Z.of_nat (length xs) ≤ 2 ^ 62 →
  ∃ u, push_all xs v = Ok tt u ∧ wf u ∧
       size_ u = size_ v + Z.of_nat (length xs) ∧
       capacity_ u = doubling_capacity (size_ u).
Proof.
  induction xs as [|x xs IH]; intros v Hwf Hc Hk; simpl in *.
  - exists v. split_and!; try done. lia.
  - pose proof Hwf as (Hlen & Hsize & Hcap).
    destruct (PushBack_spec v x Hwf) as (v1 & E1 & Hwf1 & Hs1 & Hc1 & _).
    { intros Hfull. unfold SIZE_MAX. lia. }
    rewrite (bind_Ok _ _ _ _ _ E1).
    destruct (IH v1) as (u & -> & Hwfu & Hsu & Hcu); [done | | lia |].
    + rewrite Hc1, Hs1. unfold grown_capacity. case_decide as Hfull.
      * rewrite doubling_capacity_full; [lia | lia | congruence].
      * rewrite doubling_capacity_room; [lia | lia | lia].
    + exists u. split_and!; try done. lia.
Qed.

Lemma elements_ext v v' :
  wf v → wf v' → size_ v' = size_ v →
  (∀ k, 0 ≤ k < size_ v → slot v' k = slot v k) →
  elements v' = elements v.
Proof.
  intros (Hlen & Hsize & Hcap) (Hlen' & Hsize' & Hcap') Hs Hk.
  unfold elements. apply block_ext.
  - rewrite !length_take. lia.
  - intros k Hk'. rewrite length_take in Hk'. rewrite !load_take, Hs.
    case_decide; [|done]. apply Hk. lia.
Qed.

End GrowthFacts.

(** ** Comparisons *)

Section CompareFacts.
Context {T : Type} `{Comparable T}.
Implicit Types (l : list T) (v : SimpleVector T).

Lemma range_elements v :
  wf v → range (items_ v) (begin_ v) (end_ v) = Some (elements v).
Proof.
  intros (Hlen & Hsize & Hcap). unfold range, begin_, end_, elements.
  rewrite decide_True by lia. simpl. do 2 f_equal. lia.
Qed.

Lemma equal_loop_Forall2 l1 : ∀ l2,
  length l1 = length l2 →
  equal_loop l1 l2 = true ↔ Forall2 (λ x y, eqb x y = true) l1 l2.
Proof.
  induction l1 as [|x l1 IH]; intros [|y l2] Hlen; simpl in *; try done.
  injection Hlen as Hlen. destruct (eqb x y) eqn:E.
  - rewrite (IH l2 Hlen). split.
    + intros Hall. by constructor.
    + by intros [_ Hall]%Forall2_cons.
  - split; [done|]. intros [Hxy _]%Forall2_cons. congruence.
Qed.

Lemma std_equal_spec l1 l2 :
  std_equal l1 l2 = true ↔
  length l1 = length l2 ∧ Forall2 (λ x y, eqb x y = true) l1 l2.
Proof.
  unfold std_equal. case_decide as Hlen.
  - split; [done|]. by intros [? _].
  - rewrite (equal_loop_Forall2 _ _ Hlen). tauto.
Qed.

Lemma std_equal_refl l : (∀ x, eqb x x = true) → std_equal l l = true.
Proof.
  intros Hrefl. apply std_equal_spec. split; [done|].
  induction l; constructor; auto.
Qed.

Lemma lex_less_nil_r l : ¬ lex_less l [].
Proof.
  intros (n & _ & [[_ Hn]|(x & y & _ & Hy & _)]); simpl in *; [lia|done].
Qed.

Lemma lex_less_cons x y l1 l2 :
  lex_less (x :: l1) (y :: l2) ↔
  ltb x y = true ∨ (ltb x y = false ∧ ltb y x = false ∧ lex_less l1 l2).
Proof.
  split.
  - intros ([|n] & Hpre & Hend).
    + destruct Hend as [[Hlen _]|(x' & y' & [= <-] & [= <-] & Hlt)];
        [done | by left].
    + right. destruct (Hpre 0%nat) as (x' & y' & [= <-] & [= <-] & ? & ?);
        [lia|].
      split_and!; try done. exists n. split.
      * intros i Hi. apply (Hpre (S i)). lia.
      * destruct Hend as [[Hlen Hn]|Hend]; simpl in *; [left; lia | by right].
  - intros [Hlt|(Hxy & Hyx & n & Hpre & Hend)].
    + exists 0%nat. split; [lia|]. right. by exists x, y.
    + exists (S n). split.
      * intros [|i] Hi; simpl; [by exists x, y|]. apply Hpre. lia.
      * destruct Hend as [[Hlen Hn]|Hend]; simpl; [left; lia | by right].
Qed.

Lemma std_lexicographical_compare_spec l1 : ∀ l2,
  std_lexicographical_compare l1 l2 = true ↔ lex_less l1 l2.
Proof.
  induction l1 as [|x l1 IH]; intros [|y l2]; simpl.
  - split; [done|]. by intros ?%lex_less_nil_r.
  - split; [|done]. intros _. exists 0%nat. split; [lia|]. left. simpl. lia.
  - split; [done|]. by intros ?%lex_less_nil_r.
  - rewrite lex_less_cons. destruct (ltb x y) eqn:Exy; [tauto|].
    destruct (ltb y x) eqn:Eyx; [intuition discriminate|].
    rewrite IH. intuition discriminate.
Qed.

End CompareFacts.

(** ** The unused slots *)

Section SlackFacts.
Context {T : Type} `{Element T}.
Implicit Types (v : SimpleVector T) (w : list (SimpleVector T)) (c : list Z).
Hypothesis moved_dflt : moved dflt = dflt.

Lemma PushBack_can_grow v x r v' :
  wf v → PushBack x v = Ok r v' → can_grow v.
Proof.
  intros Hwf E.
  destruct (decide (size_ v = capacity_ v → 2 * capacity_ v ≤ SIZE_MAX))
    as [Hgrow|Hgrow]; [done|].
  unfold PushBack in E.
  by rewrite (bind_UB _ _ _ (IsSizeEqualsCapacity_UB v Hwf Hgrow)) in E.
Qed.

Lemma Insert_can_grow v pos x r v' :
  wf v → Insert pos x v = Ok r v' → can_grow v ∧ wrap pos ≤ size_ v.
Proof.
  intros Hwf E.
  destruct (decide (size_ v = capacity_ v → 2 * capacity_ v ≤ SIZE_MAX))
    as [Hgrow|Hgrow].
  - split; [done|].
    destruct (decide (wrap pos ≤ size_ v)) as [Hpos|Hpos]; [done|].
    destruct (IsSizeEqualsCapacity_spec v Hwf Hgrow)
      as (v1 & E1 & _ & Hs1 & _).
    unfold Insert in E. rewrite (bind_Ok _ _ _ _ _ E1) in E.
    revert E. unfold mbind, M_bind, get, defined, std_move_backward. simpl.
    by rewrite decide_False by lia.
  - unfold Insert in E.
    by rewrite (bind_UB _ _ _ (IsSizeEqualsCapacity_UB v Hwf Hgrow)) in E.
Qed.

Lemma slack_PushBack v x r v' :
  wf v → slack_default v → PushBack x v = Ok r v' → slack_default v'.
Proof.
  intros Hwf Hslack E. pose proof Hwf as (Hlen & Hsize & Hcap).
  destruct (PushBack_spec v x Hwf (PushBack_can_grow _ _ _ _ Hwf E))
    as (v1 & E1 & Hwf1 & Hs1 & Hc1 & Hslot). rewrite E1 in E. simplify_eq.
  intros k Hk. rewrite Hslot. unfold grown_capacity in *.
  rewrite decide_False by lia. rewrite decide_False by lia.
  case_decide.
  - rewrite decide_True by lia. by rewrite remnant_dflt.
  - apply Hslack. lia.
Qed.

Lemma slack_Insert v pos x r v' :
  wf v → slack_default v → Insert pos x v = Ok r v' → slack_default v'.
Proof.
  intros Hwf Hslack E. pose proof Hwf as (Hlen & Hsize & Hcap).
  destruct (Insert_can_grow _ _ _ _ _ Hwf E) as [Hgrow Hpos].
  pose proof (wrap_range pos) as Hw.
  destruct (Insert_spec v pos x Hwf Hgrow Hpos)
    as (v1 & E1 & Hwf1 & Hs1 & Hc1 & Hslot). rewrite E1 in E. simplify_eq.
  intros k Hk. rewrite Hslot. unfold grown_capacity in *.
  rewrite decide_False by lia. rewrite decide_False by lia.
  rewrite decide_False by lia. case_decide.
  - rewrite decide_True by lia. by rewrite remnant_dflt.
  - apply Hslack. lia.
Qed.

Lemma slack_Reserve v n r v' :
  wf v → slack_default v → 0 ≤ n ≤ SIZE_MAX → Reserve n v = Ok r v' →
  slack_default v'.
Proof.
  intros Hwf Hslack Hn E. pose proof Hwf as (Hlen & Hsize & Hcap).
  destruct (Reserve_spec v n Hwf Hn) as (v1 & E1 & Hwf1 & Hs1 & Hc1 & Hslot).
  rewrite E1 in E. simplify_eq.
  intros k Hk. rewrite Hslot. case_decide.
  - rewrite decide_False by lia. rewrite decide_True by lia.
    by rewrite remnant_dflt.
  - apply Hslack. lia.
Qed.

Lemma slack_Resize v n r v' :
  wf v → slack_default v → size_ v ≤ n ≤ SIZE_MAX → Resize n v = Ok r v' →
  slack_default v'.
Proof.
  intros Hwf Hslack Hn E. pose proof Hwf as (Hlen & Hsize & Hcap).
  destruct (Resize_spec v n Hwf) as (v1 & E1 & Hwf1 & Hs1 & Hc1 & Hslot);
    [lia|].
  rewrite E1 in E. simplify_eq.
  intros k Hk. rewrite Hslot. case_decide.
  - rewrite decide_False by lia. rewrite decide_True by lia.
    by rewrite remnant_dflt.
  - rewrite decide_False by lia. apply Hslack. lia.
Qed.

Lemma slack_full (p : list T) n : slack_default {| items_ := p; size_ := n; capacity_ := n |}.
Proof. intros k Hk. simpl in *. lia. Qed.

Lemma slack_eta v :
  slack_default v →
  slack_default {| items_ := items_ v; size_ := size_ v; capacity_ := capacity_ v |}.
Proof. done. Qed.


Lemma tidy_tracked w : tidy w → tracked w (size_ <$> w).
Proof.
  intros Ht. split; [|done]. eapply Forall_impl; [exact Ht|]. by intros v [? _].
Qed.

Lemma tidy_lookup w (i : nat) v : tidy w → w !! i = Some v → wf v ∧ slack_default v.
Proof. intros Ht Hv. by apply (Forall_lookup_1 _ _ _ _ Ht Hv). Qed.

Lemma tidy_push w v : tidy w → wf v → slack_default v → tidy (w ++ [v]).
Proof.
  intros Ht Hwf Hs. apply Forall_app. split; [done|]. by apply Forall_singleton.
Qed.

Lemma tidy_set w (i : nat) v : tidy w → wf v → slack_default v → tidy (<[i := v]> w).
Proof. intros Ht Hwf Hs. by apply Forall_insert. Qed.

Lemma step_tidy (o : op) w r w' :
  tidy w → growing o w → step o w = Ok r w' → tidy w'.
Proof.
  intros Ht Hg E.
  pose proof (step_tracked o w _ r w' (tidy_tracked w Ht) E) as [Hwf' _].
  assert (Forall slack_default w') as Hs'; [|].
  2: { apply Forall_forall. intros v Hv. split.
       - by apply (proj1 (Forall_forall _ _) Hwf').
       - by apply (proj1 (Forall_forall _ _) Hs'). }
  assert (Forall slack_default w) as Hs.
  { eapply Forall_impl; [exact Ht|]. by intros v [_ ?]. }
  clear Hwf'. destruct o; simpl in *; try done.
  - unbind. simplify_eq. apply Forall_app. split; [done|].
    apply Forall_singleton. apply slack_full.
  - unbind. rewrite SimpleVector_size_eq in *. simplify_eq.
    apply Forall_app. split; [done|]. apply Forall_singleton, slack_full.
  - unbind. rewrite SimpleVector_fill_eq in *. simplify_eq.
    apply Forall_app. split; [done|]. apply Forall_singleton, slack_full.
  - unbind. rewrite SimpleVector_init_eq in *. simplify_eq.
    apply Forall_app. split; [done|]. apply Forall_singleton, slack_full.
  - unbind.
    destruct (SimpleVector_reserve_spec capacity) as (q & Eq & Hlen & Hq);
      [lia|].
    simplify_eq. apply Forall_app. split; [done|]. apply Forall_singleton.
    intros k Hk. unfold slot. simpl in *. rewrite Hq.
    rewrite decide_True by lia. by rewrite remnant_dflt.
  - unfold copy_construct in *. unbind.
    match goal with Hv : w !! other = Some _ |- _ =>
      destruct (tidy_lookup _ _ _ Ht Hv) as [Hwf _] end.
    rewrite SimpleVector_copy_spec in * by done. simplify_eq.
    apply Forall_app. split; [done|]. apply Forall_singleton, slack_full.
  - unfold move_construct in *. unbind.
    match goal with Hv : w !! other = Some _ |- _ =>
      destruct (tidy_lookup _ _ _ Ht Hv) as [Hwf Hsl] end.
    simplify_eq. apply Forall_app. split.
    + apply Forall_insert; [done|]. apply slack_full.
    + by apply Forall_singleton.
  - unfold copy_assign in *. case_decide.
    + unbind.
      match goal with Hv : w !! rhs = Some _ |- _ =>
        destruct (tidy_lookup _ _ _ Ht Hv) as [Hwf _] end.
      rewrite SimpleVector_copy_spec in * by done. simplify_eq.
      apply Forall_insert; [done|]. apply slack_full.
    + unbind. by simplify_eq.
  - unfold move_assign in *. case_decide.
    + unbind. simplify_eq. simpl.
      match goal with Hv : <[this := _]> w !! other = Some _ |- _ =>
        rewrite list_lookup_insert_ne in Hv by done;
        destruct (tidy_lookup _ _ _ Ht Hv) as [Hwf Hsl] end.
      rewrite !(list_insert_insert_ne _ this other) by done.
      rewrite list_insert_insert_eq.
      apply Forall_insert; [|apply slack_full]. by apply Forall_insert.
    + unbind. by simplify_eq.
  - (* Do_Reserve *)
    unbind. simplify_eq.
    match goal with Hv : w !! this = Some _ |- _ =>
      destruct (tidy_lookup _ _ _ Ht Hv) as [Hwf Hsl] end.
    apply Forall_insert; [done|]. by eapply slack_Reserve.
  - (* Do_PushBack *)
    unbind. simplify_eq.
    match goal with Hv : w !! this = Some _ |- _ =>
      destruct (tidy_lookup _ _ _ Ht Hv) as [Hwf Hsl] end.
    apply Forall_insert; [done|]. by eapply slack_PushBack.
  - (* Do_PushBack_move *)
    unbind. simplify_eq.
    match goal with Hv : w !! this = Some _ |- _ =>
      destruct (tidy_lookup _ _ _ Ht Hv) as [Hwf Hsl] end.
    match goal with Hr : PushBack_move _ ?v = Ok _ _ |- _ =>
      rewrite PushBack_move_eq in Hr;
      destruct (PushBack item v) as [a1 v1| |] eqn:E1; try done end.
    simplify_eq. apply Forall_insert; [done|]. by eapply slack_PushBack.
  - (* Do_Insert *)
    unbind. simplify_eq.
    match goal with Hv : w !! this = Some _ |- _ =>
      destruct (tidy_lookup _ _ _ Ht Hv) as [Hwf Hsl] end.
    apply Forall_insert; [done|]. by eapply slack_Insert.
  - (* Do_Insert_move *)
    unbind. simplify_eq.
    match goal with Hv : w !! this = Some _ |- _ =>
      destruct (tidy_lookup _ _ _ Ht Hv) as [Hwf Hsl] end.
    match goal with Hr : Insert_move _ _ ?v = Ok _ _ |- _ =>
      rewrite Insert_move_eq in Hr;
      destruct (Insert pos value v) as [a1 v1| |] eqn:E1; try done end.
    simplify_eq. apply Forall_insert; [done|]. by eapply slack_Insert.
  - (* Do_Resize *)
    unbind. simplify_eq.
    match goal with Hv : w !! this = Some _ |- _ =>
      destruct (tidy_lookup _ _ _ Ht Hv) as [Hwf Hsl];
      pose proof (Hg _ Hv) end.
    apply Forall_insert; [done|]. eapply slack_Resize; [done | done | | done].
    lia.
  - (* Do_swap *)
    unfold swap_objects in *. unbind. simplify_eq. simpl.
    match goal with Hv : w !! this = Some _ |- _ =>
      destruct (tidy_lookup _ _ _ Ht Hv) as [Hwf Hsl] end.
    match goal with Hv : w !! other = Some _ |- _ =>
      destruct (tidy_lookup _ _ _ Ht Hv) as [Hwf2 Hsl2] end.
    apply Forall_insert; [|done]. by apply Forall_insert.
Qed.

Lemma growing_run_tidy (ops : list op) : ∀ w w',
  tidy w → growing_run ops w w' → tidy w'.
Proof.
  induction ops as [|o ops IH]; intros w w' Ht Hrun; simpl in *.
  - by subst.
  - destruct Hrun as (Hg & w1 & E & Hrun). eapply IH; [|done].
    by eapply step_tidy.
Qed.

End SlackFacts.

(** * The claims of the specification *)

Section Claims.
Context {T : Type} `{Element T}.
Implicit Types (v : SimpleVector T) (w : list (SimpleVector T)).

(** C1.  Run any finite program of constructions, [PushBack], [PopBack],
    [Insert], [Erase], [Clear], [Resize], [Reserve], [swap], copies and
    moves from no objects at all.  If it runs to its end (no step is
    undefined), then after each of its steps every vector has
    [0 <= size <= capacity], and [GetSize()] of every vector is the count
    the ledger keeps for it: elements pushed or inserted, less those popped,
    erased or cleared. *)
Theorem C1_size_within_capacity (ops : list op) r w :
  run ops [] = Ok r w →
  ∀ n, ∃ w1,
    run (take n ops) [] = Ok tt w1 ∧
    Forall (λ v, 0 ≤ size_ v ≤ capacity_ v) w1 ∧
    GetSize <$> w1 = ledger (take n ops) [].
Proof.
  intros E n. rewrite <- (take_drop n ops) in E.
  apply run_app_inv in E as (w1 & E1 & _). exists w1. split; [done|].
  assert (tracked (T := T) [] []) as Ht0 by (split; [constructor | done]).
  destruct (run_tracked _ _ _ _ _ Ht0 E1) as [Hwf Hc]. split; [|done].
  eapply Forall_impl; [exact Hwf|]. by intros v (_ & ? & _).
Qed.

(** C2.  [PushBack] and [Insert] (either overload) on a full buffer, whose
    doubled capacity is still a [size_t], leave the capacity at
    [max(1, 2 * old_capacity)].  Pushing the elements of any list, one by
    one, onto a default-constructed vector leaves the capacity at the least
    power of two that holds them ([1, 2, 4, 8, ...]), and a [PushBack]
    changes the capacity exactly when the size equals the capacity. *)
Theorem C2_growth_policy v x (xs : list T) :
  wf v → size_ v = capacity_ v → 2 * capacity_ v ≤ SIZE_MAX →
  Z.of_nat (length xs) ≤ 2 ^ 62 →
  (∃ v', PushBack x v = Ok tt v' ∧ PushBack_move x v = Ok (moved x) v' ∧
         capacity_ v' = Z.max 1 (2 * capacity_ v)) ∧
  (∀ pos, 0 ≤ pos ≤ size_ v →
     ∃ v', Insert pos x v = Ok pos v' ∧
           Insert_move pos x v = Ok (pos, moved x) v' ∧
           capacity_ v' = Z.max 1 (2 * capacity_ v)) ∧
  (∃ u, push_all xs SimpleVector_default = Ok tt u ∧
        size_ u = Z.of_nat (length xs) ∧
        capacity_ u = doubling_capacity (Z.of_nat (length xs))) ∧
  (∀ u y u', wf u → PushBack y u = Ok tt u' →
     capacity_ u' ≠ capacity_ u ↔ size_ u = capacity_ u).
Proof.
  intros Hwf Hfull Hdouble Hxs. pose proof Hwf as (Hlen & Hsize & Hcap).
  assert (can_grow v) as Hgrow by (by intros _).
  split_and!.
  - destruct (PushBack_spec v x Hwf Hgrow) as (v' & E & _ & _ & Hc & _).
    exists v'. rewrite PushBack_move_eq, E. split_and!; try done.
    rewrite Hc. unfold grown_capacity. by rewrite decide_True.
  - intros pos Hpos.
    assert (wrap pos = pos) as Hw by (apply wrap_id; lia).
    destruct (Insert_spec v pos x Hwf Hgrow) as (v' & E & _ & _ & Hc & _);
      [lia|].
    rewrite Hw in E. exists v'. rewrite Insert_move_eq, E.
    split_and!; try done.
    rewrite Hc. unfold grown_capacity. by rewrite decide_True.
  - destruct (push_all_spec xs SimpleVector_default)
      as (u & E & _ & Hs & Hc); [apply wf_default | done | simpl; lia |].
    exists u. simpl in Hs. split_and!; try done. by rewrite Hc, Hs.
  - intros u y u' Hwfu E. pose proof Hwfu as (Hlenu & Hsizeu & Hcapu).
    destruct (decide (size_ u = capacity_ u → 2 * capacity_ u ≤ SIZE_MAX))
      as [Hg|Hg].
    + destruct (PushBack_spec u y Hwfu Hg) as (u1 & E1 & _ & _ & Hc & _).
      rewrite E1 in E. simplify_eq. rewrite Hc. unfold grown_capacity.
      case_decide; lia.
    + unfold PushBack in E.
      by rewrite (bind_UB _ _ _ (IsSizeEqualsCapacity_UB u Hwfu Hg)) in E.
Qed.

(** [Resize(n)] on a vector of size [s] and capacity [c], branch by branch:
    it succeeds and sets the size to [n].  If [n > c] the capacity becomes
    [max(n, 2 * c)] (when [2 * c] is still a [size_t]) and the slots
    [[s, n)] hold default values when moving from a default value leaves it
    default, and only then: the new block is filled by moving from one
    [Type()] again and again.  If [s < n <= c] the slots [[s, n)] are set
    to the default value; if [n <= s] the elements [[0, n)] are as before.
    The elements kept are never changed and the capacity is never
    reduced. *)
Lemma Resize_branches v n :
  wf v → 0 ≤ n ≤ SIZE_MAX →
  ∃ v', Resize n v = Ok tt v' ∧ size_ v' = n ∧
        capacity_ v ≤ capacity_ v' ∧
        (capacity_ v < n →
           (2 * capacity_ v ≤ SIZE_MAX →
              capacity_ v' = Z.max n (2 * capacity_ v)) ∧
           (moved dflt = dflt →
              ∀ k, size_ v ≤ k < n → slot v' k = Some dflt)) ∧
        (size_ v < n ≤ capacity_ v →
           capacity_ v' = capacity_ v ∧
           ∀ k, size_ v ≤ k < n → slot v' k = Some dflt) ∧
        (n ≤ size_ v →
           capacity_ v' = capacity_ v ∧
           ∀ k, 0 ≤ k < n → slot v' k = slot v k) ∧
        (∀ k, 0 ≤ k < Z.min (size_ v) n → slot v' k = slot v k).
Proof.
  intros Hwf Hn. pose proof Hwf as (Hlen & Hsize & Hcap).
  destruct (Resize_spec v n Hwf Hn) as (v' & E & Hwf' & Hs & Hc & Hslot).
  pose proof (wrap_range (capacity_ v * 2)) as Hw.
  exists v'. split_and!; try done.
  - rewrite Hc. case_decide; lia.
  - intros Hbig. split.
    + intros Hdouble. rewrite Hc, decide_True by lia.
      rewrite wrap_id by lia. lia.
    + intros Hm k Hk. rewrite Hslot, decide_True by lia.
      rewrite decide_False by lia. rewrite decide_True.
      * by rewrite remnant_dflt.
      * rewrite Hc, decide_True by lia. lia.
  - intros Hmid. split.
    + rewrite Hc. by rewrite decide_False by lia.
    + intros k Hk. rewrite Hslot, decide_False by lia.
      by rewrite decide_True by lia.
  - intros Hsmall. split.
    + rewrite Hc. by rewrite decide_False by lia.
    + intros k Hk. rewrite Hslot, decide_False by lia.
      by rewrite decide_False by lia.
  - intros k Hk. rewrite Hslot. repeat case_decide; done || lia.
Qed.

(** C4.  For a [size_t] index [i], [At(i)] throws [out_of_range] exactly
    when [i >= size], and otherwise returns the element in slot [i]; the
    vector is the same afterwards in both cases.  [At(size)] and
    [At(size + 1)] throw, and [At(size - 1)] returns when [size > 0]. *)
Theorem C4_at_bounds v i :
  wf v → 0 ≤ i ≤ SIZE_MAX →
  (At i v = Throw out_of_range v ↔ i >= size_ v) ∧
  (i < size_ v → ∃ x, slot v i = Some x ∧ At i v = Ok x v) ∧
  At (size_ v) v = Throw out_of_range v ∧
  (size_ v + 1 ≤ SIZE_MAX → At (size_ v + 1) v = Throw out_of_range v) ∧
  (size_ v > 0 → ∃ x, At (size_ v - 1) v = Ok x v).
Proof.
  intros (Hlen & Hsize & Hcap) Hi.
  assert (∀ j, j >= size_ v → At j v = Throw out_of_range v) as Hthrow.
  { intros j Hj. unfold At, mbind, M_bind, get. simpl.
    by rewrite decide_True by done. }
  assert (∀ j, 0 ≤ j < size_ v → ∃ x, slot v j = Some x ∧ At j v = Ok x v)
    as Hok.
  { intros j Hj. destruct (load_is_Some (items_ v) j) as [x Hx]; [lia|].
    exists x. split; [done|]. unfold At, mbind, M_bind, get. simpl.
    rewrite decide_False by lia. by rewrite Hx. }
  split_and!.
  - split; [|by apply Hthrow]. intros E.
    destruct (decide (i >= size_ v)) as [|Hlt]; [done|].
    destruct (Hok i) as (x & _ & Ex); [lia|]. by rewrite Ex in E.
  - intros Hlt. apply Hok. lia.
  - apply Hthrow. lia.
  - intros _. apply Hthrow. lia.
  - intros Hpos. destruct (Hok (size_ v - 1)) as (x & _ & Ex); [lia|].
    by exists x.
Qed.


(** C6.  Let [a] be a vector holding [va].  The move constructor builds
    a new vector holding exactly [va] (block, size and capacity) and leaves
    [a] empty, with size 0 and capacity 0; the move assignment [b = move(a)]
    to another vector [b] does the same to [b] and [a]. *)
Theorem C6_move_leaves_source_empty w (a : nat) va :
  w !! a = Some va →
  SimpleVector_move va = (va, SimpleVector_default) ∧
  size_ (SimpleVector_default (T := T)) = 0 ∧
  capacity_ (SimpleVector_default (T := T)) = 0 ∧
  (∃ w', move_construct a w = Ok (length w) w' ∧
         w' !! a = Some SimpleVector_default ∧
         w' !! length w = Some va) ∧
  (∀ (b : nat) vb, b ≠ a → w !! b = Some vb →
     ∃ w', move_assign b a w = Ok tt w' ∧
           w' !! a = Some SimpleVector_default ∧
           w' !! b = Some va).
Proof.
  intros Ha. pose proof (lookup_lt_Some _ _ _ Ha) as Hlt.
  assert ({| items_ := items_ va; size_ := size_ va;
             capacity_ := capacity_ va |} = va) as Heta by (by destruct va).
  split_and!; try done.
  - unfold SimpleVector_move. by rewrite Heta.
  - unfold move_construct.
    rewrite (bind_Ok _ _ _ _ _ (object_Ok a w va Ha)).
    erewrite bind_Ok by (by eapply call_Ok).
    unfold new_object. rewrite length_insert. eexists. split; [done|].
    simpl. rewrite Heta. split.
    + rewrite lookup_app_l by (rewrite length_insert; lia).
      by apply list_lookup_insert_eq.
    + rewrite lookup_app_r by (rewrite length_insert; lia).
      rewrite length_insert.
      by replace (length w - length w)%nat with 0%nat by lia.
  - intros b vb Hne Hb. pose proof (lookup_lt_Some _ _ _ Hb) as Hltb.
    unfold move_assign. rewrite decide_True by done.
    erewrite bind_Ok by (by eapply call_Ok).
    set (w1 := <[b := _]> w).
    assert (w1 !! a = Some va) as Ha1
      by (unfold w1; by rewrite list_lookup_insert_ne).
    rewrite (bind_Ok _ _ _ _ _ (object_Ok a w1 va Ha1)).
    erewrite bind_Ok by (by eapply call_Ok).
    set (w2 := <[a := _]> w1).
    assert (∃ vb', w2 !! b = Some vb') as [vb' Hb2].
    { apply lookup_lt_is_Some. unfold w2, w1. by rewrite !length_insert. }
    rewrite (bind_Ok _ _ _ _ _ (object_Ok b w2 vb' Hb2)).
    erewrite call_Ok by done.
    eexists. split; [done|]. simpl. rewrite Heta. split.
    + rewrite list_lookup_insert_ne by done. apply list_lookup_insert_eq.
      unfold w1. by rewrite length_insert.
    + apply list_lookup_insert_eq. unfold w2, w1. by rewrite !length_insert.
Qed.

(** C9.  For a type whose move leaves the source default-valued and for
    [N >= 1], the constructor [ArrayPtr(N, std::move(v))] builds the block
    of [v] followed by [N - 1] default values (and leaves the caller's value
    default). *)
Theorem C9_one_value_then_defaults (N : Z) (value : T) :
  1 ≤ N → (∀ x, moved x = dflt) →
  ArrayPtr_move_fill N value
  = Some (value :: replicate (Z.to_nat (N - 1)) dflt, dflt).
Proof.
  intros HN Hmoved.
  assert (∀ k, 1 ≤ k → remnant value k = dflt) as Hrem.
  { intros k Hk. replace k with (k - 1 + 1) by lia.
    rewrite remnant_succ by lia. apply Hmoved. }
  destruct (ArrayPtr_move_fill_spec N value) as (q & -> & Hlen & Hq).
  rewrite Hrem by lia. do 2 f_equal. apply block_ext.
  - simpl. rewrite length_replicate. lia.
  - intros k Hk. rewrite Hq. rewrite decide_True by lia.
    destruct (decide (k = 0)) as [->|Hk0]; [done|].
    rewrite Hrem by lia. rewrite load_lookup by lia.
    replace (Z.to_nat k) with (S (Z.to_nat (k - 1))) by lia. simpl.
    symmetry. apply lookup_replicate_2. lia.
Qed.

(** C8, as amended.  For an element type whose default value stays default
    when it is moved from, every vector reached by a run of operations that
    lower no size (constructions, copies, moves, [swap], [Reserve],
    [PushBack], [Insert], and [Resize] to at least the present size) has
    default values in its slots [[size, capacity)].  [PopBack] and [Clear]
    lower the size and leave the block as it is, and [Erase] leaves in the
    vacated slot the last element or what a move left of it. *)
Theorem C8_slack_of_growing_runs (ops : list op) w :
  moved dflt = dflt → growing_run ops [] w →
  Forall slack_default w ∧
  (∀ v, wf v →
     ∃ v', PopBack v = Ok tt v' ∧ size_ v' = Z.max 0 (size_ v - 1) ∧
           items_ v' = items_ v ∧ capacity_ v' = capacity_ v) ∧
  (∀ v, ∃ v', Clear v = Ok tt v' ∧ size_ v' = 0 ∧
              items_ v' = items_ v ∧ capacity_ v' = capacity_ v) ∧
  (∀ v pos, wf v → 0 ≤ pos < size_ v →
     ∃ v', Erase pos v = Ok pos v' ∧ size_ v' = size_ v - 1 ∧
           capacity_ v' = capacity_ v ∧
           slot v' (size_ v') =
             if decide (pos < size_ v - 1)
             then moved <$> slot v (size_ v - 1)
             else slot v (size_ v - 1)).
Proof.
  intros Hmoved Hrun. split_and!.
  - assert (tidy (T := T) []) as Ht0 by constructor.
    pose proof (growing_run_tidy Hmoved ops [] w Ht0 Hrun) as Ht.
    eapply Forall_impl; [exact Ht|]. by intros v [_ ?].
  - intros v Hwf. eexists. split; [by apply PopBack_spec|]. done.
  - intros v. eexists. split; [by apply Clear_spec|]. done.
  - intros v pos Hwf Hpos.
    destruct (Erase_spec v pos Hwf) as (v' & E & _ & Hs & Hc & Hslot); [lia|].
    exists v'. split_and!; try done; [lia|].
    rewrite Hslot. replace (size_ v') with (size_ v - 1) by lia.
    rewrite decide_False by lia. repeat case_decide; done || lia.
Qed.

End Claims.

Section ClaimsCompare.
Context {T : Type} `{Element T} `{Comparable T}.
Implicit Types (v : SimpleVector T) (w : list (SimpleVector T)).


End ClaimsCompare.

(** C7.  For well-formed vectors, [operator==] holds exactly when the two
    have the same size and their elements are pairwise equal, [operator!=]
    is its negation, and [operator<], [operator>], [operator<=] and
    [operator>=] decide the lexicographic order of the elements and its
    converse and their negations.  For vectors of integers,
    [[1,2,3] < [1,2,4]] and [[1,2] < [1,2,3]]. *)
Theorem C7_comparison_operators :
  (∀ (T : Type) `{Comparable T} (a b : SimpleVector T),
     wf a → wf b →
     ∃ e l g,
       operator_eq a b = Some e ∧ operator_ne a b = Some (negb e) ∧
       operator_lt a b = Some l ∧ operator_ge a b = Some (negb l) ∧
       operator_gt a b = Some g ∧ operator_le a b = Some (negb g) ∧
       (e = true ↔
          size_ a = size_ b ∧
          Forall2 (λ x y, eqb x y = true) (elements a) (elements b)) ∧
       (l = true ↔ lex_less (elements a) (elements b)) ∧
       (g = true ↔ lex_less (elements b) (elements a))) ∧
  (∃ a b : SimpleVector Z,
     SimpleVector_init [1; 2; 3] = Some a ∧
     SimpleVector_init [1; 2; 4] = Some b ∧
     operator_lt a b = Some true) ∧
  (∃ a b : SimpleVector Z,
     SimpleVector_init [1; 2] = Some a ∧
     SimpleVector_init [1; 2; 3] = Some b ∧
     operator_lt a b = Some true).
Proof.
  split_and!.
  - intros T HC a b Ha Hb.
    exists (std_equal (elements a) (elements b)),
      (std_lexicographical_compare (elements a) (elements b)),
      (std_lexicographical_compare (elements b) (elements a)).
    unfold operator_ne, operator_ge, operator_le, operator_gt, operator_eq,
      operator_lt.
    rewrite !(range_elements a Ha), !(range_elements b Hb). simpl.
    split_and!; try done.
    + rewrite std_equal_spec. unfold elements.
      destruct Ha as (Hla & Hsa & _), Hb as (Hlb & Hsb & _).
      rewrite !length_take. split.
      * intros [Hlen Hall]. split; [lia | done].
      * intros [Hsz Hall]. split; [lia | done].
    + apply std_lexicographical_compare_spec.
    + apply std_lexicographical_compare_spec.
  - eexists _, _. by vm_compute.
  - eexists _, _. by vm_compute.
Qed.

(** C8, as stated, fails: after a [PopBack], a [Clear] or an [Erase] the
    vacated slot still holds an element and not the default value [0]. *)
Lemma C8_stale_slots_counterexample :
  (∃ v : SimpleVector Z,
     run [New_default; Do_PushBack 0 5; Do_PopBack 0] [] = Ok tt [v] ∧
     size_ v = 0 ∧ capacity_ v = 1 ∧ slot v 0 = Some 5 ∧
     ¬ slack_default v) ∧
  (∃ v : SimpleVector Z,
     run [New_default; Do_PushBack 0 5; Do_Clear 0] [] = Ok tt [v] ∧
     size_ v = 0 ∧ capacity_ v = 1 ∧ slot v 0 = Some 5 ∧
     ¬ slack_default v) ∧
  (∃ v : SimpleVector Z,
     run [New_default; Do_PushBack 0 5; Do_PushBack 0 6; Do_Erase 0 0] []
       = Ok tt [v] ∧
     size_ v = 1 ∧ capacity_ v = 2 ∧ slot v 1 = Some 6 ∧
     ¬ slack_default v).
Proof.
  split_and!; eexists; (split; [by vm_compute|]); split_and!; try done.
  - intros Hs. by specialize (Hs 0 ltac:(simpl; lia)).
  - intros Hs. by specialize (Hs 0 ltac:(simpl; lia)).
  - intros Hs. by specialize (Hs 1 ltac:(simpl; lia)).
Qed.

(** * The claims at concrete inputs *)

(** C1, on the scenario of the specification. *)
Lemma C1_witness :
  run scenario []
  = Ok tt [{| items_ := [15; 20; 0; 0; 0; 0; 0; 0]; size_ := 5;
              capacity_ := 8 |}] ∧
  ∀ n, ∃ w1,
    run (take n scenario) [] = Ok tt w1 ∧
    Forall (λ v, 0 ≤ size_ v ≤ capacity_ v) w1 ∧
    GetSize <$> w1 = ledger (take n scenario) [].
Proof.
  split; [by vm_compute|].
  apply (C1_size_within_capacity scenario tt
           [{| items_ := [15; 20; 0; 0; 0; 0; 0; 0]; size_ := 5;
               capacity_ := 8 |}]).
  by vm_compute.
Defined.

(** C2, on the full vector [[1, 2]] and five pushes. *)
Lemma C2_witness :
  wf {| items_ := [1; 2]; size_ := 2; capacity_ := 2 |} ∧
  size_ {| items_ := [1; 2]; size_ := 2; capacity_ := 2 |}
  = capacity_ {| items_ := [1; 2]; size_ := 2; capacity_ := 2 |} ∧
  2 * capacity_ {| items_ := [1; 2]; size_ := 2; capacity_ := 2 |}
  ≤ SIZE_MAX ∧
  Z.of_nat (length [1; 2; 3; 4; 5]) ≤ 2 ^ 62 ∧
  (∃ v', PushBack 7 {| items_ := [1; 2]; size_ := 2; capacity_ := 2 |}
         = Ok tt v' ∧ capacity_ v' = 4) ∧
  (∃ v', Insert 1 7 {| items_ := [1; 2]; size_ := 2; capacity_ := 2 |}
         = Ok 1 v' ∧ capacity_ v' = 4) ∧
  (∃ u, push_all [1; 2; 3; 4; 5] SimpleVector_default = Ok tt u ∧
        size_ u = 5 ∧ capacity_ u = 8).
Proof.
  assert (wf {| items_ := [1; 2]; size_ := 2; capacity_ := 2 |}) as Hwf
    by (unfold wf, SIZE_MAX; simpl; lia).
  assert (2 * 2 ≤ SIZE_MAX) as Hdouble by (unfold SIZE_MAX; lia).
  assert (Z.of_nat (length [1; 2; 3; 4; 5]) ≤ 2 ^ 62) as Hxs
    by (simpl; lia).
  destruct (C2_growth_policy
              {| items_ := [1; 2]; size_ := 2; capacity_ := 2 |} 7
              [1; 2; 3; 4; 5] Hwf eq_refl Hdouble Hxs)
    as ((v1 & E1 & _ & Hc1) & Hins & (u & Eu & Hsu & Hcu) & _).
  destruct (Hins 1 ltac:(simpl; lia)) as (v2 & E2 & _ & Hc2).
  split; [exact Hwf|]. split; [reflexivity|]. split; [exact Hdouble|].
  split; [exact Hxs|]. split; [|split].
  - exists v1. split; [exact E1 | exact Hc1].
  - exists v2. split; [exact E2 | exact Hc2].
  - exists u. split; [exact Eu|]. split; [exact Hsu|].
    rewrite Hcu. reflexivity.
Defined.

(** C3.  [Resize(3)] on a default-constructed vector of an element type
    that shows its moves: the branch [n > c] gives size [3] and capacity
    [max(3, 2 * 0) = 3], but only slot [0] of the slots [[0, 3)] holds the
    default value [0]; slots [1] and [2] hold what is left of one [Type()]
    moved from once and twice.  The branch [s < n <= c], reached by the
    same call on an empty vector of capacity [3], does give defaults. *)
Theorem C3_resize_moved_from_defaults :
  Resize (H := Element_marked) 3 SimpleVector_default
  = Ok tt {| items_ := [0; -100; -200]; size_ := 3; capacity_ := 3 |} ∧
  slot {| items_ := [0; -100; -200]; size_ := 3; capacity_ := 3 |} 1
  ≠ Some (dflt (Element := Element_marked)) ∧
  Resize (H := Element_marked) 3
    {| items_ := [7; 8; 9]; size_ := 0; capacity_ := 3 |}
  = Ok tt {| items_ := [0; 0; 0]; size_ := 3; capacity_ := 3 |}.
Proof. split_and!; [reflexivity | discriminate | reflexivity]. Qed.

(** C4, on [[10, 20, 30]] at index 1. *)
Lemma C4_witness :
  wf {| items_ := [10; 20; 30; 0]; size_ := 3; capacity_ := 4 |} ∧
  0 ≤ 1 ≤ SIZE_MAX ∧
  At 1 {| items_ := [10; 20; 30; 0]; size_ := 3; capacity_ := 4 |}
  = Ok 20 {| items_ := [10; 20; 30; 0]; size_ := 3; capacity_ := 4 |} ∧
  At 3 {| items_ := [10; 20; 30; 0]; size_ := 3; capacity_ := 4 |}
  = Throw out_of_range
      {| items_ := [10; 20; 30; 0]; size_ := 3; capacity_ := 4 |} ∧
  At 4 {| items_ := [10; 20; 30; 0]; size_ := 3; capacity_ := 4 |}
  = Throw out_of_range
      {| items_ := [10; 20; 30; 0]; size_ := 3; capacity_ := 4 |}.
Proof.
  assert (wf {| items_ := [10; 20; 30; 0]; size_ := 3; capacity_ := 4 |})
    as Hwf by (unfold wf, SIZE_MAX; simpl; lia).
  assert (0 ≤ 1 ≤ SIZE_MAX) as Hi by (unfold SIZE_MAX; lia).
  destruct (C4_at_bounds _ 1 Hwf Hi) as (_ & Hok & Hsize & Hnext & _).
  destruct (Hok ltac:(simpl; lia)) as (x & Hx & Ex).
  split; [exact Hwf|]. split; [exact Hi|]. split; [|split].
  - injection Hx as <-. exact Ex.
  - exact Hsize.
  - apply Hnext. unfold SIZE_MAX. simpl. lia.
Defined.


(** C6, on a store of two vectors. *)
Lemma C6_witness :
  [{| items_ := [1; 2; 0; 0]; size_ := 2; capacity_ := 4 |};
   {| items_ := [9]; size_ := 1; capacity_ := 1 |}] !! 0%nat
  = Some {| items_ := [1; 2; 0; 0]; size_ := 2; capacity_ := 4 |} ∧
  ∃ w', move_assign 1 0
          [{| items_ := [1; 2; 0; 0]; size_ := 2; capacity_ := 4 |};
           {| items_ := [9]; size_ := 1; capacity_ := 1 |}] = Ok tt w' ∧
        w' !! 0%nat = Some SimpleVector_default ∧
        w' !! 1%nat
        = Some {| items_ := [1; 2; 0; 0]; size_ := 2; capacity_ := 4 |}.
Proof.
  split; [done|].
  destruct (C6_move_leaves_source_empty
              [{| items_ := [1; 2; 0; 0]; size_ := 2; capacity_ := 4 |};
               {| items_ := [9]; size_ := 1; capacity_ := 1 |}] 0
              {| items_ := [1; 2; 0; 0]; size_ := 2; capacity_ := 4 |}
              eq_refl) as (_ & _ & _ & _ & Hassign).
  apply (Hassign 1%nat {| items_ := [9]; size_ := 1; capacity_ := 1 |});
    [lia | done].
Defined.

(** C7, on [[1, 2, 3]] and [[1, 2, 4]]. *)
Lemma C7_witness :
  wf {| items_ := [1; 2; 3]; size_ := 3; capacity_ := 3 |} ∧
  wf {| items_ := [1; 2; 4; 0]; size_ := 3; capacity_ := 4 |} ∧
  ∃ e l g,
    operator_eq {| items_ := [1; 2; 3]; size_ := 3; capacity_ := 3 |}
      {| items_ := [1; 2; 4; 0]; size_ := 3; capacity_ := 4 |} = Some e ∧
    operator_lt {| items_ := [1; 2; 3]; size_ := 3; capacity_ := 3 |}
      {| items_ := [1; 2; 4; 0]; size_ := 3; capacity_ := 4 |} = Some l ∧
    operator_gt {| items_ := [1; 2; 3]; size_ := 3; capacity_ := 3 |}
      {| items_ := [1; 2; 4; 0]; size_ := 3; capacity_ := 4 |} = Some g ∧
    (l = true ↔ lex_less [1; 2; 3] [1; 2; 4]).
Proof.
  assert (wf {| items_ := [1; 2; 3]; size_ := 3; capacity_ := 3 |}) as Ha
    by (unfold wf, SIZE_MAX; simpl; lia).
  assert (wf {| items_ := [1; 2; 4; 0]; size_ := 3; capacity_ := 4 |}) as Hb
    by (unfold wf, SIZE_MAX; simpl; lia).
  destruct C7_comparison_operators as (Hall & _ & _).
  destruct (Hall Z _ _ _ Ha Hb)
    as (e & l & g & Ee & _ & El & _ & Eg & _ & _ & Hl & _).
  split_and!; try done. by exists e, l, g.
Defined.

(** C8 as amended, on a run of pushes, an insertion and a reservation. *)
Lemma C8_witness :
  moved (dflt (T := Z)) = dflt ∧
  growing_run
    [New_default; Do_PushBack 0 10; Do_PushBack 0 20; Do_Insert 0 1 15;
     Do_Reserve 0 6]
    []
    [{| items_ := [10; 15; 20; 0; 0; 0]; size_ := 3; capacity_ := 6 |}] ∧
  Forall slack_default
    [{| items_ := [10; 15; 20; 0; 0; 0]; size_ := 3; capacity_ := 6 |}].
Proof.
  assert (growing_run
            [New_default; Do_PushBack 0 10; Do_PushBack 0 20;
             Do_Insert 0 1 15; Do_Reserve 0 6]
            []
            [{| items_ := [10; 15; 20; 0; 0; 0]; size_ := 3;
                capacity_ := 6 |}]) as Hrun.
  { simpl. repeat (split; [done|]; eexists; split; [by vm_compute|]).
    done. }
  assert (moved (dflt (T := Z)) = dflt) as Hmoved by reflexivity.
  split; [exact Hmoved|]. split; [exact Hrun|].
  by destruct (C8_slack_of_growing_runs _ _ Hmoved Hrun) as [Hs _].
Defined.

(** C9, on an owning handle. *)
Lemma C9_witness :
  1 ≤ 3 ∧ (∀ x : option Z, moved x = dflt) ∧
  ArrayPtr_move_fill 3 (Some 7) = Some ([Some 7; None; None], None).
Proof.
  split_and!; [lia | done |].
  exact (C9_one_value_then_defaults 3 (Some 7) ltac:(lia)
           (λ _, eq_refl)).
Defined.



(** * More of the interface *)

(** ** The elements as a list *)

Section ElementsFacts.
Context {T : Type} `{Element T}.
Implicit Types (v : SimpleVector T) (p q l : list T) (i j k n : Z) (x y : T).

Lemma load_app p q k :
  load (p ++ q) k =
  if decide (k < Z.of_nat (length p)) then load p k
  else load q (k - Z.of_nat (length p)).
Proof.
  destruct (decide (0 ≤ k)) as [Hk|Hk].
  - case_decide.
    + rewrite !load_lookup by lia. apply lookup_app_l. lia.
    + rewrite !load_lookup by lia. rewrite lookup_app_r by lia.
      f_equal. lia.
  - rewrite !load_neg by lia. case_decide; [done|]. lia.
Qed.

Lemma load_drop p (n : nat) k :
  load (drop n p) k = if decide (0 ≤ k) then load p (k + Z.of_nat n) else None.
Proof.
  case_decide.
  - rewrite !load_lookup by lia. rewrite lookup_drop. f_equal. lia.
  - apply load_neg. lia.
Qed.

Lemma load_cons x p k :
  load (x :: p) k = if decide (k = 0) then Some x else load p (k - 1).
Proof.
  change (x :: p) with ([x] ++ p). rewrite load_app. simpl.
  destruct (decide (k = 0)) as [->|Hk0]; [done|].
  case_decide.
  - by rewrite !load_neg by lia.
  - f_equal; lia.
Qed.

Lemma elements_length v :
  wf v → Z.of_nat (length (elements v)) = size_ v.
Proof.
  intros (Hlen & Hsize & Hcap). unfold elements. rewrite length_take. lia.
Qed.

Lemma load_elements v k :
  load (elements v) k = if decide (k < size_ v) then slot v k else None.
Proof.
  unfold elements, slot. rewrite load_take.
  destruct (decide (0 ≤ k)).
  - repeat case_decide; done || lia.
  - rewrite load_neg by lia. by repeat case_decide.
Qed.

Lemma elements_intro v l :
  wf v → Z.of_nat (length l) = size_ v →
  (∀ k, 0 ≤ k < size_ v → slot v k = load l k) →
  elements v = l.
Proof.
  intros Hwf Hlen Hk. apply block_ext.
  - pose proof (elements_length v Hwf). lia.
  - intros k Hk'. rewrite elements_length in Hk' by done.
    rewrite load_elements, decide_True by lia. apply Hk. lia.
Qed.

End ElementsFacts.

Section ContentFacts.
Context {T : Type} `{Element T}.
Implicit Types (v : SimpleVector T) (p q l : list T) (i j k n : Z) (x y : T).

Lemma PushBack_elements v x :
  wf v → can_grow v →
  ∃ v', PushBack x v = Ok tt v' ∧ wf v' ∧ size_ v' = size_ v + 1 ∧
        capacity_ v' = grown_capacity v ∧
        elements v' = elements v ++ [x] ∧ slot v' (size_ v) = Some x.
Proof.
  intros Hwf Hgrow. pose proof Hwf as (Hlen & Hsize & Hcap).
  destruct (PushBack_spec v x Hwf Hgrow) as (v' & E & Hwf' & Hs & Hc & Hslot).
  exists v'. split_and!; try done.
  - apply elements_intro; [done | |].
    + rewrite length_app, Nat2Z.inj_add, elements_length by done. simpl. lia.
    + intros k Hk. rewrite Hslot, load_app, load_elements.
      rewrite elements_length by done.
      destruct (decide (k < size_ v)).
      * rewrite decide_True by lia. done.
      * rewrite decide_False by lia. rewrite decide_True by lia.
        by replace (k - size_ v) with 0 by lia.
  - rewrite Hslot. rewrite decide_False by lia. by rewrite decide_True.
Qed.

(** *** Arguments that are elements of the vector *)

Lemma IsSizeEqualsCapacity_room v :
  size_ v ≠ capacity_ v → IsSizeEqualsCapacity v = Ok tt v.
Proof. intros. unfold IsSizeEqualsCapacity. mrun. by rewrite decide_False. Qed.

Lemma IsSizeEqualsCapacity_no_throw v e v' :
  wf v → IsSizeEqualsCapacity v ≠ Throw e v'.
Proof.
  intros Hwf E.
  destruct (decide (can_grow v)) as [Hgrow|Hgrow].
  - destruct (IsSizeEqualsCapacity_spec v Hwf Hgrow) as (v1 & E1 & _).
    congruence.
  - rewrite (IsSizeEqualsCapacity_UB v Hwf Hgrow) in E. done.
Qed.

Lemma PushBack_ref_Outside x v : PushBack_ref (Outside x) v = PushBack x v.
Proof.
  unfold PushBack_ref, PushBack. mrun.
  by destruct (IsSizeEqualsCapacity v) as [[] v1| |].
Qed.

Lemma PushBack_move_ref_Outside x v :
  PushBack_move_ref (Outside x) v =
  match PushBack x v with
  | Ok _ v' => Ok (Outside (moved x)) v'
  | Throw e v' => Throw e v'
  | UB => UB
  end.
Proof.
  unfold PushBack_move_ref, PushBack. mrun.
  destruct (IsSizeEqualsCapacity v) as [[] v1| |]; try done. simpl.
  by destruct (store (items_ v1) (size_ v1) x).
Qed.

Lemma Insert_ref_Outside pos x v : Insert_ref pos (Outside x) v = Insert pos x v.
Proof.
  unfold Insert_ref, Insert. mrun.
  destruct (IsSizeEqualsCapacity v) as [[] v1| |]; try done.
Qed.

Lemma Insert_move_ref_Outside pos x v :
  Insert_move_ref pos (Outside x) v =
  match Insert pos x v with
  | Ok it v' => Ok (it, Outside (moved x)) v'
  | Throw e v' => Throw e v'
  | UB => UB
  end.
Proof.
  unfold Insert_move_ref, Insert. mrun.
  destruct (IsSizeEqualsCapacity v) as [[] v1| |]; try done.
  destruct (std_move_backward _ _ _ _) as [q|]; [simpl|done].
  by destruct (store q (wrap pos) x).
Qed.

Lemma PushBack_ref_full v k :
  wf v → size_ v = capacity_ v →
  PushBack_ref (Inside k) v = UB ∧ PushBack_move_ref (Inside k) v = UB.
Proof.
  intros Hwf Hfull. unfold PushBack_ref, PushBack_move_ref. mrun.
  rewrite bool_decide_eq_true_2 by done.
  destruct (IsSizeEqualsCapacity v) as [[] v1|e v1|] eqn:E; try done.
  by destruct (IsSizeEqualsCapacity_no_throw v e v1 Hwf).
Qed.

Lemma Insert_ref_full v pos k :
  wf v → size_ v = capacity_ v →
  Insert_ref pos (Inside k) v = UB ∧ Insert_move_ref pos (Inside k) v = UB.
Proof.
  intros Hwf Hfull. unfold Insert_ref, Insert_move_ref. mrun.
  rewrite bool_decide_eq_true_2 by done.
  destruct (IsSizeEqualsCapacity v) as [[] v1|e v1|] eqn:E; try done.
  - by destruct (std_move_backward _ _ _ _) as [q|].
  - by destruct (IsSizeEqualsCapacity_no_throw v e v1 Hwf).
Qed.

Lemma PushBack_ref_room v k x :
  size_ v < capacity_ v → slot v k = Some x →
  PushBack_ref (Inside k) v = PushBack x v.
Proof.
  intros Hroom Hk. unfold PushBack_ref, PushBack. mrun.
  rewrite bool_decide_eq_false_2 by lia.
  rewrite IsSizeEqualsCapacity_room by lia. simpl.
  unfold slot in Hk. by rewrite Hk.
Qed.


Lemma load_insert l (n : nat) x k :
  load (<[n := x]> l) k =
  if decide (k = Z.of_nat n ∧ (n < length l)%nat) then Some x else load l k.
Proof.
  destruct (decide (n < length l)%nat) as [Hn|Hn].
  - rewrite (load_store l (Z.of_nat n) x (<[n := x]> l) k).
    + repeat case_decide; done || lia.
    + rewrite store_Some by lia. by rewrite Nat2Z.id.
  - rewrite list_insert_ge by lia. rewrite decide_False by lia. done.
Qed.

Lemma PushBack_move_ref_room v k x :
  wf v → size_ v < capacity_ v → slot v k = Some x →
  ∃ v', PushBack_move_ref (Inside k) v = Ok (Inside k) v' ∧ wf v' ∧
        size_ v' = size_ v + 1 ∧ capacity_ v' = capacity_ v ∧
        elements v' = <[Z.to_nat k := moved x]> (elements v ++ [x]).
Proof.
  intros Hwf Hroom Hk. pose proof Hwf as (Hlen & Hsize & Hcap).
  pose proof (load_Some_bound _ _ _ Hk) as Hkb.
  unfold PushBack_move_ref. mrun.
  rewrite bool_decide_eq_false_2 by lia.
  rewrite IsSizeEqualsCapacity_room by lia. simpl.
  destruct (move_within_spec (items_ v) (size_ v) k x Hk)
    as (q & -> & Hlenq & Hq); [lia|]. simpl.
  rewrite wrap_id by lia.
  eexists. split; [done|].
  assert (wf {| items_ := q; size_ := size_ v + 1; capacity_ := capacity_ v |})
    as Hwf' by (unfold wf; simpl; lia).
  split_and!; try done.
  pose proof (elements_length v Hwf) as Hel.
  apply elements_intro; [done | |].
  - rewrite length_insert, length_app, Nat2Z.inj_add. simpl. lia.
  - simpl. intros j Hj. unfold slot. simpl. rewrite Hq.
    rewrite load_insert, length_app, load_app, load_elements. simpl.
    rewrite Hel.
    destruct (decide (j = k)) as [->|Hjk].
    + rewrite decide_True by lia. done.
    + rewrite (decide_False (P := j = Z.of_nat (Z.to_nat k) ∧ _)) by lia.
      destruct (decide (j = size_ v)) as [->|Hjs].
      * rewrite decide_False by lia. by rewrite Z.sub_diag.
      * rewrite !decide_True by lia. done.
Qed.

Lemma shift_spec v pos :
  wf v → size_ v < capacity_ v → 0 ≤ pos ≤ size_ v →
  ∃ q, std_move_backward pos (size_ v) (size_ v + 1) (items_ v) = Some q ∧
       length q = length (items_ v) ∧
       ∀ k, load q k = shifted v pos k.
Proof.
  intros (Hlen & Hsize & Hcap) Hroom Hpos.
  unfold std_move_backward. rewrite decide_True by lia.
  destruct (move_backward_loop_spec (Z.to_nat (size_ v - pos))
              (size_ v) (items_ v)) as (q & -> & Hlenq & Hq); [lia | lia |].
  exists q. split_and!; try done. intros k. rewrite Hq.
  unfold shifted, slot. repeat case_decide; done || lia.
Qed.

Lemma Insert_ref_room v pos k y :
  wf v → size_ v < capacity_ v → 0 ≤ pos ≤ size_ v →
  shifted v pos k = Some y →
  Insert_ref pos (Inside k) v = Insert pos y v.
Proof.
  intros Hwf Hroom Hpos Hk.
  destruct (shift_spec v pos Hwf Hroom Hpos) as (q & E & _ & Hq).
  destruct Hwf as (Hlen & Hsize & Hcap).
  unfold Insert_ref, Insert. mrun.
  rewrite bool_decide_eq_false_2 by lia.
  rewrite IsSizeEqualsCapacity_room by lia. simpl.
  rewrite wrap_id by lia. rewrite E. simpl. by rewrite Hq, Hk.
Qed.

Lemma Insert_elements v pos x :
  wf v → can_grow v → 0 ≤ pos ≤ size_ v →
  ∃ v', Insert pos x v = Ok pos v' ∧ wf v' ∧
        elements v' = take (Z.to_nat pos) (elements v) ++
                      x :: drop (Z.to_nat pos) (elements v).
Proof.
  intros Hwf Hgrow Hpos. pose proof Hwf as (Hlen & Hsize & Hcap).
  assert (wrap pos = pos) as Hw by (apply wrap_id; lia).
  destruct (Insert_spec v pos x Hwf Hgrow)
    as (v' & E & Hwf' & Hs & Hc & Hslot); [lia|]. rewrite Hw in *.
  pose proof (elements_length v Hwf) as Hel.
  exists v'. split_and!; try done.
  apply elements_intro; [done | |].
  - rewrite length_app, length_take. simpl. rewrite length_drop. lia.
  - intros k Hk. rewrite Hslot, load_app, length_take.
    replace (Z.of_nat (Z.to_nat pos `min` length (elements v))) with pos by lia.
    destruct (decide (k < pos)).
    + rewrite decide_True by lia. rewrite load_take, decide_True by lia.
      by rewrite load_elements, decide_True by lia.
    + rewrite decide_False by lia. rewrite load_cons.
      destruct (decide (k = pos)) as [->|].
      * by rewrite decide_True by lia.
      * rewrite decide_True by lia. rewrite decide_False by lia.
        rewrite load_drop, decide_True by lia.
        rewrite load_elements, decide_True by lia. f_equal. lia.
Qed.

Lemma Insert_move_ref_room v pos k y :
  wf v → size_ v < capacity_ v → 0 ≤ pos ≤ size_ v →
  shifted v pos k = Some y →
  ∃ v', Insert_move_ref pos (Inside k) v = Ok (pos, Inside k) v' ∧ wf v' ∧
        elements v' =
        <[Z.to_nat k := moved y]>
          (take (Z.to_nat pos) (elements v) ++
           y :: drop (Z.to_nat pos) (elements v)).
Proof.
  intros Hwf Hroom Hpos Hk.
  destruct (shift_spec v pos Hwf Hroom Hpos) as (q & E & Hlenq & Hq).
  assert (can_grow v) as Hgrow by (unfold can_grow; lia).
  destruct (Insert_elements v pos y Hwf Hgrow Hpos) as (v0 & E0 & Hwf0 & He0).
  pose proof Hwf as (Hlen & Hsize & Hcap).
  revert E0. unfold Insert_move_ref, Insert. mrun.
  rewrite bool_decide_eq_false_2 by lia.
  rewrite IsSizeEqualsCapacity_room by lia. simpl.
  rewrite wrap_id by lia. rewrite E. simpl.
  rewrite store_Some by lia. simpl. rewrite wrap_id by lia. intros [= <-].
  rewrite <- Hq in Hk.
  destruct (move_within_spec q pos k y Hk) as (q' & -> & Hlenq' & Hq'); [lia|].
  simpl. eexists. split; [done|].
  assert (wf {| items_ := q'; size_ := size_ v + 1; capacity_ := capacity_ v |})
    as Hwf' by (unfold wf; simpl; lia).
  split; [done|]. rewrite <- He0.
  pose proof (elements_length _ Hwf0) as Hel0. simpl in Hel0.
  apply elements_intro; [done | |].
  - rewrite length_insert. simpl. lia.
  - simpl. intros j Hj. unfold slot. simpl. rewrite Hq'.
    rewrite load_insert, load_elements. simpl.
    unfold slot. simpl.
    rewrite (load_insert q).
    pose proof (load_Some_bound _ _ _ Hk) as Hkb.
    repeat case_decide; done || lia.
Qed.


(** A call of the [const Type&] overloads that is defined stores one value:
    whatever the argument refers to, it is a call with that value. *)
Lemma PushBack_ref_by_value item v r v' :
  wf v → PushBack_ref item v = Ok r v' → ∃ x, PushBack x v = Ok r v'.
Proof.
  intros Hwf E. destruct item as [x|k].
  - exists x. by rewrite <- PushBack_ref_Outside.
  - destruct (decide (size_ v = capacity_ v)) as [Hfull|Hroom].
    + destruct (PushBack_ref_full v k Hwf Hfull) as [E' _]. congruence.
    + destruct Hwf as (_ & ? & _).
      destruct (slot v k) as [x|] eqn:Hk.
      * exists x. rewrite <- (PushBack_ref_room v k x); [done | lia | done].
      * revert E. unfold PushBack_ref. mrun.
        rewrite bool_decide_eq_false_2 by done.
        rewrite IsSizeEqualsCapacity_room by done. simpl.
        unfold slot in Hk. by rewrite Hk.
Qed.

Lemma Insert_ref_by_value pos item v r v' :
  wf v → Insert_ref pos item v = Ok r v' → ∃ x, Insert pos x v = Ok r v'.
Proof.
  intros Hwf E. destruct item as [x|k].
  - exists x. by rewrite <- Insert_ref_Outside.
  - destruct (decide (size_ v = capacity_ v)) as [Hfull|Hroom].
    + destruct (Insert_ref_full v pos k Hwf Hfull) as [E' _]. congruence.
    + revert E. unfold Insert_ref, Insert. mrun.
      rewrite bool_decide_eq_false_2 by done.
      rewrite IsSizeEqualsCapacity_room by done. simpl.
      destruct (std_move_backward _ _ _ _) as [q|]; [simpl|done].
      destruct (load q k) as [x|]; [simpl|done].
      intros E. by exists x.
Qed.


Lemma move_within_length p d s q :
  move_within p d s = Some q → length q = length p.
Proof.
  unfold move_within. intros E.
  destruct (load p s) as [x|]; [simpl in E|done].
  destruct (store p d x) as [p'|] eqn:E1; [simpl in E|done].
  apply store_length in E, E1. congruence.
Qed.

(** The rvalue overloads, whatever the argument refers to: a call that is
    defined adds one element and follows the growth policy. *)
Lemma PushBack_move_ref_Ok item v r v' :
  wf v → PushBack_move_ref item v = Ok r v' →
  wf v' ∧ size_ v' = size_ v + 1 ∧ capacity_ v' = grown_capacity v.
Proof.
  intros Hwf E. destruct item as [x|k].
  - rewrite PushBack_move_ref_Outside in E.
    destruct (decide (can_grow v)) as [Hgrow|Hgrow].
    + destruct (PushBack_spec v x Hwf Hgrow) as (v1 & E1 & ? & ? & ? & _).
      rewrite E1 in E. by simplify_eq.
    + unfold PushBack in E.
      by rewrite (bind_UB _ _ _ (IsSizeEqualsCapacity_UB v Hwf Hgrow)) in E.
  - destruct (decide (size_ v = capacity_ v)) as [Hfull|Hroom].
    + destruct (PushBack_ref_full v k Hwf Hfull) as [_ E']. congruence.
    + destruct Hwf as (Hlen & Hsize & Hcap).
      revert E. unfold PushBack_move_ref, grown_capacity. mrun.
      rewrite bool_decide_eq_false_2 by done.
      rewrite IsSizeEqualsCapacity_room by done. simpl.
      destruct (move_within _ _ _) as [q|] eqn:Eq; [simpl|done].
      apply move_within_length in Eq. intros [= _ <-].
      rewrite decide_False by done. rewrite wrap_id by lia.
      unfold wf. simpl. lia.
Qed.

Lemma Insert_move_ref_Ok pos item v r v' :
  wf v → Insert_move_ref pos item v = Ok r v' →
  wf v' ∧ size_ v' = size_ v + 1 ∧ capacity_ v' = grown_capacity v.
Proof.
  intros Hwf E. destruct item as [x|k].
  - rewrite Insert_move_ref_Outside in E.
    destruct (Insert pos x v) as [it v1| |] eqn:E1; try done.
    simplify_eq.
    destruct (decide (can_grow v)) as [Hgrow|Hgrow].
    + destruct (decide (wrap pos ≤ size_ v)) as [Hpos|Hpos].
      * destruct (Insert_spec v pos x Hwf Hgrow Hpos)
          as (v1 & E2 & ? & ? & ? & _).
        rewrite E2 in E1. by simplify_eq.
      * destruct (Insert_Ok v pos x _ _ Hwf E1) as [_ Hs].
        destruct (IsSizeEqualsCapacity_spec v Hwf Hgrow)
          as (v1 & E2 & _ & Hs1 & _).
        unfold Insert in E1. rewrite (bind_Ok _ _ _ _ _ E2) in E1.
        revert E1. mrun. unfold std_move_backward.
        by rewrite decide_False by lia.
    + unfold Insert in E1.
      by rewrite (bind_UB _ _ _ (IsSizeEqualsCapacity_UB v Hwf Hgrow)) in E1.
  - destruct (decide (size_ v = capacity_ v)) as [Hfull|Hroom].
    + destruct (Insert_ref_full v pos k Hwf Hfull) as [_ E']. congruence.
    + pose proof Hwf as (Hlen & Hsize & Hcap).
      pose proof (wrap_range pos) as Hw.
      revert E. unfold Insert_move_ref, grown_capacity. mrun.
      rewrite bool_decide_eq_false_2 by done.
      rewrite IsSizeEqualsCapacity_room by done. simpl.
      unfold std_move_backward. case_decide as Hpos; [|done].
      destruct (move_backward_loop_spec (Z.to_nat (size_ v - wrap pos))
                  (size_ v) (items_ v)) as (q & -> & Hlenq & _);
        [lia | lia |]. simpl.
      destruct (move_within _ _ _) as [q'|] eqn:Eq; [simpl|done].
      apply move_within_length in Eq. intros [= _ <-].
      rewrite decide_False by done. rewrite wrap_id by lia.
      unfold wf. simpl. lia.
Qed.

(** X1.  [PushBack] (either overload) on a vector that can grow.  An
    argument outside the vector is appended: the elements afterwards are
    the old ones followed by the new one, which [At(old size)] then
    returns.  An argument that is a slot of the vector itself, as in
    [v.PushBack(v[k])], is appended likewise while there is room (the
    rvalue overload leaves the slot moved from); on a full buffer the
    argument is read from the block that the reallocation has deleted. *)
Theorem X1_PushBack_appends v :
  wf v → can_grow v →
  (∀ x, ∃ v', PushBack_ref (Outside x) v = Ok tt v' ∧
              PushBack_move_ref (Outside x) v = Ok (Outside (moved x)) v' ∧
              wf v' ∧ elements v' = elements v ++ [x] ∧
              At (size_ v) v' = Ok x v') ∧
  (∀ k x, size_ v < capacity_ v → slot v k = Some x →
     (∃ v', PushBack_ref (Inside k) v = Ok tt v' ∧ wf v' ∧
            elements v' = elements v ++ [x] ∧ At (size_ v) v' = Ok x v') ∧
     (k ≠ size_ v →
      ∃ v', PushBack_move_ref (Inside k) v = Ok (Inside k) v' ∧ wf v' ∧
            elements v' = <[Z.to_nat k := moved x]> (elements v ++ [x]))) ∧
  (∀ k, size_ v = capacity_ v →
     PushBack_ref (Inside k) v = UB ∧ PushBack_move_ref (Inside k) v = UB).
Proof.
  intros Hwf Hgrow.
  assert (∀ x, ∃ v', PushBack x v = Ok tt v' ∧ wf v' ∧
                     elements v' = elements v ++ [x] ∧
                     At (size_ v) v' = Ok x v') as Happ.
  { intros x. destruct (PushBack_elements v x Hwf Hgrow)
      as (v' & E & Hwf' & Hs & Hc & He & Hslot).
    exists v'. split_and!; try done.
    unfold At, mbind, M_bind, get. simpl.
    destruct Hwf as (_ & ? & _). rewrite decide_False by lia.
    fold (slot v' (size_ v)). by rewrite Hslot. }
  split_and!.
  - intros x. destruct (Happ x) as (v' & E & Hwf' & He & Hat).
    exists v'. rewrite PushBack_ref_Outside, PushBack_move_ref_Outside, E.
    done.
  - intros k x Hroom Hk. split.
    + destruct (Happ x) as (v' & E & Hwf' & He & Hat).
      exists v'. by rewrite (PushBack_ref_room v k x Hroom Hk), E.
    + intros _.
      destruct (PushBack_move_ref_room v k x Hwf Hroom Hk)
        as (v' & E & Hwf' & _ & _ & He).
      by exists v'.
  - intros k Hfull. by apply PushBack_ref_full.
Qed.

(** X2.  [Insert] (either overload) at a position in [[begin(), end()]]
    returns the position.  An argument outside the vector is put in front
    of the element that was there: the elements before the position, the
    value, the elements from the position on.  An argument that is a slot
    of the vector itself, as in [v.Insert(pos, v[k])], is read once the
    elements have been shifted, so that what is inserted is what the slot
    holds then ([shifted]): the element itself below [pos], its old
    neighbour [v[k - 1]] above [pos], the remnant of the moved element at
    [pos]; on a full buffer it is read from the block that the
    reallocation has deleted. *)
Theorem X2_Insert_splices v pos :
  wf v → can_grow v → 0 ≤ pos ≤ size_ v →
  (∀ x, ∃ v', Insert_ref pos (Outside x) v = Ok pos v' ∧
              Insert_move_ref pos (Outside x) v
              = Ok (pos, Outside (moved x)) v' ∧
              wf v' ∧
              elements v' = take (Z.to_nat pos) (elements v) ++
                            x :: drop (Z.to_nat pos) (elements v)) ∧
  (∀ k y, size_ v < capacity_ v → shifted v pos k = Some y →
     (∃ v', Insert_ref pos (Inside k) v = Ok pos v' ∧ wf v' ∧
            elements v' = take (Z.to_nat pos) (elements v) ++
                          y :: drop (Z.to_nat pos) (elements v)) ∧
     (k ≠ pos →
      ∃ v', Insert_move_ref pos (Inside k) v = Ok (pos, Inside k) v' ∧
            wf v' ∧
            elements v' =
            <[Z.to_nat k := moved y]>
              (take (Z.to_nat pos) (elements v) ++
               y :: drop (Z.to_nat pos) (elements v)))) ∧
  (∀ k, size_ v = capacity_ v →
     Insert_ref pos (Inside k) v = UB ∧
     Insert_move_ref pos (Inside k) v = UB).
Proof.
  intros Hwf Hgrow Hpos. split_and!.
  - intros x.
    destruct (Insert_elements v pos x Hwf Hgrow Hpos) as (v' & E & Hwf' & He).
    exists v'. rewrite Insert_ref_Outside, Insert_move_ref_Outside, E. done.
  - intros k y Hroom Hk. split.
    + destruct (Insert_elements v pos y Hwf Hgrow Hpos)
        as (v' & E & Hwf' & He).
      exists v'. by rewrite (Insert_ref_room v pos k y Hwf Hroom Hpos Hk), E.
    + intros _. by apply Insert_move_ref_room.
  - intros k Hfull. by apply Insert_ref_full.
Qed.

(** X3.  [Erase] at a position in [[begin(), end())] removes exactly the
    element there and closes the gap; the capacity stays. *)
Theorem X3_Erase_removes v pos :
  wf v → 0 ≤ pos < size_ v →
  ∃ v', Erase pos v = Ok pos v' ∧ wf v' ∧
        capacity_ v' = capacity_ v ∧
        elements v' = take (Z.to_nat pos) (elements v) ++
                      drop (Z.to_nat (pos + 1)) (elements v).
Proof.
  intros Hwf Hpos. pose proof Hwf as (Hlen & Hsize & Hcap).
  destruct (Erase_spec v pos Hwf) as (v' & E & Hwf' & Hs & Hc & Hslot);
    [lia|].
  pose proof (elements_length v Hwf) as Hel.
  exists v'. split_and!; try done.
  apply elements_intro; [done | |].
  - rewrite length_app, length_take, length_drop. lia.
  - intros k Hk. rewrite Hslot, load_app, length_take.
    replace (Z.of_nat (Z.to_nat pos `min` length (elements v))) with pos by lia.
    destruct (decide (k < pos)).
    + rewrite decide_False by lia. rewrite decide_False by lia.
      rewrite load_take, decide_True by lia.
      by rewrite load_elements, decide_True by lia.
    + rewrite decide_True by lia.
      rewrite load_drop, decide_True by lia.
      rewrite load_elements, decide_True by lia. f_equal. lia.
Qed.

(** X4.  [PopBack] never fails: it removes the last element, leaves an
    empty vector exactly as it was, keeps the capacity, and undoes a
    [PushBack] (size and elements; the capacity may have grown). *)
Theorem X4_PopBack_drops_last v :
  wf v →
  ∃ v', PopBack v = Ok tt v' ∧ wf v' ∧
        capacity_ v' = capacity_ v ∧
        elements v' = take (length (elements v) - 1) (elements v) ∧
        (size_ v = 0 → v' = v) ∧
        (∀ x, can_grow v →
           ∃ v1 v2, PushBack x v = Ok tt v1 ∧ PopBack v1 = Ok tt v2 ∧
                    size_ v2 = size_ v ∧ elements v2 = elements v).
Proof.
  intros Hwf. pose proof Hwf as (Hlen & Hsize & Hcap).
  pose proof (elements_length v Hwf) as Hel.
  eexists. split; [by apply PopBack_spec|].
  assert (wf {| items_ := items_ v; size_ := 0 `max` (size_ v - 1);
                capacity_ := capacity_ v |}) as Hwf'
    by (unfold wf; simpl; lia).
  split_and!; try done.
  - apply elements_intro; [done | |]; simpl.
    + rewrite length_take. lia.
    + intros k Hk. rewrite load_take, decide_True by lia.
      by rewrite load_elements, decide_True by lia.
  - intros Hz. destruct v as [p s c]. simpl in *. subst s. done.
  - intros x Hgrow.
    destruct (PushBack_spec v x Hwf Hgrow)
      as (v1 & E1 & Hwf1 & Hs1 & Hc1 & Hslot1).
    exists v1. eexists. split; [done|]. split; [by apply PopBack_spec|].
    simpl. split; [lia|]. apply elements_ext; [done | | simpl; lia |].
    + destruct Hwf1 as (? & ? & ?). unfold wf. simpl. lia.
    + intros k Hk. unfold slot. simpl. fold (slot v1 k). rewrite Hslot1.
      by rewrite decide_True by lia.
Qed.

Lemma move_loop_neg (n : nat) first d p :
  d < 0 → move_loop (S n) first d p = None.
Proof.
  intros Hd. destruct (move_loop (S n) first d p) eqn:E; [|done].
  apply move_loop_inv in E. lia.
Qed.

Lemma Erase_UB v pos :
  wf v → size_ v > 0 → pos < 0 ∨ size_ v ≤ pos → Erase pos v = UB.
Proof.
  intros (Hlen & Hsize & Hcap) Hpos Hbad.
  unfold Erase, mbind, M_bind, get, defined. simpl.
  rewrite decide_True by lia. unfold mbind, M_bind, std_move. simpl.
  case_decide as Hle; [|done].
  destruct (Z.to_nat (size_ v - (pos + 1))) as [|m] eqn:Em; [lia|].
  by rewrite move_loop_neg by lia.
Qed.

(** X5.  [Erase] on an empty vector changes nothing and returns its
    argument, whatever it is; on a vector with elements, a position before
    [begin()] or at or after [end()] is undefined behaviour. *)
Theorem X5_Erase_edges v pos :
  wf v →
  (size_ v = 0 → Erase pos v = Ok pos v) ∧
  (size_ v > 0 → pos < 0 ∨ size_ v ≤ pos → Erase pos v = UB).
Proof.
  intros Hwf. pose proof Hwf as (Hlen & Hsize & Hcap). split.
  - intros Hz. unfold Erase, mbind, M_bind, get, mret, M_ret. simpl.
    by rewrite decide_False by lia.
  - by apply Erase_UB.
Qed.

(** X6.  [Insert] at a position after [end()], or before [begin()], is
    undefined behaviour. *)
Theorem X6_Insert_outside_range v pos x :
  wf v →
  (size_ v < pos ≤ SIZE_MAX → Insert pos x v = UB) ∧
  (- 2 ^ 63 ≤ pos < 0 → size_ v < 2 ^ 63 → Insert pos x v = UB).
Proof.
  intros Hwf. pose proof Hwf as (Hlen & Hsize & Hcap).
  assert (size_ v < wrap pos → Insert pos x v = UB) as Hub.
  { intros Hlt.
    destruct (decide (size_ v = capacity_ v → 2 * capacity_ v ≤ SIZE_MAX))
      as [Hgrow|Hgrow].
    - destruct (IsSizeEqualsCapacity_spec v Hwf Hgrow)
        as (v1 & E1 & _ & Hs1 & _).
      unfold Insert. rewrite (bind_Ok _ _ _ _ _ E1).
      unfold mbind, M_bind, get, defined, std_move_backward. simpl.
      by rewrite decide_False by lia.
    - unfold Insert.
      by rewrite (bind_UB _ _ _ (IsSizeEqualsCapacity_UB v Hwf Hgrow)). }
  split.
  - intros Hpos. apply Hub. rewrite wrap_id; lia.
  - intros Hpos Hs. apply Hub. unfold wrap.
    replace pos with (pos + 2 ^ 64 + (-1) * 2 ^ 64) by lia.
    rewrite Z.mod_add by lia. rewrite Z.mod_small; lia.
Qed.

(** X7.  [Insert(end(), x)] leaves the vector exactly as [PushBack(x)]
    does, and on a vector with elements [Erase(end() - 1)] leaves it exactly
    as [PopBack()] does. *)
Theorem X7_ends_coincide v :
  wf v →
  (∀ x, can_grow v →
     ∃ v', PushBack x v = Ok tt v' ∧
           Insert (end_ v) x v = Ok (end_ v) v') ∧
  (size_ v > 0 →
     ∃ v', PopBack v = Ok tt v' ∧
           Erase (end_ v - 1) v = Ok (end_ v - 1) v').
Proof.
  intros Hwf. pose proof Hwf as (Hlen & Hsize & Hcap). unfold end_. split.
  - intros x Hgrow.
    destruct (PushBack_spec v x Hwf Hgrow) as (v' & E & _).
    exists v'. split; [done|].
    destruct (IsSizeEqualsCapacity_spec v Hwf Hgrow)
      as (v1 & E1 & _ & Hs1 & _).
    revert E. unfold Insert, PushBack. rewrite !(bind_Ok _ _ _ _ _ E1).
    rewrite wrap_id by lia.
    unfold mbind, M_bind, get, defined, std_move_backward. simpl.
    rewrite decide_True by lia. rewrite Hs1.
    replace (Z.to_nat (size_ v - (0 + size_ v))) with 0%nat by lia. simpl.
    replace (0 + size_ v) with (size_ v) by lia.
    destruct (store (items_ v1) (size_ v) x); [simpl|done].
    by intros [= <-].
  - intros Hpos. eexists. split; [by apply PopBack_spec|].
    unfold Erase, mbind, M_bind, get, defined, std_move. simpl.
    rewrite decide_True by lia. unfold mbind, M_bind. simpl.
    rewrite decide_True by lia.
    replace (Z.to_nat (size_ v - (0 + size_ v - 1 + 1))) with 0%nat by lia.
    simpl. rewrite wrap_id by lia. do 2 f_equal. lia.
Qed.

End ContentFacts.

Section MoreFacts.
Context {T : Type} `{Element T}.
Implicit Types (v : SimpleVector T) (w : list (SimpleVector T)).
Implicit Types (p q l : list T) (i j k n : Z) (x y : T).

Lemma push_all_appends (xs : list T) : ∀ v,
  wf v → size_ v + Z.of_nat (length xs) ≤ Z.max (2 ^ 62) (capacity_ v) →
  ∃ u, push_all xs v = Ok tt u ∧ wf u ∧
       size_ u = size_ v + Z.of_nat (length xs) ∧
       elements u = elements v ++ xs ∧
       capacity_ v ≤ capacity_ u ∧
       (size_ v + Z.of_nat (length xs) ≤ capacity_ v →
        capacity_ u = capacity_ v).
Proof.
  induction xs as [|x xs IH]; intros v Hwf Hk; simpl in *.
  - exists v. split_and!; try done; try lia. by rewrite app_nil_r.
  - pose proof Hwf as (Hlen & Hsize & Hcap).
    destruct (PushBack_elements v x Hwf)
      as (v1 & E1 & Hwf1 & Hs1 & Hc1 & He1 & _).
    { intros Hfull. unfold SIZE_MAX. lia. }
    rewrite (bind_Ok _ _ _ _ _ E1).
    unfold grown_capacity in Hc1.
    destruct (IH v1 Hwf1) as (u & -> & Hwfu & Hsu & Heu & Hcu & Hroom);
      [case_decide; lia|].
    exists u. split_and!; try done.
    + lia.
    + by rewrite Heu, He1, <- app_assoc.
    + case_decide; lia.
    + intros Hfit. rewrite decide_False in Hc1 by lia. rewrite Hroom; lia.
Qed.

(** X8.  [Reserve(n)] keeps the size and the elements; it sets the
    capacity to exactly [n] when [n] exceeds it (no doubling) and otherwise
    leaves the vector exactly as it was. *)
Theorem X8_Reserve_exact v n :
  wf v → 0 ≤ n ≤ SIZE_MAX →
  ∃ v', Reserve n v = Ok tt v' ∧ wf v' ∧
        size_ v' = size_ v ∧ elements v' = elements v ∧
        (capacity_ v < n → capacity_ v' = n) ∧
        (n ≤ capacity_ v → v' = v).
Proof.
  intros Hwf Hn. pose proof Hwf as (Hlen & Hsize & Hcap).
  destruct (decide (capacity_ v < n)) as [Hbig|Hsmall].
  - destruct (Reserve_spec v n Hwf Hn) as (v' & E & Hwf' & Hs & Hc & Hslot).
    exists v'. split_and!; try done; try lia.
    apply elements_ext; [done | done | done |]. intros k Hk.
    rewrite Hslot. rewrite decide_True by lia. by rewrite decide_True by lia.
  - exists v. split_and!; try done; try lia.
    unfold Reserve, mbind, M_bind, get. simpl. by rewrite decide_False by lia.
Qed.

(** X9.  After [Reserve(n)], or construction from [Reserve(n)], pushing
    elements up to a total of [n] never reallocates: the capacity stays and
    the elements are appended in order. *)
Theorem X9_no_reallocation_within_capacity v n (xs : list T) :
  wf v → 0 ≤ n ≤ 2 ^ 62 → size_ v + Z.of_nat (length xs) ≤ n →
  (∃ v1 u, Reserve n v = Ok tt v1 ∧ push_all xs v1 = Ok tt u ∧
           capacity_ u = capacity_ v1 ∧ elements u = elements v ++ xs) ∧
  (∃ v0 u,
     SimpleVector_reserve
       (ReserveProxy.GetCapacityToReserve (ReserveProxy.Reserve n))
     = Some v0 ∧
     push_all xs v0 = Ok tt u ∧
     capacity_ v0 = n ∧ capacity_ u = n ∧ elements u = xs).
Proof.
  intros Hwf Hn Hfit. pose proof Hwf as (Hlen & Hsize & Hcap). split.
  - destruct (Reserve_spec v n Hwf) as (v1 & E1 & Hwf1 & Hs1 & Hc1 & Hslot1);
      [unfold SIZE_MAX; lia|].
    destruct (push_all_appends xs v1 Hwf1)
      as (u & Eu & Hwfu & Hsu & Heu & _ & Hroom); [lia|].
    exists v1, u. split_and!; try done.
    + apply Hroom. lia.
    + rewrite Heu. f_equal.
      apply elements_ext; [done | done | done |]. intros k Hk.
      rewrite Hslot1. case_decide; [|done]. by rewrite decide_True by lia.
  - change (ReserveProxy.GetCapacityToReserve (ReserveProxy.Reserve n))
      with n.
    destruct (SimpleVector_reserve_spec n) as (q & E0 & Hlen0 & _); [lia|].
    assert (wf {| items_ := q; size_ := 0; capacity_ := n |}) as Hwf0
      by (unfold wf, SIZE_MAX; simpl; lia).
    destruct (push_all_appends xs _ Hwf0)
      as (u & Eu & Hwfu & Hsu & Heu & _ & Hroom); [simpl; lia|].
    eexists _, u. split_and!; try done.
    apply Hroom. simpl. lia.
Qed.


(** X10.  The constructors: [SimpleVector(n)] holds [n] default values,
    [SimpleVector(n, x)] holds [n] copies of [x], the initializer-list
    constructor holds the list, each with capacity equal to the size; the
    constructor from [Reserve(n)] is empty with capacity [n]. *)
Theorem X10_constructors n x (init : list T) :
  0 ≤ n ≤ SIZE_MAX → Z.of_nat (length init) ≤ SIZE_MAX →
  (∃ v, SimpleVector_size n = Some v ∧ wf v ∧
        size_ v = n ∧ capacity_ v = n ∧
        elements v = replicate (Z.to_nat n) dflt) ∧
  (∃ v, SimpleVector_fill n x = Some v ∧ wf v ∧
        size_ v = n ∧ capacity_ v = n ∧
        elements v = replicate (Z.to_nat n) x) ∧
  (∃ v, SimpleVector_init init = Some v ∧ wf v ∧
        size_ v = Z.of_nat (length init) ∧
        capacity_ v = Z.of_nat (length init) ∧ elements v = init) ∧
  (∃ v, SimpleVector_reserve
          (ReserveProxy.GetCapacityToReserve (ReserveProxy.Reserve n))
        = Some v ∧ wf v ∧
        size_ v = 0 ∧ capacity_ v = n ∧ elements v = [] ∧
        IsEmpty v = true).
Proof.
  intros Hn Hinit. split_and!.
  - rewrite SimpleVector_size_eq. eexists. split; [done|].
    split_and!; try done.
    + unfold wf. simpl. rewrite length_replicate. lia.
    + unfold elements. simpl. apply take_ge. by rewrite length_replicate.
  - rewrite SimpleVector_fill_eq. eexists. split; [done|].
    split_and!; try done.
    + unfold wf. simpl. rewrite length_replicate. lia.
    + unfold elements. simpl. apply take_ge. by rewrite length_replicate.
  - rewrite SimpleVector_init_eq. eexists. split; [done|].
    split_and!; try done.
    + unfold wf. simpl. lia.
    + unfold elements. simpl. apply take_ge. lia.
  - change (ReserveProxy.GetCapacityToReserve (ReserveProxy.Reserve n))
      with n.
    destruct (SimpleVector_reserve_spec n) as (q & -> & Hlen & _); [lia|].
    eexists. split; [done|]. split_and!; try done.
    unfold wf. simpl. lia.
Qed.

(** X11.  [swap] exchanges the two vectors (block, size and capacity),
    touches no other object, and applied again restores the store; a vector
    swapped with itself is unchanged. *)
Theorem X11_swap_exchanges w (i j : nat) a b :
  w !! i = Some a → w !! j = Some b →
  ∃ w', swap_objects i j w = Ok tt w' ∧
        w' !! i = Some b ∧ w' !! j = Some a ∧
        (∀ k : nat, k ≠ i → k ≠ j → w' !! k = w !! k) ∧
        swap_objects i j w' = Ok tt w.
Proof.
  intros Ha Hb.
  pose proof (lookup_lt_Some _ _ _ Ha) as Hi.
  pose proof (lookup_lt_Some _ _ _ Hb) as Hj.
  assert (∀ u : SimpleVector T,
            {| items_ := items_ u; size_ := size_ u;
               capacity_ := capacity_ u |} = u) as Heta
    by (by intros []).
  assert (∀ w0 a0 b0, w0 !! i = Some a0 → w0 !! j = Some b0 →
            swap_objects i j w0 = Ok tt (<[j := a0]> (<[i := b0]> w0)))
    as Hswap.
  { intros w0 a0 b0 Ha0 Hb0. unfold swap_objects.
    rewrite (bind_Ok _ _ _ _ _ (object_Ok i w0 a0 Ha0)).
    rewrite (bind_Ok _ _ _ _ _ (object_Ok j w0 b0 Hb0)).
    erewrite bind_Ok by (by eapply call_Ok).
    assert (∃ c, <[i := (swap a0 b0).1]> w0 !! j = Some c) as [c Hc].
    { apply lookup_lt_is_Some. rewrite length_insert.
      by apply lookup_lt_Some in Hb0. }
    erewrite call_Ok by done. simpl. by rewrite !Heta. }
  exists (<[j := a]> (<[i := b]> w)).
  assert (<[j := a]> (<[i := b]> w) !! j = Some a) as Hj'
    by (apply list_lookup_insert_eq; by rewrite length_insert).
  assert (<[j := a]> (<[i := b]> w) !! i = Some b) as Hi'.
  { destruct (decide (i = j)) as [->|Hne].
    - rewrite Hj'. congruence.
    - rewrite list_lookup_insert_ne by done. by apply list_lookup_insert_eq. }
  split_and!; try done.
  - by apply Hswap.
  - intros k Hki Hkj. by rewrite !list_lookup_insert_ne by done.
  - rewrite (Hswap _ b a Hi' Hj'). f_equal.
    apply list_eq. intros k.
    destruct (decide (k = j)) as [->|Hkj].
    + rewrite list_lookup_insert_eq by (by rewrite !length_insert). done.
    + rewrite list_lookup_insert_ne by done.
      destruct (decide (k = i)) as [->|Hki].
      * rewrite list_lookup_insert_eq by (by rewrite !length_insert). done.
      * by rewrite !list_lookup_insert_ne by done.
Qed.

(** X12.  [operator[]] is unchecked: below [size] it agrees with [At];
    from [size] up to [capacity] it returns the content of an unused slot
    where [At] throws; from [capacity] on it is undefined behaviour. *)
Theorem X12_subscript_unchecked v i :
  wf v → 0 ≤ i →
  (i < size_ v → subscript i v = At i v) ∧
  (size_ v ≤ i < capacity_ v →
     (∃ x, slot v i = Some x ∧ subscript i v = Ok x v) ∧
     At i v = Throw out_of_range v) ∧
  (capacity_ v ≤ i → subscript i v = UB).
Proof.
  intros (Hlen & Hsize & Hcap) Hi.
  unfold subscript, At, mbind, M_bind, get, throw, defined, slot. simpl.
  split_and!.
  - intros Hlt. by rewrite decide_False by lia.
  - intros Hmid. split.
    + destruct (load_is_Some (items_ v) i) as [x Hx]; [lia|].
      exists x. by rewrite Hx.
    + by rewrite decide_True by lia.
  - intros Hbig. by rewrite load_ge by lia.
Qed.

(** X13.  No member function gives storage back: [PushBack], [Insert],
    [Reserve] and [Resize] never lower the capacity, and [PopBack], [Erase]
    and [Clear] leave it as it is. *)
Theorem X13_capacity_never_shrinks v :
  wf v →
  (∀ x r v', PushBack x v = Ok r v' → capacity_ v ≤ capacity_ v') ∧
  (∀ pos x r v', Insert pos x v = Ok r v' → capacity_ v ≤ capacity_ v') ∧
  (∀ n r v', 0 ≤ n ≤ SIZE_MAX → Reserve n v = Ok r v' →
             capacity_ v ≤ capacity_ v') ∧
  (∀ n r v', 0 ≤ n ≤ SIZE_MAX → Resize n v = Ok r v' →
             capacity_ v ≤ capacity_ v') ∧
  (∀ r v', PopBack v = Ok r v' → capacity_ v' = capacity_ v) ∧
  (∀ pos r v', Erase pos v = Ok r v' → capacity_ v' = capacity_ v) ∧
  (∀ r v', Clear v = Ok r v' → capacity_ v' = capacity_ v).
Proof.
  intros Hwf. pose proof Hwf as (Hlen & Hsize & Hcap). split_and!.
  - intros x r v' E.
    destruct (PushBack_spec v x Hwf (PushBack_can_grow _ _ _ _ Hwf E))
      as (v1 & E1 & _ & _ & Hc & _).
    rewrite E1 in E. simplify_eq. rewrite Hc. unfold grown_capacity.
    case_decide; lia.
  - intros pos x r v' E.
    destruct (Insert_can_grow _ _ _ _ _ Hwf E) as [Hgrow Hpos].
    destruct (Insert_spec v pos x Hwf Hgrow Hpos) as (v1 & E1 & _ & _ & Hc & _).
    rewrite E1 in E. simplify_eq. rewrite Hc. unfold grown_capacity.
    case_decide; lia.
  - intros n r v' Hn E.
    destruct (Reserve_spec v n Hwf Hn) as (v1 & E1 & _ & _ & Hc & _).
    rewrite E1 in E. simplify_eq. lia.
  - intros n r v' Hn E.
    destruct (Resize_spec v n Hwf Hn) as (v1 & E1 & _ & _ & Hc & _).
    rewrite E1 in E. simplify_eq. rewrite Hc. case_decide; lia.
  - intros r v' E. rewrite PopBack_spec in E by done. by simplify_eq.
  - intros pos r v' E.
    destruct (decide (size_ v = 0 ∨ 0 ≤ pos < size_ v)) as [Hpos|Hpos].
    + destruct (Erase_spec v pos Hwf Hpos) as (v1 & E1 & _ & _ & Hc & _).
      rewrite E1 in E. by simplify_eq.
    + rewrite Erase_UB in E by (done || lia). done.
  - intros r v' E. rewrite Clear_spec in E. by simplify_eq.
Qed.

(** X14.  [Clear] empties the vector and keeps its block and capacity;
    it is [Resize(0)], and doing it twice is doing it once.  Up to
    [capacity] elements pushed afterwards reuse the storage. *)
Theorem X14_Clear_keeps_storage v (xs : list T) :
  wf v → Z.of_nat (length xs) ≤ capacity_ v →
  ∃ v1 u, Clear v = Ok tt v1 ∧ Resize 0 v = Ok tt v1 ∧
          IsEmpty v1 = true ∧ elements v1 = [] ∧
          items_ v1 = items_ v ∧ capacity_ v1 = capacity_ v ∧
          Clear v1 = Ok tt v1 ∧
          push_all xs v1 = Ok tt u ∧
          capacity_ u = capacity_ v ∧ elements u = xs.
Proof.
  intros Hwf Hfit. pose proof Hwf as (Hlen & Hsize & Hcap).
  assert (wf {| items_ := items_ v; size_ := 0; capacity_ := capacity_ v |})
    as Hwf1 by (unfold wf; simpl; lia).
  destruct (push_all_appends xs _ Hwf1)
    as (u & Eu & _ & _ & Heu & _ & Hroom); [simpl; lia|].
  eexists _, u. split; [by apply Clear_spec|]. split_and!; try done.
  - unfold Resize, mbind, M_bind, get, mret, M_ret, set_size. simpl.
    rewrite decide_False by lia. by rewrite decide_False by lia.
  - apply Hroom. simpl. lia.
Qed.

(** X15.  The elements after [Resize(n)]: the first [n] of the old ones,
    followed by default values up to [n] (after a reallocation, for an
    element type whose default stays default when moved from).
    [Resize(size)] changes nothing. *)
Theorem X15_Resize_contents v n :
  wf v → 0 ≤ n ≤ SIZE_MAX → (capacity_ v < n → moved dflt = dflt) →
  ∃ v', Resize n v = Ok tt v' ∧ wf v' ∧
        elements v' = take (Z.to_nat n) (elements v) ++
                      replicate (Z.to_nat (n - size_ v)) dflt ∧
        (n = size_ v → v' = v).
Proof.
  intros Hwf Hn Hmoved. pose proof Hwf as (Hlen & Hsize & Hcap).
  destruct (Resize_spec v n Hwf Hn) as (v' & E & Hwf' & Hs & Hc & Hslot).
  pose proof (elements_length v Hwf) as Hel.
  exists v'. split_and!; try done.
  - apply elements_intro; [done | |].
    + rewrite length_app, length_take, length_replicate. lia.
    + intros k Hk. rewrite load_app, length_take.
      replace (Z.of_nat (Z.to_nat n `min` length (elements v)))
        with (Z.min n (size_ v)) by lia.
      rewrite load_take, load_elements, load_replicate, Hslot.
      destruct (decide (n > capacity_ v)) as [Hbig|Hsmall].
      * rewrite (decide_True (P := 0 ≤ k < capacity_ v')) by lia.
        rewrite remnant_dflt by (apply Hmoved; lia).
        repeat case_decide; done || lia.
      * repeat case_decide; done || lia.
  - intros ->. revert E.
    unfold Resize, mbind, M_bind, get, mret, M_ret, set_size. simpl.
    rewrite decide_False by lia. rewrite decide_False by lia.
    destruct v. simpl. by intros [= <-].
Qed.

(** X16.  In every vector reached by a program that runs to its end,
    the block has exactly [capacity] slots, [capacity] is a [size_t], and
    there is no block exactly when the capacity is 0. *)
Theorem X16_block_matches_capacity (ops : list op) r w :
  run ops [] = Ok r w →
  Forall (λ v, Z.of_nat (length (items_ v)) = capacity_ v ∧
               0 ≤ capacity_ v ≤ SIZE_MAX ∧
               (items_ v = [] ↔ capacity_ v = 0)) w.
Proof.
  intros E.
  assert (tracked (T := T) [] []) as Ht0 by (split; [constructor | done]).
  destruct (run_tracked _ _ _ _ _ Ht0 E) as [Hwf _].
  eapply Forall_impl; [exact Hwf|]. intros v (Hlen & Hsize & Hcap).
  split_and!; try lia. split.
  - intros Hnil. rewrite Hnil in Hlen. simpl in Hlen. lia.
  - intros Hz. apply nil_length_inv. lia.
Qed.

End MoreFacts.

(** ** Laws of the comparison operators *)

Section OrderFacts.
Context {T : Type} `{Comparable T}.
Implicit Types (l : list T) (a b c : SimpleVector T).

Lemma lex_irrefl l :
  (∀ x, ltb x x = false) → std_lexicographical_compare l l = false.
Proof.
  intros Hirr. induction l as [|x l IH]; simpl; [done|]. by rewrite Hirr.
Qed.

Lemma lex_trans l1 :
  (∀ x, ltb x x = false) →
  (∀ x y z, ltb x y = true → ltb y z = true → ltb x z = true) →
  (∀ x y z, ltb x y = false → ltb y x = false →
            ltb y z = false → ltb z y = false →
            ltb x z = false ∧ ltb z x = false) →
  ∀ l2 l3,
    std_lexicographical_compare l1 l2 = true →
    std_lexicographical_compare l2 l3 = true →
    std_lexicographical_compare l1 l3 = true.
Proof.
  intros Hirr Htrans Hinc.
  induction l1 as [|x l1 IH]; intros [|y l2] [|z l3]; simpl; try done.
  destruct (ltb x y) eqn:Exy.
  - intros _. destruct (ltb y z) eqn:Eyz.
    + intros _. by rewrite (Htrans x y z).
    + destruct (ltb z y) eqn:Ezy; [done|]. intros _.
      destruct (ltb x z) eqn:Exz; [done|]. exfalso.
      destruct (ltb z x) eqn:Ezx.
      * rewrite (Htrans z x y) in Ezy; done.
      * destruct (Hinc x z y); congruence.
  - destruct (ltb y x) eqn:Eyx; [done|]. intros H12.
    destruct (ltb y z) eqn:Eyz.
    + intros _. destruct (ltb x z) eqn:Exz; [done|]. exfalso.
      destruct (ltb z x) eqn:Ezx.
      * rewrite (Htrans y z x) in Eyx; done.
      * destruct (Hinc y x z); congruence.
    + destruct (ltb z y) eqn:Ezy; [done|]. intros H23.
      destruct (Hinc x y z) as [-> ->]; try done. by apply (IH l2 l3).
Qed.

Lemma lex_asym l1 l2 :
  (∀ x, ltb x x = false) →
  (∀ x y z, ltb x y = true → ltb y z = true → ltb x z = true) →
  std_lexicographical_compare l1 l2 = true →
  std_lexicographical_compare l2 l1 = false.
Proof.
  intros Hirr Htrans. revert l2.
  induction l1 as [|x l1 IH]; intros [|y l2]; simpl; try done.
  destruct (ltb x y) eqn:Exy.
  - intros _. destruct (ltb y x) eqn:Eyx; [|done].
    pose proof (Htrans x y x Exy Eyx) as Hxx. by rewrite Hirr in Hxx.
  - destruct (ltb y x) eqn:Eyx; [done|]. apply IH.
Qed.

Lemma equal_loop_sym l1 :
  (∀ x y, eqb x y = eqb y x) → ∀ l2, equal_loop l1 l2 = equal_loop l2 l1.
Proof.
  intros Hsym. induction l1 as [|x l1 IH]; intros [|y l2]; simpl; try done.
  rewrite (Hsym x y). by rewrite IH.
Qed.

Lemma std_equal_sym l1 l2 :
  (∀ x y, eqb x y = eqb y x) → std_equal l1 l2 = std_equal l2 l1.
Proof.
  intros Hsym. unfold std_equal. rewrite (equal_loop_sym l1 Hsym l2).
  repeat case_decide; done || congruence.
Qed.

Lemma std_equal_trans l1 :
  (∀ x y z, eqb x y = true → eqb y z = true → eqb x z = true) →
  ∀ l2 l3, std_equal l1 l2 = true → std_equal l2 l3 = true →
           std_equal l1 l3 = true.
Proof.
  intros Htrans l2 l3. rewrite !std_equal_spec. intros [Hl12 H12] [Hl23 H23].
  split; [congruence|]. clear Hl12 Hl23. revert l3 H23.
  induction H12 as [|x y l1 l2 Hxy _ IH]; intros l3 H23.
  - by inversion H23.
  - inversion H23 as [|y' z l2' l3' Hyz H23']; subst. constructor.
    + by eapply Htrans.
    + by apply IH.
Qed.

(** X17.  When [<] on the elements is a strict weak order, so is
    [operator<] on vectors: it is irreflexive, asymmetric and transitive,
    and [<=], [>], [>=] agree with it. *)
Theorem X17_operator_lt_strict_order a b c :
  wf a → wf b → wf c →
  (∀ x : T, ltb x x = false) →
  (∀ x y z : T, ltb x y = true → ltb y z = true → ltb x z = true) →
  (∀ x y z : T, ltb x y = false → ltb y x = false →
                ltb y z = false → ltb z y = false →
                ltb x z = false ∧ ltb z x = false) →
  operator_lt a a = Some false ∧
  operator_le a a = Some true ∧ operator_ge a a = Some true ∧
  (operator_lt a b = Some true →
     operator_lt b a = Some false ∧ operator_gt b a = Some true ∧
     operator_le a b = Some true ∧ operator_ge a b = Some false) ∧
  (operator_lt a b = Some true → operator_lt b c = Some true →
     operator_lt a c = Some true).
Proof.
  intros Ha Hb Hc Hirr Htrans Hinc.
  unfold operator_le, operator_ge, operator_gt, operator_lt.
  rewrite !(range_elements a Ha), !(range_elements b Hb),
    !(range_elements c Hc). simpl.
  rewrite (lex_irrefl _ Hirr). split_and!; try done.
  - intros [= Hab]. rewrite Hab, (lex_asym _ _ Hirr Htrans Hab). done.
  - intros [= Hab] [= Hbc]. by rewrite (lex_trans _ Hirr Htrans Hinc _ _ Hab Hbc).
Qed.

(** X18.  When [==] on the elements is an equivalence, so is
    [operator==] on vectors; two vectors with the same elements are equal
    whatever their capacities. *)
Theorem X18_operator_eq_equivalence a b c :
  wf a → wf b → wf c →
  (∀ x : T, eqb x x = true) →
  (∀ x y : T, eqb x y = eqb y x) →
  (∀ x y z : T, eqb x y = true → eqb y z = true → eqb x z = true) →
  (elements a = elements b →
     operator_eq a b = Some true ∧ operator_ne a b = Some false) ∧
  operator_eq a b = operator_eq b a ∧
  (operator_eq a b = Some true → operator_eq b c = Some true →
     operator_eq a c = Some true).
Proof.
  intros Ha Hb Hc Hrefl Hsym Htrans.
  unfold operator_ne, operator_eq.
  rewrite !(range_elements a Ha), !(range_elements b Hb),
    !(range_elements c Hc). simpl. split_and!.
  - intros ->. by rewrite (std_equal_refl _ Hrefl).
  - by rewrite (std_equal_sym _ _ Hsym).
  - intros [= Hab] [= Hbc]. by rewrite (std_equal_trans _ Htrans _ _ Hab Hbc).
Qed.

End OrderFacts.

(** ** [ArrayPtr] as an owner *)

Section OwnershipFacts.
Context {T : Type} `{Element T}.
Import Ownership.
Implicit Types (s : memory (T := T)) (this other : nat).

Ltac orun :=
  repeat (unfold ArrayPtr_move, move_assign, destroy, Release, to_bool, Get,
            ArrayPtr_raw, new_ptr, read_ptr, assign_ptr, delete_array,
            delete_single, new_array, mbind, M_bind, mret, M_ret, get,
            defined; simpl).

(** X19.  [ArrayPtr(size)] allocates nothing and is null for [size = 0];
    otherwise it owns one new block of [size] default values, converts to
    [true], and indexing at [size] or beyond is undefined behaviour. *)
Theorem X19_sized_buffer s size :
  0 ≤ size ≤ SIZE_MAX →
  ∃ s', Ownership.ArrayPtr_size size s = Ok (length (objects s)) s' ∧
        to_bool (length (objects s)) s' = Ok (bool_decide (size ≠ 0)) s' ∧
        (size = 0 → blocks s' = blocks s) ∧
        (size ≠ 0 →
           Get (length (objects s)) s' = Ok (Some (length (blocks s))) s' ∧
           blocks s' = blocks s ++ [Some (replicate (Z.to_nat size) dflt)]) ∧
        (∀ i, 0 ≤ i < size →
           Ownership.subscript (length (objects s)) i s' = Ok dflt s') ∧
        (∀ i, size ≤ i →
           Ownership.subscript (length (objects s)) i s' = UB).
Proof.
  intros Hsize. unfold Ownership.ArrayPtr_size. case_decide as Hz.
  - rewrite ArrayPtr_size_eq. orun. eexists. split; [done|].
    unfold Ownership.subscript. orun.
    rewrite lookup_app_r by lia. rewrite Nat.sub_diag. simpl.
    rewrite bool_decide_true by done. split_and!; try done.
    + intros i Hi. rewrite lookup_app_r by lia. rewrite Nat.sub_diag. simpl.
      by rewrite load_replicate, decide_True by lia.
    + intros i Hi. rewrite lookup_app_r by lia. rewrite Nat.sub_diag. simpl.
      by rewrite load_replicate, decide_False by lia.
  - orun. eexists. split; [done|].
    unfold Ownership.subscript. orun.
    rewrite lookup_app_r by lia. rewrite Nat.sub_diag. simpl.
    split_and!; try done.
    + rewrite bool_decide_false; [done | lia].
    + intros i Hi. lia.
Qed.

Lemma read_ptr_Ok s this o :
  objects s !! this = Some o → read_ptr this s = Ok (raw_ptr_ o) s.
Proof. unfold read_ptr. by intros ->. Qed.

Lemma assign_ptr_Ok s this o p :
  objects s !! this = Some o →
  assign_ptr this p s
  = Ok tt {| blocks := blocks s;
             objects := <[this := {| raw_ptr_ := p |}]> (objects s) |}.
Proof. unfold assign_ptr. by intros ->. Qed.

Lemma destroy_null s this :
  objects s !! this = Some {| raw_ptr_ := None |} → destroy this s = Ok tt s.
Proof.
  intros Hthis. unfold destroy.
  by rewrite (bind_Ok _ _ _ _ _ (read_ptr_Ok s this _ Hthis)).
Qed.

Lemma destroy_live s this a block :
  objects s !! this = Some {| raw_ptr_ := Some a |} →
  blocks s !! a = Some (Some block) →
  destroy this s
  = Ok tt {| blocks := <[a := None]> (blocks s); objects := objects s |}.
Proof.
  intros Hthis Ha. unfold destroy.
  rewrite (bind_Ok _ _ _ _ _ (read_ptr_Ok s this _ Hthis)).
  unfold delete_array. simpl. by rewrite Ha.
Qed.

(** X20.  The move constructor of [ArrayPtr] hands the block over: the
    source is left null, the heap is untouched, and destroying both
    objects deletes the block exactly once. *)
Theorem X20_move_transfers_ownership s this a block :
  objects s !! this = Some {| raw_ptr_ := Some a |} →
  blocks s !! a = Some (Some block) →
  ∃ s1 s2,
    ArrayPtr_move this s = Ok (length (objects s)) s1 ∧
    blocks s1 = blocks s ∧
    Get this s1 = Ok None s1 ∧ to_bool this s1 = Ok false s1 ∧
    Get (length (objects s)) s1 = Ok (Some a) s1 ∧
    destroy this s1 = Ok tt s1 ∧
    destroy (length (objects s)) s1 = Ok tt s2 ∧
    blocks s2 = <[a := None]> (blocks s) ∧
    destroy this s2 = Ok tt s2.
Proof.
  intros Hthis Ha. pose proof (lookup_lt_Some _ _ _ Hthis) as Hlt.
  set (s1 := {| blocks := blocks s;
                objects := <[this := {| raw_ptr_ := None |}]>
                             (objects s ++ [{| raw_ptr_ := Some a |}]) |}).
  assert (objects s1 !! this = Some {| raw_ptr_ := None |}) as Hthis1.
  { simpl. apply list_lookup_insert_eq. rewrite length_app. lia. }
  assert (objects s1 !! length (objects s)
          = Some {| raw_ptr_ := Some a |}) as Hnew1.
  { simpl. rewrite list_lookup_insert_ne by lia.
    rewrite lookup_app_r by lia. by rewrite Nat.sub_diag. }
  exists s1. eexists. split_and!.
  - unfold ArrayPtr_move.
    rewrite (bind_Ok _ _ _ _ _ (read_ptr_Ok s this _ Hthis)). simpl.
    unfold mbind, M_bind, new_ptr. simpl.
    erewrite assign_ptr_Ok by (simpl; by apply lookup_app_l_Some). done.
  - done.
  - unfold Get. by rewrite (read_ptr_Ok _ _ _ Hthis1).
  - unfold to_bool. by rewrite (bind_Ok _ _ _ _ _ (read_ptr_Ok _ _ _ Hthis1)).
  - unfold Get. by rewrite (read_ptr_Ok _ _ _ Hnew1).
  - by apply destroy_null.
  - by eapply destroy_live.
  - done.
  - by apply destroy_null.
Qed.

(** X21.  [Release] returns the block and leaves the object null without
    deleting anything, so its destructor deletes nothing; an [ArrayPtr]
    built from the released pointer deletes the block when destroyed. *)
Theorem X21_Release_hands_over s this a block :
  objects s !! this = Some {| raw_ptr_ := Some a |} →
  blocks s !! a = Some (Some block) →
  ∃ s1 s2 s3,
    Release this s = Ok (Some a) s1 ∧
    blocks s1 = blocks s ∧ Get this s1 = Ok None s1 ∧
    destroy this s1 = Ok tt s1 ∧
    ArrayPtr_raw (Some a) s1 = Ok (length (objects s)) s2 ∧
    destroy (length (objects s)) s2 = Ok tt s3 ∧
    blocks s3 = <[a := None]> (blocks s).
Proof.
  intros Hthis Ha. pose proof (lookup_lt_Some _ _ _ Hthis) as Hlt.
  set (s1 := {| blocks := blocks s;
                objects := <[this := {| raw_ptr_ := None |}]> (objects s) |}).
  assert (objects s1 !! this = Some {| raw_ptr_ := None |}) as Hthis1
    by (simpl; by apply list_lookup_insert_eq).
  exists s1. eexists _, _. split_and!.
  - unfold Release.
    rewrite (bind_Ok _ _ _ _ _ (read_ptr_Ok s this _ Hthis)).
    by rewrite (bind_Ok _ _ _ _ _ (assign_ptr_Ok s this _ None Hthis)).
  - done.
  - unfold Get. by rewrite (read_ptr_Ok _ _ _ Hthis1).
  - by apply destroy_null.
  - unfold ArrayPtr_raw, new_ptr. simpl. by rewrite length_insert.
  - eapply destroy_live; simpl; [|done].
    rewrite lookup_app_r by (rewrite length_insert; lia).
    by rewrite length_insert, Nat.sub_diag.
  - done.
Qed.

(** X22.  Move assignment of [ArrayPtr]: self-assignment changes nothing;
    onto a null target it hands the block over and leaves the source null;
    onto a target that owns a block it is undefined behaviour, the block
    of [new[]] being deleted by the single-object [delete]. *)
Theorem X22_move_assign_cases s this other p :
  objects s !! other = Some {| raw_ptr_ := p |} →
  move_assign other other s = Ok tt s ∧
  (this ≠ other → objects s !! this = Some {| raw_ptr_ := None |} →
     ∃ s', move_assign this other s = Ok tt s' ∧
           blocks s' = blocks s ∧
           Get this s' = Ok p s' ∧ Get other s' = Ok None s') ∧
  (∀ a, this ≠ other →
     objects s !! this = Some {| raw_ptr_ := Some a |} →
     move_assign this other s = UB).
Proof.
  intros Hother. pose proof (lookup_lt_Some _ _ _ Hother) as Hlt.
  split_and!.
  - unfold move_assign. rewrite decide_False; [done | by intros ?].
  - intros Hne Hthis. pose proof (lookup_lt_Some _ _ _ Hthis) as Hlt'.
    unfold move_assign. rewrite decide_True by done.
    rewrite (bind_Ok _ _ _ _ _ (read_ptr_Ok s this _ Hthis)). simpl.
    unfold delete_single at 1. erewrite bind_Ok by reflexivity.
    rewrite (bind_Ok _ _ _ _ _ (read_ptr_Ok s other _ Hother)). simpl.
    rewrite (bind_Ok _ _ _ _ _ (assign_ptr_Ok s this _ p Hthis)).
    erewrite assign_ptr_Ok
      by (simpl; rewrite list_lookup_insert_ne by done; exact Hother).
    eexists. split; [done|]. simpl. unfold Get, read_ptr. simpl.
    rewrite list_lookup_insert_ne by done.
    rewrite list_lookup_insert_eq by done.
    rewrite list_lookup_insert_eq by (by rewrite length_insert). done.
  - intros a Hne Hthis. unfold move_assign. rewrite decide_True by done.
    rewrite (bind_Ok _ _ _ _ _ (read_ptr_Ok s this _ Hthis)). simpl.
    by apply bind_UB.
Qed.

End OwnershipFacts.

(** * The further properties at concrete inputs *)

(** [v.Insert(v.begin(), v[1])] on [[10, 20, 30]] with room for one more
    inserts [10], the value that the shift has left in slot 1. *)
Example Insert_ref_own_element :
  Insert_ref 0 (Inside 1) sample
  = Ok 0 {| items_ := [10; 10; 20; 30]; size_ := 4; capacity_ := 4 |}.
Proof. reflexivity. Qed.

(** [v.PushBack(v[0])] on the full [[1, 2]] reads the deleted block. *)
Example PushBack_ref_own_element_full :
  PushBack_ref (Inside 0) {| items_ := [1; 2]; size_ := 2; capacity_ := 2 |}
  = UB.
Proof. reflexivity. Qed.

Lemma X1_witness :
  wf sample ∧ can_grow sample ∧
  (∃ v', PushBack_ref (Outside 7) sample = Ok tt v' ∧
         elements v' = [10; 20; 30; 7] ∧ At 3 v' = Ok 7 v') ∧
  (∃ v', PushBack_ref (Inside 0) sample = Ok tt v' ∧
         elements v' = [10; 20; 30; 10]).
Proof.
  assert (wf sample) as Hwf by (unfold wf, SIZE_MAX, sample; simpl; lia).
  assert (can_grow sample) as Hgrow by (unfold can_grow, sample; simpl; lia).
  destruct (X1_PushBack_appends sample Hwf Hgrow) as (Hout & Hin & _).
  destruct (Hout 7) as (v1 & E1 & _ & _ & He1 & Hat1).
  assert (size_ sample < capacity_ sample) as Hroom by (simpl; lia).
  destruct (Hin 0 10 Hroom eq_refl) as ((v2 & E2 & _ & He2 & _) & _).
  split; [exact Hwf|]. split; [exact Hgrow|]. split.
  - exists v1. split; [exact E1|]. split; [exact He1 | exact Hat1].
  - exists v2. split; [exact E2 | exact He2].
Defined.

Lemma X2_witness :
  wf sample ∧ can_grow sample ∧ 0 ≤ 0 ≤ size_ sample ∧
  (∃ v', Insert_ref 0 (Outside 15) sample = Ok 0 v' ∧
         elements v' = [15; 10; 20; 30]) ∧
  (∃ v', Insert_ref 0 (Inside 1) sample = Ok 0 v' ∧
         elements v' = [10; 10; 20; 30]).
Proof.
  assert (wf sample) as Hwf by (unfold wf, SIZE_MAX, sample; simpl; lia).
  assert (can_grow sample) as Hgrow by (unfold can_grow, sample; simpl; lia).
  assert (0 ≤ 0 ≤ size_ sample) as Hpos by (simpl; lia).
  destruct (X2_Insert_splices sample 0 Hwf Hgrow Hpos) as (Hout & Hin & _).
  destruct (Hout 15) as (v1 & E1 & _ & _ & He1).
  assert (size_ sample < capacity_ sample) as Hroom by (simpl; lia).
  destruct (Hin 1 10 Hroom eq_refl) as ((v2 & E2 & _ & He2) & _).
  split; [exact Hwf|]. split; [exact Hgrow|]. split; [exact Hpos|]. split.
  - exists v1. split; [exact E1 | exact He1].
  - exists v2. split; [exact E2 | exact He2].
Defined.

Lemma X3_witness :
  wf sample ∧ 0 ≤ 1 < size_ sample ∧
  ∃ v', Erase 1 sample = Ok 1 v' ∧ capacity_ v' = 4 ∧
        elements v' = [10; 30].
Proof.
  assert (wf sample) as Hwf by (unfold wf, SIZE_MAX, sample; simpl; lia).
  assert (0 ≤ 1 < size_ sample) as Hpos by (simpl; lia).
  destruct (X3_Erase_removes sample 1 Hwf Hpos) as (v' & E & _ & Hc & He).
  split; [exact Hwf|]. split; [exact Hpos|].
  exists v'. split; [exact E|]. split; [exact Hc | exact He].
Defined.

Lemma X4_witness :
  wf sample ∧
  ∃ v', PopBack sample = Ok tt v' ∧ capacity_ v' = 4 ∧
        elements v' = [10; 20].
Proof.
  assert (wf sample) as Hwf by (unfold wf, SIZE_MAX, sample; simpl; lia).
  destruct (X4_PopBack_drops_last sample Hwf) as (v' & E & _ & Hc & He & _).
  split; [exact Hwf|]. exists v'. split; [exact E|].
  split; [exact Hc | exact He].
Defined.

Lemma X5_witness :
  wf sample ∧ size_ sample > 0 ∧ (3 < 0 ∨ size_ sample ≤ 3) ∧
  Erase 3 sample = UB.
Proof.
  assert (wf sample) as Hwf by (unfold wf, SIZE_MAX, sample; simpl; lia).
  assert (size_ sample > 0) as Hs by (simpl; lia).
  assert (3 < 0 ∨ size_ sample ≤ 3) as Hbad by (right; simpl; lia).
  destruct (X5_Erase_edges sample 3 Hwf) as [_ Hub].
  split; [exact Hwf|]. split; [exact Hs|]. split; [exact Hbad|].
  exact (Hub Hs Hbad).
Defined.

Lemma X6_witness :
  wf sample ∧ size_ sample < 4 ≤ SIZE_MAX ∧ Insert 4 7 sample = UB.
Proof.
  assert (wf sample) as Hwf by (unfold wf, SIZE_MAX, sample; simpl; lia).
  assert (size_ sample < 4 ≤ SIZE_MAX) as Hpos
    by (unfold SIZE_MAX; simpl; lia).
  destruct (X6_Insert_outside_range sample 4 7 Hwf) as [Hub _].
  split; [exact Hwf|]. split; [exact Hpos|]. exact (Hub Hpos).
Defined.

Lemma X7_witness :
  wf sample ∧ can_grow sample ∧
  ∃ v', PushBack 7 sample = Ok tt v' ∧ Insert 3 7 sample = Ok 3 v'.
Proof.
  assert (wf sample) as Hwf by (unfold wf, SIZE_MAX, sample; simpl; lia).
  assert (can_grow sample) as Hgrow by (unfold can_grow, sample; simpl; lia).
  destruct (X7_ends_coincide sample Hwf) as [Hpush _].
  destruct (Hpush 7 Hgrow) as (v' & E1 & E2).
  split; [exact Hwf|]. split; [exact Hgrow|]. exists v'.
  split; [exact E1 | exact E2].
Defined.

Lemma X8_witness :
  wf sample ∧ 0 ≤ 10 ≤ SIZE_MAX ∧
  ∃ v', Reserve 10 sample = Ok tt v' ∧ capacity_ v' = 10 ∧
        elements v' = [10; 20; 30].
Proof.
  assert (wf sample) as Hwf by (unfold wf, SIZE_MAX, sample; simpl; lia).
  assert (0 ≤ 10 ≤ SIZE_MAX) as Hn by (unfold SIZE_MAX; lia).
  destruct (X8_Reserve_exact sample 10 Hwf Hn)
    as (v' & E & _ & _ & He & Hc & _).
  split; [exact Hwf|]. split; [exact Hn|]. exists v'.
  split; [exact E|]. split; [|exact He]. apply Hc. simpl. lia.
Defined.

Lemma X9_witness :
  wf sample ∧ 0 ≤ 6 ≤ 2 ^ 62 ∧
  size_ sample + Z.of_nat (length [1; 2]) ≤ 6 ∧
  ∃ v1 u, Reserve 6 sample = Ok tt v1 ∧ push_all [1; 2] v1 = Ok tt u ∧
          capacity_ u = capacity_ v1 ∧ elements u = [10; 20; 30; 1; 2].
Proof.
  assert (wf sample) as Hwf by (unfold wf, SIZE_MAX, sample; simpl; lia).
  assert (0 ≤ 6 ≤ 2 ^ 62) as Hn by lia.
  assert (size_ sample + Z.of_nat (length [1; 2]) ≤ 6) as Hfit
    by (simpl; lia).
  destruct (X9_no_reallocation_within_capacity sample 6 [1; 2] Hwf Hn Hfit)
    as [(v1 & u & E1 & Eu & Hc & He) _].
  split; [exact Hwf|]. split; [exact Hn|]. split; [exact Hfit|].
  exists v1, u. split; [exact E1|]. split; [exact Eu|].
  split; [exact Hc | exact He].
Defined.

Lemma X10_witness :
  0 ≤ 3 ≤ SIZE_MAX ∧ Z.of_nat (length [4; 5]) ≤ SIZE_MAX ∧
  (∃ v, SimpleVector_fill 3 7 = Some v ∧ capacity_ v = 3 ∧
        elements v = [7; 7; 7]) ∧
  (∃ v, SimpleVector_init [4; 5] = Some v ∧ capacity_ v = 2 ∧
        elements v = [4; 5]).
Proof.
  assert (0 ≤ 3 ≤ SIZE_MAX) as Hn by (unfold SIZE_MAX; lia).
  assert (Z.of_nat (length [4; 5]) ≤ SIZE_MAX) as Hinit
    by (unfold SIZE_MAX; simpl; lia).
  destruct (X10_constructors 3 7 [4; 5] Hn Hinit)
    as (_ & (v1 & E1 & _ & _ & Hc1 & He1) & (v2 & E2 & _ & _ & Hc2 & He2) & _).
  split; [exact Hn|]. split; [exact Hinit|]. split.
  - exists v1. split; [exact E1|]. split; [exact Hc1 | exact He1].
  - exists v2. split; [exact E2|]. split; [exact Hc2 | exact He2].
Defined.

Lemma X11_witness :
  [sample; SimpleVector_default] !! 0%nat = Some sample ∧
  [sample; SimpleVector_default] !! 1%nat = Some SimpleVector_default ∧
  ∃ w', swap_objects 0 1 [sample; SimpleVector_default] = Ok tt w' ∧
        w' !! 0%nat = Some SimpleVector_default ∧ w' !! 1%nat = Some sample.
Proof.
  destruct (X11_swap_exchanges [sample; SimpleVector_default] 0 1
              sample SimpleVector_default eq_refl eq_refl)
    as (w' & E & H0 & H1 & _).
  split; [reflexivity|]. split; [reflexivity|]. exists w'.
  split; [exact E|]. split; [exact H0 | exact H1].
Defined.

Lemma X12_witness :
  wf sample ∧ 0 ≤ 3 ∧ size_ sample ≤ 3 < capacity_ sample ∧
  (∃ x, slot sample 3 = Some x ∧ subscript 3 sample = Ok x sample) ∧
  At 3 sample = Throw out_of_range sample.
Proof.
  assert (wf sample) as Hwf by (unfold wf, SIZE_MAX, sample; simpl; lia).
  assert (0 ≤ 3) as Hi by lia.
  assert (size_ sample ≤ 3 < capacity_ sample) as Hmid by (simpl; lia).
  destruct (X12_subscript_unchecked sample 3 Hwf Hi) as (_ & Hslack & _).
  split; [exact Hwf|]. split; [exact Hi|]. split; [exact Hmid|].
  exact (Hslack Hmid).
Defined.

Lemma X13_witness :
  wf sample ∧
  Resize 9 sample
  = Ok tt {| items_ := [10; 20; 30; 0; 0; 0; 0; 0; 0]; size_ := 9;
             capacity_ := 9 |} ∧
  capacity_ sample
  ≤ capacity_ {| items_ := [10; 20; 30; 0; 0; 0; 0; 0; 0]; size_ := 9;
                 capacity_ := 9 |}.
Proof.
  assert (wf sample) as Hwf by (unfold wf, SIZE_MAX, sample; simpl; lia).
  assert (Resize 9 sample
          = Ok tt {| items_ := [10; 20; 30; 0; 0; 0; 0; 0; 0]; size_ := 9;
                     capacity_ := 9 |}) as E by (by vm_compute).
  destruct (X13_capacity_never_shrinks sample Hwf)
    as (_ & _ & _ & Hresize & _).
  split; [exact Hwf|]. split; [exact E|].
  apply (Hresize 9 tt _ ltac:(unfold SIZE_MAX; lia) E).
Defined.

Lemma X14_witness :
  wf sample ∧ Z.of_nat (length [1; 2]) ≤ capacity_ sample ∧
  ∃ v1 u, Clear sample = Ok tt v1 ∧ IsEmpty v1 = true ∧
          capacity_ v1 = 4 ∧ push_all [1; 2] v1 = Ok tt u ∧
          capacity_ u = 4 ∧ elements u = [1; 2].
Proof.
  assert (wf sample) as Hwf by (unfold wf, SIZE_MAX, sample; simpl; lia).
  assert (Z.of_nat (length [1; 2]) ≤ capacity_ sample) as Hfit
    by (simpl; lia).
  destruct (X14_Clear_keeps_storage sample [1; 2] Hwf Hfit)
    as (v1 & u & E1 & _ & Hempty & _ & _ & Hc1 & _ & Eu & Hcu & Heu).
  split; [exact Hwf|]. split; [exact Hfit|]. exists v1, u.
  split; [exact E1|]. split; [exact Hempty|]. split; [exact Hc1|].
  split; [exact Eu|]. split; [exact Hcu | exact Heu].
Defined.

Lemma X15_witness :
  wf sample ∧ 0 ≤ 5 ≤ SIZE_MAX ∧
  (capacity_ sample < 5 → moved (dflt (T := Z)) = dflt) ∧
  ∃ v', Resize 5 sample = Ok tt v' ∧ elements v' = [10; 20; 30; 0; 0].
Proof.
  assert (wf sample) as Hwf by (unfold wf, SIZE_MAX, sample; simpl; lia).
  assert (0 ≤ 5 ≤ SIZE_MAX) as Hn by (unfold SIZE_MAX; lia).
  assert (capacity_ sample < 5 → moved (dflt (T := Z)) = dflt) as Hmoved
    by (intros _; reflexivity).
  destruct (X15_Resize_contents sample 5 Hwf Hn Hmoved) as (v' & E & _ & He & _).
  split; [exact Hwf|]. split; [exact Hn|]. split; [exact Hmoved|].
  exists v'. split; [exact E | exact He].
Defined.

Lemma X16_witness :
  run scenario []
  = Ok tt [{| items_ := [15; 20; 0; 0; 0; 0; 0; 0]; size_ := 5;
              capacity_ := 8 |}] ∧
  Forall (λ v : SimpleVector Z,
            Z.of_nat (length (items_ v)) = capacity_ v ∧
            0 ≤ capacity_ v ≤ SIZE_MAX ∧
            (items_ v = [] ↔ capacity_ v = 0))
    [{| items_ := [15; 20; 0; 0; 0; 0; 0; 0]; size_ := 5; capacity_ := 8 |}].
Proof.
  assert (run scenario []
          = Ok tt [{| items_ := [15; 20; 0; 0; 0; 0; 0; 0]; size_ := 5;
                      capacity_ := 8 |}]) as E by (by vm_compute).
  split; [exact E|]. exact (X16_block_matches_capacity scenario tt _ E).
Defined.

Lemma X17_witness :
  wf {| items_ := [1; 2; 3]; size_ := 3; capacity_ := 3 |} ∧
  wf {| items_ := [1; 2; 4; 0]; size_ := 3; capacity_ := 4 |} ∧
  wf {| items_ := [2]; size_ := 1; capacity_ := 1 |} ∧
  (∀ x : Z, ltb x x = false) ∧
  (∀ x y z : Z, ltb x y = true → ltb y z = true → ltb x z = true) ∧
  (∀ x y z : Z, ltb x y = false → ltb y x = false →
                ltb y z = false → ltb z y = false →
                ltb x z = false ∧ ltb z x = false) ∧
  operator_lt {| items_ := [1; 2; 3]; size_ := 3; capacity_ := 3 |}
    {| items_ := [2]; size_ := 1; capacity_ := 1 |} = Some true.
Proof.
  assert (wf {| items_ := [1; 2; 3]; size_ := 3; capacity_ := 3 |}) as Ha
    by (unfold wf, SIZE_MAX; simpl; lia).
  assert (wf {| items_ := [1; 2; 4; 0]; size_ := 3; capacity_ := 4 |}) as Hb
    by (unfold wf, SIZE_MAX; simpl; lia).
  assert (wf {| items_ := [2]; size_ := 1; capacity_ := 1 |}) as Hc
    by (unfold wf, SIZE_MAX; simpl; lia).
  assert (∀ x : Z, ltb x x = false) as Hirr
    by (intros x; simpl; lia).
  assert (∀ x y z : Z, ltb x y = true → ltb y z = true → ltb x z = true)
    as Htrans by (intros x y z; simpl; lia).
  assert (∀ x y z : Z, ltb x y = false → ltb y x = false →
                       ltb y z = false → ltb z y = false →
                       ltb x z = false ∧ ltb z x = false) as Hinc
    by (intros x y z; simpl; lia).
  destruct (X17_operator_lt_strict_order _ _ _ Ha Hb Hc Hirr Htrans Hinc)
    as (_ & _ & _ & _ & Hchain).
  split; [exact Ha|]. split; [exact Hb|]. split; [exact Hc|].
  split; [exact Hirr|]. split; [exact Htrans|]. split; [exact Hinc|].
  apply Hchain; reflexivity.
Defined.

Lemma X18_witness :
  wf {| items_ := [1; 2]; size_ := 2; capacity_ := 2 |} ∧
  wf sample ∧
  (∀ x : Z, eqb x x = true) ∧
  (∀ x y : Z, eqb x y = eqb y x) ∧
  (∀ x y z : Z, eqb x y = true → eqb y z = true → eqb x z = true) ∧
  operator_eq {| items_ := [1; 2]; size_ := 2; capacity_ := 2 |}
    {| items_ := [1; 2; 0; 0]; size_ := 2; capacity_ := 4 |} = Some true.
Proof.
  assert (wf {| items_ := [1; 2]; size_ := 2; capacity_ := 2 |}) as Ha
    by (unfold wf, SIZE_MAX; simpl; lia).
  assert (wf {| items_ := [1; 2; 0; 0]; size_ := 2; capacity_ := 4 |}) as Hb
    by (unfold wf, SIZE_MAX; simpl; lia).
  assert (wf sample) as Hc by (unfold wf, SIZE_MAX, sample; simpl; lia).
  assert (∀ x : Z, eqb x x = true) as Hrefl by (intros x; simpl; lia).
  assert (∀ x y : Z, eqb x y = eqb y x) as Hsym
    by (intros x y; simpl; apply Z.eqb_sym).
  assert (∀ x y z : Z, eqb x y = true → eqb y z = true → eqb x z = true)
    as Htrans by (intros x y z; simpl; lia).
  destruct (X18_operator_eq_equivalence _ _ _ Ha Hb Hc Hrefl Hsym Htrans)
    as (Hsame & _ & _).
  split; [exact Ha|]. split; [exact Hc|]. split; [exact Hrefl|].
  split; [exact Hsym|]. split; [exact Htrans|].
  by destruct (Hsame eq_refl) as [Heq _].
Defined.

Lemma X19_witness :
  0 ≤ 2 ≤ SIZE_MAX ∧
  ∃ s', Ownership.ArrayPtr_size 2 sample_memory = Ok 2%nat s' ∧
        Ownership.blocks s' = [Some [1; 2]; Some [0; 0]] ∧
        Ownership.to_bool 2 s' = Ok true s'.
Proof.
  assert (0 ≤ 2 ≤ SIZE_MAX) as Hn by (unfold SIZE_MAX; lia).
  destruct (X19_sized_buffer sample_memory 2 Hn)
    as (s' & E & Hb & _ & Hnz & _).
  destruct (Hnz ltac:(lia)) as [_ Hblocks].
  split; [exact Hn|]. exists s'. split; [exact E|].
  split; [exact Hblocks | exact Hb].
Defined.

Lemma X20_witness :
  Ownership.objects sample_memory !! 0%nat
  = Some {| Ownership.raw_ptr_ := Some 0%nat |} ∧
  Ownership.blocks sample_memory !! 0%nat = Some (Some [1; 2]) ∧
  ∃ s1 s2,
    Ownership.ArrayPtr_move 0 sample_memory = Ok 2%nat s1 ∧
    Ownership.Get 0 s1 = Ok None s1 ∧
    Ownership.Get 2 s1 = Ok (Some 0%nat) s1 ∧
    Ownership.destroy 0 s1 = Ok tt s1 ∧
    Ownership.destroy 2 s1 = Ok tt s2 ∧
    Ownership.blocks s2 = [None].
Proof.
  destruct (X20_move_transfers_ownership sample_memory 0 0 [1; 2]
              eq_refl eq_refl)
    as (s1 & s2 & E & _ & Hsrc & _ & Hnew & Hd1 & Hd2 & Hb & _).
  split; [reflexivity|]. split; [reflexivity|]. exists s1, s2.
  split; [exact E|]. split; [exact Hsrc|]. split; [exact Hnew|].
  split; [exact Hd1|]. split; [exact Hd2 | exact Hb].
Defined.

Lemma X21_witness :
  Ownership.objects sample_memory !! 0%nat
  = Some {| Ownership.raw_ptr_ := Some 0%nat |} ∧
  Ownership.blocks sample_memory !! 0%nat = Some (Some [1; 2]) ∧
  ∃ s1 s2 s3,
    Ownership.Release 0 sample_memory = Ok (Some 0%nat) s1 ∧
    Ownership.blocks s1 = [Some [1; 2]] ∧
    Ownership.destroy 0 s1 = Ok tt s1 ∧
    Ownership.ArrayPtr_raw (Some 0%nat) s1 = Ok 2%nat s2 ∧
    Ownership.destroy 2 s2 = Ok tt s3 ∧
    Ownership.blocks s3 = [None].
Proof.
  destruct (X21_Release_hands_over sample_memory 0 0 [1; 2]
              eq_refl eq_refl)
    as (s1 & s2 & s3 & E & Hb1 & _ & Hd1 & Eraw & Hd2 & Hb3).
  split; [reflexivity|]. split; [reflexivity|]. exists s1, s2, s3.
  split; [exact E|]. split; [exact Hb1|]. split; [exact Hd1|].
  split; [exact Eraw|]. split; [exact Hd2 | exact Hb3].
Defined.

Lemma X22_witness :
  Ownership.objects sample_memory !! 0%nat
  = Some {| Ownership.raw_ptr_ := Some 0%nat |} ∧
  Ownership.objects sample_memory !! 1%nat
  = Some {| Ownership.raw_ptr_ := None |} ∧
  (∃ s', Ownership.move_assign 1 0 sample_memory = Ok tt s' ∧
         Ownership.Get 1 s' = Ok (Some 0%nat) s' ∧
         Ownership.Get 0 s' = Ok None s') ∧
  Ownership.move_assign 0 1 sample_memory = UB.
Proof.
  destruct (X22_move_assign_cases sample_memory 1 0 (Some 0%nat) eq_refl)
    as (_ & Hnull & _).
  destruct (Hnull ltac:(lia) eq_refl) as (s' & E & _ & Hthis & Hother).
  destruct (X22_move_assign_cases sample_memory 0 1 None eq_refl)
    as (_ & _ & Hown).
  split; [reflexivity|]. split; [reflexivity|]. split.
  - exists s'. split; [exact E|]. split; [exact Hthis | exact Hother].
  - exact (Hown 0%nat ltac:(lia) eq_refl).
Defined.
